(** * cgadimpl: checkpointing, reverse/forward differentiation and the tracer

    A shallow embedding of
      - [cgadimpl/src/core/checkpoint.cpp]  (namespace [ag::checkpoint_impl]),
      - [cgadimpl/src/core/autodiff.cpp]    (namespace [ag]),
      - [cgadimpl/src/tools/tracer.cpp]     (namespace [ag::trace]).

    Nodes live in a heap indexed by their address; a [shared_ptr<Node>] or a
    raw [Node*] is an optional address.  Every function that mutates nodes or
    writes to [std::cerr] runs in a small state-and-exception monad whose
    state is the heap together with the trace of observable events. *)

From stdpp Require Import base option list gmap sets fin_sets fin_maps strings.
From Stdlib Require Import ZArith Lia.

#[global] Set Warnings "-clear-no-such-hyp".

(** ** Tensors *)

(** Modelled from the spec: the tensor library is an external collaborator
    ([Tensor] with [rows()], [cols()], [numel()], [size()], [zeros_like],
    [ones], [ones_like], and the empty sentinel [Tensor()]).  An element is a
    [float], kept as its 32-bit pattern: the engine only copies elements and
    builds the constants 0.0f and 1.0f. *)
Definition float32 := Z.
Definition f32_zero : float32 := 0%Z.
Definition f32_one : float32 := 1065353216%Z. (* 0x3F800000 *)

Record Tensor := mkTensor {
  rows : nat;
  cols : nat;
  data : list float32;
}.

#[global] Instance Tensor_eq_dec : EqDecision Tensor.
Proof. solve_decision. Defined.

Definition numel (t : Tensor) : nat := rows t * cols t.
(** [size()] is the element count as well: the code compares it with 0 and 1. *)
Definition size_ (t : Tensor) : nat := numel t.

Definition Tensor_empty : Tensor := mkTensor 0 0 [].
Definition Tensor_full (x : float32) (r c : nat) : Tensor :=
  mkTensor r c (replicate (r * c) x).
Definition Tensor_ones (r c : nat) : Tensor := Tensor_full f32_one r c.
Definition Tensor_zeros (r c : nat) : Tensor := Tensor_full f32_zero r c.
Definition Tensor_ones_like (t : Tensor) : Tensor := Tensor_ones (rows t) (cols t).
Definition Tensor_zeros_like (t : Tensor) : Tensor := Tensor_zeros (rows t) (cols t).

Definition same_shape (a b : Tensor) : Prop := rows a = rows b ∧ cols a = cols b.

(** ** Nodes and the heap *)

(** Address of a node; [option ptr] is a possibly-null pointer. *)
Abbreviation ptr := nat.

Inductive Op :=
  | Leaf | Add | Mul | MatMul | Relu | GELU | MSELoss | CeWithLogits | Sum
  | OtherOp (tag : nat).

#[global] Instance Op_eq_dec : EqDecision Op.
Proof. solve_decision. Defined.

(** [ag::Value]: a handle on a node. *)
Record Value := mkValue { node : option ptr }.

(** [RngBlob = std::vector<uint8_t>]. *)
Definition RngBlob := list Z.

(** The fields of [Node] the three translation units touch. *)
Record Node := mkNode {
  op : Op;
  inputs : list (option ptr);
  value : Tensor;
  grad : Tensor;
  requires_grad : bool;
  is_checkpoint : bool;
  saved_inputs : list Value;
  saved_input_tensors : list Tensor;
  has_saved_rng : bool;
  saved_rng_blob : RngBlob;
  tape : list Tensor;
  debug_name : option string;
}.

Definition set_value (t : Tensor) (n : Node) : Node :=
  mkNode (op n) (inputs n) t (grad n) (requires_grad n) (is_checkpoint n)
         (saved_inputs n) (saved_input_tensors n) (has_saved_rng n)
         (saved_rng_blob n) (tape n) (debug_name n).

Definition set_grad (g : Tensor) (n : Node) : Node :=
  mkNode (op n) (inputs n) (value n) g (requires_grad n) (is_checkpoint n)
         (saved_inputs n) (saved_input_tensors n) (has_saved_rng n)
         (saved_rng_blob n) (tape n) (debug_name n).

Definition set_tape (tp : list Tensor) (n : Node) : Node :=
  mkNode (op n) (inputs n) (value n) (grad n) (requires_grad n) (is_checkpoint n)
         (saved_inputs n) (saved_input_tensors n) (has_saved_rng n)
         (saved_rng_blob n) tp (debug_name n).

Definition set_saved_input_tensors (ts : list Tensor) (n : Node) : Node :=
  mkNode (op n) (inputs n) (value n) (grad n) (requires_grad n) (is_checkpoint n)
         (saved_inputs n) ts (has_saved_rng n)
         (saved_rng_blob n) (tape n) (debug_name n).

Abbreviation heap := (gmap ptr Node).

(** Dereference of a possibly-null pointer.  A pointer outside the heap is
    read as null: every [shared_ptr] of the program owns a live node. *)
Definition deref (h : heap) (p : option ptr) : option Node := p ≫= (h !!.).

(** The parents' current values as a forward evaluator or a snapshot sees them. *)
Definition value_of (h : heap) (p : option ptr) : Tensor :=
  from_option value Tensor_empty (deref h p).

(** ** Exceptions and observable events *)

(** Identity of a node as the messages print it: address and debug name. *)
Record ident := mkIdent { id_addr : ptr; id_name : option string }.

Definition ident_of (h : heap) (p : ptr) : ident :=
  mkIdent p (h !! p ≫= debug_name).

(** What [std::runtime_error]s and foreign [std::exception]s carry. *)
Inductive exn :=
  | ExternalError (what : string)
  | RecomputeCheckpointFailed (n : ident)
  | RecomputeParentFailed (p n : ident)
  | ParentValueEmptyNotCheckpointed (p n : ident)
  | VjpFailed (n : ident) (cause : exn).

(** Lines on [std::cerr] and calls into the external collaborators. *)
Inductive event :=
  | LogMarkCheckpoint (n : ident) (n_inputs : nat)
  | LogSavedInputsCount (count : nat) (n : ptr)
  | LogComputeForwardRecomputed (n : ident) (o : Op) (r c : nat)
  | LogComputeForwardFailed (n : ident) (e : exn)
  | LogCapture (n : ident) (n_inputs : nat)
  | LogNoSavedInputs (n : ident) (n_inputs : nat)
  | LogRecomputeMissingParent (i : nat)
  | LogRecomputeInput (i : nat) (p : ident) (numel_ r c : nat) (o : Op)
  | LogRecomputeEmptyInputWarning
  | LogFailedRecomputeParent
  | LogMissingParentNotCheckpointed
  | LogRecomputeException (e : exn)
  | LogEvictFreed (count bytes : nat)
  | LogBackwardError (e : exn)
  | LogBackwardNoVjp (o : Op) (name : option string)
  | CallRestoreRng (blob : RngBlob)
  | CallForwardEval (n : ptr)
  | CallOnRecomputed (n : ptr)
  | CallOnBackpropStep (n : ptr) (gy : Tensor)
  | CallVjp (n : ptr) (gy : Tensor)
  | CallOnJvpStep (n : ptr)
  | CallJvp (n : ptr).

(** ** The state-and-exception monad *)

Record State := mkState { st_heap : heap; st_trace : list event }.

(** [Diverged] stands for a recursion that exhausted its budget. *)
Inductive outcome (A : Type) :=
  | Returned (a : A)
  | Thrown (e : exn)
  | Diverged.
Arguments Returned {A} a.
Arguments Thrown {A} e.
Arguments Diverged {A}.

Definition M (A : Type) : Type := State → outcome A * State.

Definition ret {A} (a : A) : M A := λ s, (Returned a, s).
Definition bind {A B} (c : M A) (k : A → M B) : M B :=
  λ s, match c s with
       | (Returned a, s') => k a s'
       | (Thrown e, s') => (Thrown e, s')
       | (Diverged, s') => (Diverged, s')
       end.
Definition throw {A} (e : exn) : M A := λ s, (Thrown e, s).
Definition diverge {A} : M A := λ s, (Diverged, s).
(** [try { c } catch (const std::exception&) { handler }] *)
Definition try_catch {A} (c : M A) (handler : exn → M A) : M A :=
  λ s, match c s with
       | (Thrown e, s') => handler e s'
       | r => r
       end.

Declare Scope engine_scope.
Delimit Scope engine_scope with M.
Notation "x <- c ;; k" := (bind c (λ x, k))
  (at level 100, c at next level, right associativity) : engine_scope.
Notation "c ;; k" := (bind c (λ _, k))
  (at level 100, right associativity) : engine_scope.
Bind Scope engine_scope with M.
Open Scope engine_scope.

Definition get_heap : M heap := λ s, (Returned (st_heap s), s).
Definition put_heap (h : heap) : M unit := λ s, (Returned tt, mkState h (st_trace s)).
Definition emit (e : event) : M unit :=
  λ s, (Returned tt, mkState (st_heap s) (st_trace s ++ [e])).
(** In-place update of one live node. *)
Definition update (p : ptr) (f : Node → Node) : M unit :=
  λ s, (Returned tt, mkState (alter f p (st_heap s)) (st_trace s)).
Definition when (b : bool) (c : M unit) : M unit := if b then c else ret tt.

(** Sequential [for] over a vector. *)
Fixpoint for_each {A} (l : list A) (body : A → M unit) : M unit :=
  match l with
  | [] => ret tt
  | x :: l' => body x ;; for_each l' body
  end.

(** Field updates used by the checkpoint subsystem. *)
Definition set_is_checkpoint (b : bool) (n : Node) : Node :=
  mkNode (op n) (inputs n) (value n) (grad n) (requires_grad n) b
         (saved_inputs n) (saved_input_tensors n) (has_saved_rng n)
         (saved_rng_blob n) (tape n) (debug_name n).

Definition set_saved_inputs (vs : list Value) (n : Node) : Node :=
  mkNode (op n) (inputs n) (value n) (grad n) (requires_grad n) (is_checkpoint n)
         vs (saved_input_tensors n) (has_saved_rng n)
         (saved_rng_blob n) (tape n) (debug_name n).

Definition set_has_saved_rng (b : bool) (n : Node) : Node :=
  mkNode (op n) (inputs n) (value n) (grad n) (requires_grad n) (is_checkpoint n)
         (saved_inputs n) (saved_input_tensors n) b
         (saved_rng_blob n) (tape n) (debug_name n).

Definition set_saved_rng_blob (b : RngBlob) (n : Node) : Node :=
  mkNode (op n) (inputs n) (value n) (grad n) (requires_grad n) (is_checkpoint n)
         (saved_inputs n) (saved_input_tensors n) (has_saved_rng n)
         b (tape n) (debug_name n).

(** ** The op library *)

(** A VJP rule reads [(n, gy)] and accumulates into the parents' [grad]; it
    may raise.  The heap it returns is the one it leaves behind either way. *)
Definition VjpFn := ptr → Tensor → heap → heap * option string.
(** A JVP rule reads [n] and the parents' tangents and returns [n]'s tangent. *)
Definition JvpFn := heap → ptr → (option ptr → Tensor) → string + Tensor.

(** The external collaborators the core consumes: the forward evaluator, a
    function of the op tag and of the parents' current values (a null parent
    is presented as [None]), and the two rule tables. *)
Class OpLibrary := {
  forward_eval : Op → list (option Tensor) → string + Tensor;
  vjp_lookup : Op → option VjpFn;
  jvp_lookup : Op → option JvpFn;
}.

(** ** Depth-first post-order ([dfs_visit] of tracer.cpp) *)

Record dfs_state := mkDfs {
  temp : gset ptr;
  perm : gset ptr;
  out : list ptr;
}.

Definition dfs_init : dfs_state := mkDfs ∅ ∅ [].

(** [temp] is never emptied, so it holds every node whose visit has begun and
    [perm] those whose visit has ended.  [fuel] bounds the recursion depth: a
    call on an unmarked node needs one unit, and a visit that finds none
    stops there.  The depth never exceeds the number of unmarked live nodes
    ([dfs_visit_spec] below), which is the budget the callers give. *)
Fixpoint dfs_visit (fuel : nat) (h : heap) (captured_set : gset ptr)
    (n : option ptr) (st : dfs_state) : dfs_state :=
  match n with
  | None => st
  | Some a =>
    if decide (a ∈ perm st) then st
    else if decide (a ∈ temp st) then st
    else
      match fuel, h !! a with
      | S fuel', Some nd =>
        let st1 := mkDfs ({[a]} ∪ temp st) (perm st) (out st) in
        let st2 :=
          foldl (λ s in_sp,
                   match in_sp with
                   | None => s
                   | Some in_raw =>
                     if decide (in_raw ∈ captured_set)
                     then dfs_visit fuel' h captured_set (Some in_raw) s
                     else s
                   end) st1 (inputs nd) in
        mkDfs (temp st2) ({[a]} ∪ perm st2) (out st2 ++ [a])
      | _, _ => st
      end
  end.

(** Modelled from the spec: [topo_from] (graph.cpp is not among the sources),
    "produced by DFS from the root over [inputs], emitting on post-order",
    each node once: the post-order above, run from the root over all live
    nodes. *)
Definition topo_from (h : heap) (root : ptr) : list (option ptr) :=
  Some <$> out (dfs_visit (size h) h (dom h) (Some root) dfs_init).

(** ** checkpoint.cpp *)

Record CheckpointOptions := mkOpts { save_rng : bool }.

Definition save_rng_state : RngBlob := [].
Definition restore_rng_state (b : RngBlob) : M unit := emit (CallRestoreRng b).

(** One iteration of the snapshot loop of [mark_node_checkpoint]: the two
    [emplace_back]s on [saved_input_tensors] and [saved_inputs]. *)
Definition push_saved (c : ptr) (t : Tensor) (v : Value) : M unit :=
  update c (λ n, set_saved_input_tensors (saved_input_tensors n ++ [t]) n) ;;
  update c (λ n, set_saved_inputs (saved_inputs n ++ [v]) n).

Definition mark_slot (c : ptr) (p : option ptr) : M unit :=
  h <- get_heap ;;
  match deref h p with
  | Some pn =>
    if decide (size_ (value pn) ≠ 0)
    then push_saved c (value pn) (mkValue None)
    else push_saved c Tensor_empty (mkValue None)
  | None => push_saved c Tensor_empty (mkValue None)
  end.

Definition mark_node_checkpoint (node_ : option ptr) (opts : CheckpointOptions) : M unit :=
  h <- get_heap ;;
  match deref h node_, node_ with
  | Some nd, Some c =>
    if is_checkpoint nd then ret tt
    else
      update c (set_is_checkpoint true) ;;
      emit (LogMarkCheckpoint (ident_of h c) (length (inputs nd))) ;;
      update c (set_saved_inputs []) ;;
      update c (set_saved_input_tensors []) ;;
      for_each (inputs nd) (mark_slot c) ;;
      h' <- get_heap ;;
      emit (LogSavedInputsCount (from_option (length ∘ saved_inputs) 0 (h' !! c)) c) ;;
      if save_rng opts then
        update c (set_saved_rng_blob save_rng_state) ;;
        update c (set_has_saved_rng true)
      else
        update c (set_has_saved_rng false)
  | _, _ => ret tt
  end.

Section Checkpoint.
Context `{OpLibrary}.

(** [forward_eval_node(n)]: the external evaluator applied to the node's op
    and to its parents' current values. *)
Definition forward_eval_node (n : ptr) : M Tensor :=
  emit (CallForwardEval n) ;;
  h <- get_heap ;;
  match h !! n with
  | Some nd =>
    match forward_eval (op nd) ((λ p, value <$> deref h p) <$> inputs nd) with
    | inr t => ret t
    | inl what => throw (ExternalError what)
    end
  | None => throw (ExternalError "forward_eval_node: dangling node")
  end.

(** [ag::inplace::on_recomputed(n)]: notification of the version table. *)
Definition on_recomputed (n : ptr) : M unit := emit (CallOnRecomputed n).

(** Body of the loop of [compute_forward_values] for one entry of the order. *)
Definition compute_forward_node (n_ : option ptr) : M unit :=
  h <- get_heap ;;
  match deref h n_, n_ with
  | Some nd, Some n =>
    if decide (size_ (value nd) ≠ 0) then ret tt
    else
      try_catch
        (t <- forward_eval_node n ;;
         update n (set_value t) ;;
         on_recomputed n ;;
         emit (LogComputeForwardRecomputed (ident_of h n) (op nd) (rows t) (cols t)))
        (λ e, emit (LogComputeForwardFailed (ident_of h n) e))
  | _, _ => ret tt
  end.

Definition compute_forward_values (root : Value) : M unit :=
  match node root with
  | None => ret tt
  | Some r =>
    h0 <- get_heap ;;
    for_each (topo_from h0 r) compute_forward_node
  end.

(** One iteration of the inner loop of [capture_checkpoint_snapshots]. *)
Definition capture_slot (n : ptr) (p_sp : option ptr) : M unit :=
  h <- get_heap ;;
  match deref h p_sp with
  | None =>
    update n (λ x, set_saved_input_tensors (saved_input_tensors x ++ [Tensor_empty]) x)
  | Some p =>
    if decide (size_ (value p) ≠ 0) then
      update n (λ x, set_saved_input_tensors (saved_input_tensors x ++ [value p]) x)
    else
      update n (λ x, set_saved_input_tensors (saved_input_tensors x ++ [Tensor_empty]) x)
  end.

(** Body of the loop of [capture_checkpoint_snapshots] for one entry. *)
Definition capture_node (n_ : option ptr) : M unit :=
  h <- get_heap ;;
  match deref h n_, n_ with
  | Some nd, Some n =>
    if negb (is_checkpoint nd) then ret tt
    else
      update n (set_saved_input_tensors []) ;;
      for_each (inputs nd) (capture_slot n) ;;
      emit (LogCapture (ident_of h n) (length (inputs nd)))
  | _, _ => ret tt
  end.

Definition capture_checkpoint_snapshots (root : Value) : M unit :=
  match node root with
  | None => ret tt
  | Some r =>
    h0 <- get_heap ;;
    for_each (topo_from h0 r) capture_node
  end.

(** Step 1 of [recompute_subgraph]: the loop over the input slots.  [rec] is
    the recursive call; the result [false] is the early [return false]. *)
Fixpoint restore_parents (rec : option ptr → M bool) (i : nat)
    (slots : list (Value * option ptr)) : M bool :=
  match slots with
  | [] => ret true
  | (sv, parent) :: slots' =>
    h <- get_heap ;;
    match deref h parent, parent with
    | Some pn, Some p =>
      emit (LogRecomputeInput i (ident_of h p) (numel (value pn))
              (rows (value pn)) (cols (value pn)) (op pn)) ;;
      when (bool_decide (numel (value pn) = 0)) (emit LogRecomputeEmptyInputWarning) ;;
      match node sv with
      | Some src =>
        update p (set_value (value_of h (Some src))) ;;
        restore_parents rec (S i) slots'
      | None =>
        if decide (size_ (value pn) = 0) then
          if is_checkpoint pn then
            ok <- rec parent ;;
            if ok : bool then restore_parents rec (S i) slots'
            else emit LogFailedRecomputeParent ;; ret false
          else emit LogMissingParentNotCheckpointed ;; ret false
        else restore_parents rec (S i) slots'
      end
    | _, _ =>
      emit (LogRecomputeMissingParent i) ;;
      restore_parents rec (S i) slots'
    end
  end.

(** [fuel] bounds the depth of the recursion through checkpointed parents. *)
Fixpoint recompute_subgraph (fuel : nat) (node_ : option ptr) : M bool :=
  match fuel with
  | 0 => diverge
  | S fuel' =>
    h <- get_heap ;;
    match deref h node_, node_ with
    | Some nd, Some c =>
      if negb (is_checkpoint nd) then ret false
      else
        match saved_inputs nd with
        | [] => emit (LogNoSavedInputs (ident_of h c) (length (inputs nd))) ;; ret false
        | _ :: _ =>
          when (has_saved_rng nd) (restore_rng_state (saved_rng_blob nd)) ;;
          ok <- restore_parents (recompute_subgraph fuel') 0
                  (zip (saved_inputs nd) (inputs nd)) ;;
          if ok : bool then
            try_catch
              (out_ <- forward_eval_node c ;;
               update c (set_value out_) ;;
               on_recomputed c ;;
               ret true)
              (λ e, emit (LogRecomputeException e) ;; ret false)
          else ret false
        end
    | _, _ => ret false
    end
  end.

Definition ensure_value_present (fuel : nat) (node_ : option ptr) : M bool :=
  h <- get_heap ;;
  match deref h node_ with
  | None => ret false
  | Some nd =>
    if decide (size_ (value nd) ≠ 0) then ret true
    else if is_checkpoint nd then recompute_subgraph fuel node_
    else ret false
  end.

End Checkpoint.

(** *** Eviction *)

(** The non-null inputs a traversal pushes on its queue. *)
Definition push_inputs (q : list (option ptr)) (nd : Node) : list (option ptr) :=
  q ++ filter (λ p, is_Some p) (inputs nd).

(** Phase 1: breadth-first marking of the protected set; descent stops at
    checkpoints.  [fuel] counts the nodes still to be marked; popping an
    entry that is null or already marked costs nothing.  The number of live
    nodes is budget enough for the queue to be emptied ([protect_loop_inv]
    and [sweep_loop_inv] below). *)
Fixpoint protect_loop (fuel : nat) (h : heap) {struct fuel}
    : list (option ptr) → gset ptr → gset ptr :=
  fix go (q : list (option ptr)) (protected_set : gset ptr) {struct q} : gset ptr :=
    match q with
    | [] => protected_set
    | n :: q' =>
      match deref h n, n with
      | Some nd, Some a =>
        if decide (a ∈ protected_set) then go q' protected_set
        else
          match fuel with
          | 0 => protected_set
          | S fuel' =>
            if is_checkpoint nd
            then protect_loop fuel' h q' ({[a]} ∪ protected_set)
            else protect_loop fuel' h (push_inputs q' nd) ({[a]} ∪ protected_set)
          end
      | _, _ => go q' protected_set
      end
    end.

Record sweep_state := mkSweep {
  sw_heap : heap;
  seen : gset ptr;
  cleared_count : nat;
  cleared_bytes : nat;
}.

Definition sizeof_float : nat := 4.

(** [n->value = Tensor(); n->tape.clear();] *)
Definition evict_node (n : Node) : Node := set_tape [] (set_value Tensor_empty n).

(** Phase 2: breadth-first sweep of everything reachable. *)
Fixpoint sweep_loop (fuel : nat) (protected_set : gset ptr) {struct fuel}
    : list (option ptr) → sweep_state → sweep_state :=
  fix go (q2 : list (option ptr)) (s : sweep_state) {struct q2} : sweep_state :=
    match q2 with
    | [] => s
    | n :: q' =>
      match deref (sw_heap s) n, n with
      | Some nd, Some a =>
        if decide (a ∈ seen s) then go q' s
        else
          match fuel with
          | 0 => s
          | S fuel' =>
            let s' :=
              if decide (a ∈ protected_set)
              then mkSweep (sw_heap s) ({[a]} ∪ seen s) (cleared_count s) (cleared_bytes s)
              else mkSweep (alter evict_node a (sw_heap s)) ({[a]} ∪ seen s)
                     (S (cleared_count s))
                     (if decide (numel (value nd) ≠ 0)
                      then cleared_bytes s + numel (value nd) * sizeof_float
                      else cleared_bytes s) in
            sweep_loop fuel' protected_set (push_inputs q' nd) s'
          end
      | _, _ => go q' s
      end
    end.

(** The protected set [evict_non_checkpoint_values] computes for [root]. *)
Definition protected_of (h : heap) (root : ptr) : gset ptr :=
  protect_loop (size h) h [Some root] ∅.

Definition swept (h : heap) (root : ptr) : sweep_state :=
  sweep_loop (size h) (protected_of h root) [Some root] (mkSweep h ∅ 0 0).

Definition evict_non_checkpoint_values (root : Value) : M unit :=
  match node root with
  | None => ret tt
  | Some r =>
    h <- get_heap ;;
    let s := swept h r in
    put_heap (sw_heap s) ;;
    emit (LogEvictFreed (cleared_count s) (cleared_bytes s))
  end.

(** ** autodiff.cpp *)

Section Autodiff.
Context `{OpLibrary}.

Definition zero_grad (root : Value) : M unit :=
  match node root with
  | None => ret tt
  | Some r =>
    h0 <- get_heap ;;
    for_each (topo_from h0 r) (λ n_,
      h <- get_heap ;;
      match deref h n_, n_ with
      | Some nd, Some n =>
        when (requires_grad nd) (update n (set_grad (Tensor_zeros_like (value nd))))
      | _, _ => ret tt
      end)
  end.

(** [ag::debug::on_backprop_step(n, gy)] and [ag::debug::on_jvp_step(n)]. *)
Definition on_backprop_step (n : ptr) (gy : Tensor) : M unit := emit (CallOnBackpropStep n gy).
Definition on_jvp_step (n : ptr) : M unit := emit (CallOnJvpStep n).

(** The seed [backward] writes into the root's [grad]. *)
Definition seed_tensor (grad_seed : option Tensor) (root_value : Tensor) : Tensor :=
  match grad_seed with
  | Some g => g
  | None =>
    if decide (size_ root_value = 1) then Tensor_ones 1 1
    else Tensor_ones_like root_value
  end.

(** Step 1 of [backward]. *)
Definition seed_root (r : ptr) (grad_seed : option Tensor) : M unit :=
  h <- get_heap ;;
  match h !! r with
  | Some rn =>
    when (requires_grad rn) (update r (set_grad (seed_tensor grad_seed (value rn))))
  | None => ret tt
  end.

(** Step 3 of [backward]: every parent of [n] must have a value. *)
Definition ensure_parent (fuel : nat) (n : ptr) (p_sp : option ptr) : M unit :=
  h <- get_heap ;;
  match deref h p_sp, p_sp with
  | Some pn, Some p =>
    if decide (numel (value pn) = 0) then
      if is_checkpoint pn then
        ok <- recompute_subgraph fuel p_sp ;;
        if ok : bool then ret tt
        else
          h' <- get_heap ;;
          throw (RecomputeParentFailed (ident_of h' p) (ident_of h' n))
      else
        let e := ParentValueEmptyNotCheckpointed (ident_of h p) (ident_of h n) in
        emit (LogBackwardError e) ;;
        throw e
    else ret tt
  | _, _ => ret tt
  end.

(** Step 5 of [backward]: the rule runs on the heap and may raise. *)
Definition apply_vjp (fn : VjpFn) (n : ptr) (gy : Tensor) : M unit :=
  emit (CallVjp n gy) ;;
  (λ s, let '(h', r) := fn n gy (st_heap s) in
        (match r with
         | None => Returned tt
         | Some what => Thrown (ExternalError what)
         end, mkState h' (st_trace s))).

(** Step 2 of the loop body: a checkpointed node without a value is recomputed. *)
Definition recompute_self (fuel : nat) (n : ptr) (nd : Node) : M unit :=
  when (is_checkpoint nd && bool_decide (size_ (value nd) = 0))
    (ok <- recompute_subgraph fuel (Some n) ;;
     if ok : bool then ret tt
     else
       h' <- get_heap ;;
       throw (RecomputeCheckpointFailed (ident_of h' n))).

(** Everything the loop body does for [n] before it looks up the VJP rule,
    up to and including the first [k] input slots. *)
Definition backward_checks (fuel : nat) (n : ptr) (nd : Node) (k : nat) : M unit :=
  on_backprop_step n (grad nd) ;;
  recompute_self fuel n nd ;;
  for_each (take k (inputs nd)) (ensure_parent fuel n).

(** Steps 4 and 5: lookup and application of the VJP rule; [gy] is a
    reference to [n->grad]. *)
Definition dispatch_vjp (n : ptr) (nd : Node) : M unit :=
  match vjp_lookup (op nd) with
  | None => emit (LogBackwardNoVjp (op nd) (debug_name nd))
  | Some fn =>
    h <- get_heap ;;
    try_catch (apply_vjp fn n (from_option grad (grad nd) (h !! n)))
      (λ e, throw (VjpFailed (ident_of h n) e))
  end.

(** Body of the reverse walk for one entry of the order. *)
Definition backward_node (fuel : nat) (n_ : option ptr) : M unit :=
  h <- get_heap ;;
  match deref h n_, n_ with
  | Some nd, Some n =>
    if negb (requires_grad nd) then ret tt
    else
      backward_checks fuel n nd (length (inputs nd)) ;;
      dispatch_vjp n nd
  | _, _ => ret tt
  end.

Definition backward (fuel : nat) (root : Value) (grad_seed : option Tensor) : M unit :=
  match node root with
  | None => ret tt
  | Some r =>
    h <- get_heap ;;
    let order := topo_from h r in
    seed_root r grad_seed ;;
    for_each (rev order) (backward_node fuel)
  end.

(** The closure [tangent_of] of [jvp]; [Tensor_empty] is the static fallback. *)
Definition tangent_of (T : gmap ptr Tensor) (p : option ptr) : Tensor :=
  default Tensor_empty (p ≫= (T !!.)).

(** The tangent a node starts with: its seed if it has one, else zeros. *)
Definition initial_tangent (seed : gmap ptr Tensor) (h : heap) (n : ptr) : Tensor :=
  match seed !! n with
  | Some t => t
  | None => Tensor_zeros_like (value_of h (Some n))
  end.

Definition jvp_node (seed : gmap ptr Tensor) (T : gmap ptr Tensor) (n_ : option ptr)
    : M (gmap ptr Tensor) :=
  h <- get_heap ;;
  match deref h n_, n_ with
  | Some nd, Some n =>
    let t := initial_tangent seed h n in
    on_jvp_step n ;;
    t' <- match jvp_lookup (op nd) with
          | Some fn =>
            emit (CallJvp n) ;;
            match fn h n (tangent_of T) with
            | inr t' => ret t'
            | inl what => throw (ExternalError what)
            end
          | None => ret t
          end ;;
    ret (<[n := t']> T)
  | _, _ => ret T
  end.

Fixpoint jvp_walk (seed : gmap ptr Tensor) (order : list (option ptr))
    (T : gmap ptr Tensor) : M (gmap ptr Tensor) :=
  match order with
  | [] => ret T
  | n_ :: order' => T' <- jvp_node seed T n_ ;; jvp_walk seed order' T'
  end.

Definition jvp (root : Value) (seed : gmap ptr Tensor) : M Tensor :=
  match node root with
  | None => ret Tensor_empty
  | Some r =>
    h <- get_heap ;;
    T <- jvp_walk seed (topo_from h r) ∅ ;;
    ret (default Tensor_empty (T !! r))
  end.

End Autodiff.

(** ** tracer.cpp *)

(** The state a [Tracer] guards with its mutex. *)
Record Tracer := mkTracer {
  order_ : list ptr;
  seen_raw_ : gset ptr;
  outputs_raw_ : gset ptr;
}.

Definition make_tracer : Tracer := mkTracer [] ∅ ∅.

Definition add_if_new (n : option ptr) (t : Tracer) : Tracer :=
  match n with
  | None => t
  | Some raw =>
    if decide (raw ∈ seen_raw_ t) then t
    else mkTracer (order_ t ++ [raw]) ({[raw]} ∪ seen_raw_ t) (outputs_raw_ t)
  end.

Definition on_node_created (n : option ptr) (t : Tracer) : Tracer :=
  match n with
  | None => t
  | Some _ => add_if_new n t
  end.

Definition clear (t : Tracer) : Tracer := mkTracer [] ∅ ∅.

Definition captured_nodes (t : Tracer) : list ptr := order_ t.

Definition mark_output (n : option ptr) (t : Tracer) : Tracer :=
  match n with
  | None => t
  | Some raw => mkTracer (order_ t) (seen_raw_ t) ({[raw]} ∪ outputs_raw_ t)
  end.

(** The non-null inputs of a node. *)
Definition inputs_of (h : heap) (a : ptr) : list ptr :=
  omap id (from_option inputs [] (h !! a)).

Definition outputs (h : heap) (t : Tracer) : list ptr :=
  if decide (outputs_raw_ t ≠ ∅) then
    filter (λ sp, sp ∈ outputs_raw_ t) (order_ t)
  else
    let has_consumer : gset ptr :=
      foldl (λ acc sp, foldl (λ acc' i, {[i]} ∪ acc') acc (inputs_of h sp)) ∅ (order_ t) in
    let outs := filter (λ sp, sp ∉ has_consumer) (order_ t) in
    match outs, last (order_ t) with
    | [], Some back => [back]
    | _, _ => outs
    end.

Definition topo_sort (h : heap) (t : Tracer) : list ptr :=
  let order_copy := order_ t in
  match order_copy with
  | [] => []
  | _ :: _ =>
    let captured_set : gset ptr := list_to_set order_copy in
    let outs := outputs h t in
    let st0 := dfs_init in
    let st1 := foldl (λ st out_sp, dfs_visit (size h) h captured_set (Some out_sp) st) st0 outs in
    let st2 := foldl (λ st sp,
                        if decide (sp ∈ perm st) then st
                        else dfs_visit (size h) h captured_set (Some sp) st) st1 order_copy in
    let out_raw := reverse (out st2) in
    filter (λ r, r ∈ captured_set) out_raw
  end.

(** *** The order the documentation of [topo_sort] promises *)

(** In [l], every input of a node that belongs to the captured set comes
    strictly before the node. *)
Definition parents_before_children (h : heap) (captured : gset ptr) (l : list ptr) : Prop :=
  ∀ i n p, l !! i = Some n → p ∈ inputs_of h n → p ∈ captured →
    ∃ j, j < i ∧ l !! j = Some p.


(** ** Checkpoint queries and automatic checkpointing: [checkpoint.cpp] *)

(** [is_checkpointed(node)]: [node && node->is_checkpoint]. *)
Definition is_checkpointed (h : heap) (node_ : option ptr) : bool :=
  match deref h node_ with
  | Some nd => is_checkpoint nd
  | None => false
  end.

(** Modelled from the spec: the header declaring [CheckpointOptions] is not
    part of the sources; a default-constructed [CheckpointOptions()] has
    [save_rng] false. *)
Definition CheckpointOptions_default : CheckpointOptions := mkOpts false.

(** The loop of [auto_checkpoint_every_n].  [fuel] counts the nodes still to
    be visited, as in the traversals of eviction; [counter] stays below the
    number of live nodes, so the [int] never wraps.  The inputs are pushed
    from the node as read before the marking, which leaves [inputs] alone. *)
Fixpoint every_n_loop (fuel : nat) (n : Z) {struct fuel}
    : list (option ptr) → gset ptr → Z → M unit :=
  fix go (q : list (option ptr)) (visited : gset ptr) (counter : Z) {struct q} : M unit :=
    match q with
    | [] => ret tt
    | cur :: q' =>
      h <- get_heap ;;
      match deref h cur, cur with
      | Some nd, Some a =>
        if decide (a ∈ visited) then go q' visited counter
        else
          match fuel with
          | 0 => diverge
          | S fuel' =>
            let counter' := (counter + 1)%Z in
            when (bool_decide (Z.rem counter' n = 0%Z) && negb (bool_decide (inputs nd = [])))
              (mark_node_checkpoint cur CheckpointOptions_default) ;;
            every_n_loop fuel' n (push_inputs q' nd) ({[a]} ∪ visited) counter'
          end
      | _, _ => go q' visited counter
      end
    end.

Definition auto_checkpoint_every_n (root : Value) (n : Z) : M unit :=
  if decide (n ≤ 0)%Z then ret tt
  else
    match node root with
    | None => ret tt
    | Some r =>
      h <- get_heap ;;
      every_n_loop (size h) n [Some r] ∅ 0%Z
    end.

(** The queue entries [{p, depth + 1}] pushed for the non-null inputs. *)
Definition push_inputs_at (q : list (option ptr * Z)) (nd : Node) (depth : Z)
    : list (option ptr * Z) :=
  q ++ ((λ p, (p, (depth + 1)%Z)) <$> filter (λ p, is_Some p) (inputs nd)).

(** The loop of [auto_checkpoint_by_depth]; a depth stays below the number
    of live nodes. *)
Fixpoint by_depth_loop (fuel : nat) (depth_threshold : Z) {struct fuel}
    : list (option ptr * Z) → gset ptr → M unit :=
  fix go (q : list (option ptr * Z)) (visited : gset ptr) {struct q} : M unit :=
    match q with
    | [] => ret tt
    | (cur, depth) :: q' =>
      h <- get_heap ;;
      match deref h cur, cur with
      | Some nd, Some a =>
        if decide (a ∈ visited) then go q' visited
        else
          match fuel with
          | 0 => diverge
          | S fuel' =>
            when (bool_decide (depth_threshold ≤ depth)%Z
                  && negb (bool_decide (inputs nd = [])))
              (mark_node_checkpoint cur CheckpointOptions_default) ;;
            by_depth_loop fuel' depth_threshold (push_inputs_at q' nd depth)
              ({[a]} ∪ visited)
          end
      | _, _ => go q' visited
      end
    end.

Definition auto_checkpoint_by_depth (root : Value) (depth_threshold : Z) : M unit :=
  match node root with
  | None => ret tt
  | Some r =>
    h <- get_heap ;;
    by_depth_loop (size h) depth_threshold [(Some r, 0%Z)] ∅
  end.

(** ** The memory estimate of the tests: [test_checkpoint.cpp] *)

(** The loop of [estimate_bytes]: the set [seen] and the running total. *)
Fixpoint estimate_loop (fuel : nat) (h : heap) {struct fuel}
    : list (option ptr) → gset ptr * nat → gset ptr * nat :=
  fix go (q : list (option ptr)) (s : gset ptr * nat) {struct q} : gset ptr * nat :=
    match q with
    | [] => s
    | n :: q' =>
      match deref h n, n with
      | Some nd, Some a =>
        if decide (a ∈ s.1) then go q' s
        else
          match fuel with
          | 0 => s
          | S fuel' =>
            estimate_loop fuel' h (push_inputs q' nd)
              ({[a]} ∪ s.1, s.2 + numel (value nd) * sizeof_float)
          end
      | _, _ => go q' s
      end
    end.

Definition estimate_bytes (h : heap) (root : Value) : nat :=
  match node root with
  | None => 0
  | Some r => (estimate_loop (size h) h [Some r] (∅, 0)).2
  end.

(** [total_value_bytes(root)] of the tests: the same total, over the order
    of [topo_from]; a null root is given no entries. *)
Definition total_value_bytes (h : heap) (root : Value) : nat :=
  match node root with
  | None => 0
  | Some r =>
    foldl (λ bytes n_,
             match deref h n_ with
             | Some nd => bytes + numel (value nd) * sizeof_float
             | None => bytes
             end) 0 (topo_from h r)
  end.
(** * Specification vocabulary *)

(** ** Computations *)

(** Whatever its outcome, [c] moves the state along [R]. *)
Definition preserves {A} (R : relation State) (c : M A) : Prop :=
  ∀ s, R s (c s).2.

(** ** Marking *)

(** What a slot of [saved_input_tensors] receives for parent [p]. *)
Definition snapshot_of (h : heap) (p : option ptr) : Tensor :=
  match deref h p with
  | Some pn => if decide (size_ (value pn) ≠ 0) then value pn else Tensor_empty
  | None => Tensor_empty
  end.

(** The node a first marking leaves behind. *)
Definition marked (h : heap) (opts : CheckpointOptions) (nd : Node) : Node :=
  mkNode (op nd) (inputs nd) (value nd) (grad nd) (requires_grad nd) true
         ((λ _, mkValue None) <$> inputs nd) (snapshot_of h <$> inputs nd)
         (save_rng opts)
         (if save_rng opts then save_rng_state else saved_rng_blob nd)
         (tape nd) (debug_name nd).

(** ** Frames *)

Definition is_vjp_call (e : event) : Prop :=
  match e with CallVjp _ _ => True | _ => False end.

(** [h'] differs from [h] in [value] fields only. *)
Definition only_values_changed (h h' : heap) : Prop :=
  ∀ n, set_value Tensor_empty <$> (h' !! n) = set_value Tensor_empty <$> (h !! n).

(** The trace grows, and by no call of a VJP rule. *)
Definition trace_grows_without_vjp (s s' : State) : Prop :=
  ∃ new, st_trace s' = st_trace s ++ new ∧ Forall (λ e, ¬ is_vjp_call e) new.

(** What a recomputation may do to the state. *)
Definition recompute_frame (s s' : State) : Prop :=
  only_values_changed (st_heap s) (st_heap s') ∧ trace_grows_without_vjp s s'.

(** The events [s'] has beyond those of [s]. *)
Definition new_events (s s' : State) : list event :=
  drop (length (st_trace s)) (st_trace s').

(** ** The reverse walk of [backward] *)

(** [backward fuel root grad_seed], started in [s0], has seeded the root and
    run the loop body on the first [k] entries of the reversed order without
    raising, and stands in state [s] before entry [k]. *)
Definition backward_reaches `{OpLibrary} (fuel : nat) (r : ptr) (grad_seed : option Tensor)
    (s0 : State) (k : nat) (s : State) : Prop :=
  (seed_root r grad_seed ;;
   for_each (take k (rev (topo_from (st_heap s0) r))) (backward_node fuel)) s0
  = (Returned tt, s).

(** ** Placeholders and snapshots *)

(** Every placeholder of every node carries a null handle. *)
Definition placeholders_null (h : heap) : Prop :=
  map_Forall (λ _ nd, Forall (λ sv, node sv = None) (saved_inputs nd)) h.

#[global] Instance placeholders_null_dec h : Decision (placeholders_null h).
Proof. unfold placeholders_null. apply _. Defined.

(** [recompute_subgraph] with the branch [if (sv.node)] taken out: a parent
    is never restored from a saved handle, it is used as it is or recomputed. *)
Fixpoint restore_parents_live `{OpLibrary} (rec : option ptr → M bool) (i : nat)
    (slots : list (Value * option ptr)) : M bool :=
  match slots with
  | [] => ret true
  | (_, parent) :: slots' =>
    h <- get_heap ;;
    match deref h parent, parent with
    | Some pn, Some p =>
      emit (LogRecomputeInput i (ident_of h p) (numel (value pn))
              (rows (value pn)) (cols (value pn)) (op pn)) ;;
      when (bool_decide (numel (value pn) = 0)) (emit LogRecomputeEmptyInputWarning) ;;
      if decide (size_ (value pn) = 0) then
        if is_checkpoint pn then
          ok <- rec parent ;;
          if ok : bool then restore_parents_live rec (S i) slots'
          else emit LogFailedRecomputeParent ;; ret false
        else emit LogMissingParentNotCheckpointed ;; ret false
      else restore_parents_live rec (S i) slots'
    | _, _ =>
      emit (LogRecomputeMissingParent i) ;;
      restore_parents_live rec (S i) slots'
    end
  end.

Fixpoint recompute_subgraph_live `{OpLibrary} (fuel : nat) (node_ : option ptr) : M bool :=
  match fuel with
  | 0 => diverge
  | S fuel' =>
    h <- get_heap ;;
    match deref h node_, node_ with
    | Some nd, Some c =>
      if negb (is_checkpoint nd) then ret false
      else
        match saved_inputs nd with
        | [] => emit (LogNoSavedInputs (ident_of h c) (length (inputs nd))) ;; ret false
        | _ :: _ =>
          when (has_saved_rng nd) (restore_rng_state (saved_rng_blob nd)) ;;
          ok <- restore_parents_live (recompute_subgraph_live fuel') 0
                  (zip (saved_inputs nd) (inputs nd)) ;;
          if ok : bool then
            try_catch
              (out_ <- forward_eval_node c ;;
               update c (set_value out_) ;;
               on_recomputed c ;;
               ret true)
              (λ e, emit (LogRecomputeException e) ;; ret false)
          else ret false
        end
    | _, _ => ret false
    end
  end.

(** The heap with every snapshot thrown away. *)
Definition forget_snapshots (h : heap) : heap := set_saved_input_tensors [] <$> h.
Definition forget (s : State) : State := mkState (forget_snapshots (st_heap s)) (st_trace s).
Definition forget_after {A} (r : outcome A * State) : outcome A * State := (r.1, forget r.2).

(** [c1] on a heap without snapshots does what [c2] does on the heap with them. *)
Definition blind {A} (c1 c2 : M A) : Prop := ∀ s, c1 (forget s) = forget_after (c2 s).

(** [saved_inputs] is the same in [s'] as in [s], node by node. *)
Definition same_saved_inputs (s s' : State) : Prop :=
  ∀ n, saved_inputs <$> (st_heap s' !! n) = saved_inputs <$> (st_heap s !! n).

(** ** A small op library and small graphs for concrete runs *)

(** ReLU on bit patterns: a pattern with the sign bit set becomes +0.0. *)
Definition relu_bits (x : float32) : float32 :=
  if Z.testbit x 31 then f32_zero else x.
Definition positive_bits (x : float32) : bool :=
  negb (Z.testbit x 31) && negb (x =? 0)%Z.
Definition mask_by (v t : Tensor) : Tensor :=
  mkTensor (rows v) (cols v)
    (zip_with (λ x y, if positive_bits x then y else f32_zero) (data v) (data t)).
Definition all_zero (t : Tensor) : bool := forallb (λ x, (x =? 0)%Z) (data t).

(** The rule of ReLU writes the masked cotangent into a parent whose [grad]
    is still zero (0 + x = x), and gives up otherwise. *)
Definition relu_vjp : VjpFn := λ n gy h,
  match h !! n with
  | Some nd =>
    match inputs nd with
    | [Some p] =>
      match h !! p with
      | Some pn =>
        if all_zero (grad pn)
        then (<[p := set_grad (mask_by (value pn) gy) pn]> h, None)
        else (h, Some "relu_vjp: accumulation not supported")
      | None => (h, Some "relu_vjp: dangling parent")
      end
    | _ => (h, Some "relu_vjp: arity")
    end
  | None => (h, Some "relu_vjp: dangling node")
  end.

Definition relu_jvp : JvpFn := λ h n tangent,
  match h !! n with
  | Some nd =>
    match inputs nd with
    | [Some p] => inr (mask_by (value_of h (Some p)) (tangent (Some p)))
    | _ => inl "relu_jvp: arity"
    end
  | None => inl "relu_jvp: dangling node"
  end.

Definition relu_library : OpLibrary := {|
  forward_eval o ins :=
    match o, ins with
    | Relu, [Some t] =>
      if decide (numel t = 0) then inl "relu: empty input"
      else inr (mkTensor (rows t) (cols t) (relu_bits <$> data t))
    | _, _ => inl "forward_eval: unsupported op"
    end;
  vjp_lookup o := match o with Relu => Some relu_vjp | _ => None end;
  jvp_lookup o := match o with Relu => Some relu_jvp | _ => None end;
|}.

Definition leaf_node (v : Tensor) (rg : bool) (name : string) : Node :=
  mkNode Leaf [] v Tensor_empty rg false [] [] false [] [] (Some name).
Definition unary_node (o : Op) (p : ptr) (v : Tensor) (name : string) : Node :=
  mkNode o [Some p] v Tensor_empty true false [] [] false [] [] (Some name).

Definition t22 : Tensor := Tensor_ones 2 2.

(** x --relu--> a --relu--> b --relu--> loss, at addresses 0, 1, 2, 3. *)
Definition chain : heap :=
  <[3 := unary_node Relu 2 t22 "loss"]>
  (<[2 := unary_node Relu 1 t22 "b"]>
  (<[1 := unary_node Relu 0 t22 "a"]>
  (<[0 := leaf_node t22 true "x"]> ∅))).

Definition start (h : heap) : State := mkState h [].
Definition heap_after {A} (c : M A) (s : State) : heap := st_heap (c s).2.

(** ** Reachability *)

(** [m] is reachable from [r] along [inputs], through live nodes. *)
Inductive reachable (h : heap) (r : ptr) : ptr → Prop :=
  | reachable_root : is_Some (h !! r) → reachable h r r
  | reachable_input m nd p :
      reachable h r m → h !! m = Some nd → Some p ∈ inputs nd → is_Some (h !! p) →
      reachable h r p.

(** [m] is reachable from [r] along a path that leaves no checkpoint: every
    node of the path before [m] is not a checkpoint. *)
Inductive protected_path (h : heap) (r : ptr) : ptr → Prop :=
  | protected_root : is_Some (h !! r) → protected_path h r r
  | protected_input m nd p :
      protected_path h r m → h !! m = Some nd → is_checkpoint nd = false →
      Some p ∈ inputs nd → is_Some (h !! p) →
      protected_path h r p.

(** The heap [h0] with the nodes of [S] outside [P] evicted. *)
Definition evicted_in (S P : gset ptr) (h0 h : heap) : Prop :=
  ∀ n, h !! n = (λ nd, if decide (n ∈ S ∧ n ∉ P) then evict_node nd else nd) <$> (h0 !! n).

(** ** The captured graph *)

(** [p] is a live input of the live node [n] and belongs to [C]. *)
Definition input_edge (h : heap) (C : gset ptr) (n p : ptr) : Prop :=
  ∃ nd, h !! n = Some nd ∧ Some p ∈ inputs nd ∧ p ∈ C ∧ is_Some (h !! p).

(** No node of the graph restricted to [C] is its own ancestor. *)
Definition acyclic (h : heap) (C : gset ptr) : Prop :=
  ∀ n, ¬ tc (input_edge h C) n n.

(** In [l], each node comes after all its inputs in [C]. *)
Definition inputs_first (h : heap) (C : gset ptr) (l : list ptr) : Prop :=
  ∀ i n p, l !! i = Some n → input_edge h C n p → ∃ j, j < i ∧ l !! j = Some p.

(** In [l], each node comes before all its inputs in [C]. *)
Definition inputs_last (h : heap) (C : gset ptr) (l : list ptr) : Prop :=
  ∀ i n p, l !! i = Some n → input_edge h C n p → ∃ j, i < j ∧ l !! j = Some p.

(** The loop of [dfs_visit] over the inputs of a node. *)
Definition dfs_inputs (fuel : nat) (h : heap) (C : gset ptr)
    (st : dfs_state) (l : list (option ptr)) : dfs_state :=
  foldl (λ s in_sp,
           match in_sp with
           | None => s
           | Some in_raw =>
             if decide (in_raw ∈ C) then dfs_visit fuel h C (Some in_raw) s else s
           end) st l.

(** The nodes whose visit has begun and not ended. *)
Definition on_stack (st : dfs_state) : gset ptr := temp st ∖ perm st.

(** The nodes [topo_from] lists. *)
Definition topo_nodes (h : heap) (r : ptr) : list ptr :=
  out (dfs_visit (size h) h (dom h) (Some r) dfs_init).

(** ** Forward evaluation *)

(** What the forward evaluator is given for a node. *)
Definition parent_values (h : heap) (nd : Node) : list (option Tensor) :=
  (λ p, value <$> deref h p) <$> inputs nd.

(** The state [compute_forward_values] is in after one more entry of the order. *)
Definition compute_forward_step `{OpLibrary} (s : State) (n_ : option ptr) : State :=
  match deref (st_heap s) n_, n_ with
  | Some nd, Some n =>
    if decide (size_ (value nd) ≠ 0) then s
    else
      match forward_eval (op nd) (parent_values (st_heap s) nd) with
      | inr t =>
        mkState (<[n := set_value t nd]> (st_heap s))
          (st_trace s ++ [CallForwardEval n; CallOnRecomputed n;
                          LogComputeForwardRecomputed (ident_of (st_heap s) n) (op nd)
                            (rows t) (cols t)])
      | inl what =>
        mkState (st_heap s)
          (st_trace s ++ [CallForwardEval n;
                          LogComputeForwardFailed (ident_of (st_heap s) n) (ExternalError what)])
      end
  | _, _ => s
  end.

(** The state after the first [k] entries. *)
Definition forward_walk `{OpLibrary} (s : State) (r : ptr) (k : nat) : State :=
  foldl compute_forward_step s (take k (topo_from (st_heap s) r)).

(** ** More concrete data *)

(** [rank] decreases along inputs: a witness that the graph is a DAG. *)
Definition ranked (rank : ptr → nat) (h : heap) : Prop :=
  ∀ n nd p, h !! n = Some nd → Some p ∈ inputs nd → rank p < rank n.

(** Every input of a node has a smaller address: nodes are created after
    their inputs. *)
Definition inputs_below (h : heap) : Prop :=
  map_Forall (λ n nd, Forall (λ p, from_option (λ a, a < n) True p) (inputs nd)) h.

#[global] Instance inputs_below_dec h : Decision (inputs_below h).
Proof.
  unfold inputs_below. apply map_Forall_dec. intros n nd. apply Forall_dec.
  intros [p|]; cbn; apply _.
Defined.

(** The chain with [b] marked as a checkpoint while every value is present,
    and then evicted from the root. *)
Definition marked_chain : State :=
  (mark_node_checkpoint (Some 2) (mkOpts false) (start chain)).2.
Definition evicted_chain : State :=
  (evict_non_checkpoint_values (mkValue (Some 3)) marked_chain).2.

(** The chain with the value of [a] missing. *)
Definition chain_without_a : heap := alter evict_node 1 chain.

(** x --relu--> y captured by a tracer, in creation order. *)
Definition pair_heap : heap :=
  <[1 := unary_node Relu 0 t22 "y"]> (<[0 := leaf_node t22 true "x"]> ∅).
Definition pair_tracer : Tracer :=
  on_node_created (Some 1) (on_node_created (Some 0) make_tracer).

(** The two loops of [topo_sort] over the starting nodes. *)
Definition dfs_from (h : heap) (C : gset ptr) (st : dfs_state) (l : list ptr) : dfs_state :=
  foldl (λ st a, dfs_visit (size h) h C (Some a) st) st l.

(** ** The tracer *)

(** What a [Tracer] keeps true of its storage: [order_] holds no node twice
    and [seen_raw_] is the set of its nodes. *)
Definition tracer_wf (t : Tracer) : Prop :=
  NoDup (order_ t) ∧ seen_raw_ t = list_to_set (order_ t).

(** The calls that change a tracer. *)
Inductive tracer_call :=
  | CallOnNodeCreated (n : option ptr)
  | CallMarkOutput (n : option ptr)
  | CallClear.

Definition run_call (t : Tracer) (c : tracer_call) : Tracer :=
  match c with
  | CallOnNodeCreated n => on_node_created n t
  | CallMarkOutput n => mark_output n t
  | CallClear => clear t
  end.

(** The distinct elements of a list, in the order of their first occurrence. *)
Fixpoint first_seen (l : list ptr) : list ptr :=
  match l with
  | [] => []
  | x :: l' => x :: filter (λ y, y ≠ x) (first_seen l')
  end.

(** [a] is an input of some captured node. *)
Definition has_captured_consumer (h : heap) (t : Tracer) (a : ptr) : Prop :=
  ∃ c, c ∈ order_ t ∧ a ∈ inputs_of h c.

(** ** Memory accounting *)

(** The bytes the value of node [a] holds, as eviction and the tests count
    them; nothing for a dangling address. *)
Definition value_bytes (h : heap) (a : ptr) : nat :=
  match h !! a with
  | Some nd => numel (value nd) * sizeof_float
  | None => 0
  end.

(** Two heaps hold the same graph: the same live nodes with the same inputs
    and checkpoint flags. *)
Definition same_graph (h h' : heap) : Prop :=
  ∀ n, (λ nd, (inputs nd, is_checkpoint nd)) <$> (h !! n)
       = (λ nd, (inputs nd, is_checkpoint nd)) <$> (h' !! n).

(** ** Automatic checkpointing *)

(** The common shape of the loops of [auto_checkpoint_every_n] and
    [auto_checkpoint_by_depth], to reason about both at once: a
    breadth-first traversal that carries the counter of the first and the
    depths of the second, and marks a visited node with inputs when
    [should counter depth] holds. *)
Fixpoint mark_bfs_loop (should : Z → Z → bool) (fuel : nat) {struct fuel}
    : list (option ptr * Z) → gset ptr → Z → M unit :=
  fix go (q : list (option ptr * Z)) (visited : gset ptr) (counter : Z) {struct q} : M unit :=
    match q with
    | [] => ret tt
    | (cur, depth) :: q' =>
      h <- get_heap ;;
      match deref h cur, cur with
      | Some nd, Some a =>
        if decide (a ∈ visited) then go q' visited counter
        else
          match fuel with
          | 0 => diverge
          | S fuel' =>
            when (should (counter + 1)%Z depth && negb (bool_decide (inputs nd = [])))
              (mark_node_checkpoint cur CheckpointOptions_default) ;;
            mark_bfs_loop should fuel' (push_inputs_at q' nd depth)
              ({[a]} ∪ visited) (counter + 1)%Z
          end
      | _, _ => go q' visited counter
      end
    end.

(** The policy marks at every depth a traversal can reach. *)
Definition marks_always (should : Z → Z → bool) : Prop :=
  ∀ k d, (0 ≤ d)%Z → should k d = true.

(** ** Walks over the order *)

(** What [zero_grad] does to one node. *)
Definition zeroed (nd : Node) : Node :=
  if requires_grad nd then set_grad (Tensor_zeros_like (value nd)) nd else nd.

(** What [capture_checkpoint_snapshots] does to one node of the order, the
    values being those of the heap [h]. *)
Definition captured (h : heap) (nd : Node) : Node :=
  if is_checkpoint nd then set_saved_input_tensors (snapshot_of h <$> inputs nd) nd else nd.

(** The calls [jvp] makes for node [n]: the step hook, then the JVP rule of
    the node's op if there is one. *)
Definition jvp_events `{OpLibrary} (h : heap) (n : ptr) : list event :=
  CallOnJvpStep n ::
  match h !! n with
  | Some nd => match jvp_lookup (op nd) with Some _ => [CallJvp n] | None => [] end
  | None => []
  end.

(** The nodes whose VJP rule a trace records as called, in order. *)
Definition vjp_calls (tr : list event) : list ptr :=
  omap (λ e, match e with CallVjp n _ => Some n | _ => None end) tr.

(** The chain evicted from the root, with the value of the checkpoint [b]
    gone as well. *)
Definition evicted_chain_without_b : State :=
  mkState (alter evict_node 2 (st_heap evicted_chain)) [].

(** A single leaf that does not require grad. *)
Definition constant_heap : heap := <[0 := leaf_node t22 false "c"]> ∅.

(** The chain with [b] marked while every value is present, and the value
    of [b] gone since. *)
Definition marked_chain_without_b : State :=
  mkState (alter evict_node 2 (st_heap marked_chain)) [].

(** * Lemmas and theorems *)

(** ** Reasoning about computations *)

Lemma bind_Returned {A B} (c : M A) (k : A → M B) s a s' :
  c s = (Returned a, s') → bind c k s = k a s'.
Proof. unfold bind. by intros ->. Qed.

Lemma bind_Thrown {A B} (c : M A) (k : A → M B) s e s' :
  c s = (Thrown e, s') → bind c k s = (Thrown e, s').
Proof. unfold bind. by intros ->. Qed.

Lemma bind_Diverged {A B} (c : M A) (k : A → M B) s s' :
  c s = (Diverged, s') → bind c k s = (Diverged, s').
Proof. unfold bind. by intros ->. Qed.

Lemma for_each_app {A} (l1 l2 : list A) (body : A → M unit) s :
  for_each (l1 ++ l2) body s = (for_each l1 body ;; for_each l2 body) s.
Proof.
  revert s. induction l1 as [|x l1 IH]; intros s; simpl.
  - reflexivity.
  - unfold bind. destruct (body x s) as [[[]| |] s']; done.
Qed.

Section preserves.
Context (R : relation State) `{!PreOrder R}.

Lemma preserves_ret {A} (a : A) : preserves R (ret a).
Proof. intros s. simpl. reflexivity. Qed.

Lemma preserves_throw {A} e : preserves R (@throw A e).
Proof. intros s. simpl. reflexivity. Qed.

Lemma preserves_diverge {A} : preserves R (@diverge A).
Proof. intros s. simpl. reflexivity. Qed.

Lemma preserves_get_heap : preserves R get_heap.
Proof. intros s. simpl. reflexivity. Qed.

Lemma preserves_bind {A B} (c : M A) (k : A → M B) :
  preserves R c → (∀ a, preserves R (k a)) → preserves R (bind c k).
Proof.
  intros Hc Hk s. unfold bind. specialize (Hc s).
  destruct (c s) as [[a| |] s']; simpl in *; try done.
  etrans; [exact Hc | apply Hk].
Qed.

Lemma preserves_try_catch {A} (c : M A) (handler : exn → M A) :
  preserves R c → (∀ e, preserves R (handler e)) → preserves R (try_catch c handler).
Proof.
  intros Hc Hk s. unfold try_catch. specialize (Hc s).
  destruct (c s) as [[a| |] s']; simpl in *; try done.
  etrans; [exact Hc | apply Hk].
Qed.

Lemma preserves_when (b : bool) (c : M unit) : preserves R c → preserves R (when b c).
Proof. destruct b; simpl; [done |]. intros _. apply preserves_ret. Qed.

Lemma preserves_for_each {A} (l : list A) (body : A → M unit) :
  (∀ x, preserves R (body x)) → preserves R (for_each l body).
Proof.
  intros Hb. induction l as [|x l IH]; simpl.
  - apply preserves_ret.
  - apply preserves_bind; [apply Hb | done].
Qed.
End preserves.

(** ** Heap updates *)

Lemma alter_live (f : Node → Node) (c : ptr) (h : heap) nd :
  h !! c = Some nd → alter f c h = <[c := f nd]> h.
Proof.
  intros Hc. apply map_eq. intros i. rewrite lookup_alter, lookup_insert.
  case_decide; subst; [by rewrite Hc | done].
Qed.

Lemma update_live (f : Node → Node) (c : ptr) h tr nd :
  h !! c = Some nd →
  update c f (mkState h tr) = (Returned tt, mkState (<[c := f nd]> h) tr).
Proof. intros Hc. unfold update. simpl. by rewrite (alter_live _ _ _ _ Hc). Qed.

(** ** [mark_node_checkpoint] *)

Lemma snapshot_of_insert (h : heap) c nd nd' p :
  h !! c = Some nd → value nd' = value nd →
  snapshot_of (<[c := nd']> h) p = snapshot_of h p.
Proof.
  intros Hc Hv. unfold snapshot_of. destruct p as [p|]; simpl; [|done].
  rewrite lookup_insert. case_decide; subst; simpl; [|done].
  by rewrite Hc, Hv.
Qed.

Lemma push_saved_live c t v h tr nd :
  h !! c = Some nd →
  push_saved c t v (mkState h tr)
  = (Returned tt,
     mkState (<[c := set_saved_inputs (saved_inputs nd ++ [v])
                      (set_saved_input_tensors (saved_input_tensors nd ++ [t]) nd)]> h) tr).
Proof.
  intros Hc. unfold push_saved, bind.
  rewrite (update_live _ _ _ _ _ Hc).
  erewrite update_live; [|apply lookup_insert_eq].
  by rewrite insert_insert_eq.
Qed.

Lemma mark_slot_live c p h tr nd :
  h !! c = Some nd →
  mark_slot c p (mkState h tr)
  = (Returned tt,
     mkState (<[c := set_saved_inputs (saved_inputs nd ++ [mkValue None])
                      (set_saved_input_tensors (saved_input_tensors nd ++ [snapshot_of h p]) nd)]> h) tr).
Proof.
  intros Hc. unfold mark_slot, bind, get_heap, snapshot_of. simpl.
  destruct (deref h p) as [pn|]; [destruct (decide _)|]; by apply push_saved_live.
Qed.

Lemma mark_loop (c : ptr) (l : list (option ptr)) h tr nd0 :
  h !! c = Some nd0 →
  for_each l (mark_slot c) (mkState h tr)
  = (Returned tt,
     mkState (<[c := set_saved_inputs (saved_inputs nd0 ++ ((λ _, mkValue None) <$> l))
                      (set_saved_input_tensors
                         (saved_input_tensors nd0 ++ (snapshot_of h <$> l)) nd0)]> h) tr).
Proof.
  revert h nd0. induction l as [|p l IH]; intros h nd0 Hc; simpl.
  - unfold ret. do 2 f_equal. rewrite !app_nil_r.
    symmetry. destruct nd0. by apply insert_id.
  - unfold bind. rewrite (mark_slot_live _ _ _ _ _ Hc).
    erewrite IH; [|apply lookup_insert_eq].
    do 2 f_equal. rewrite insert_insert_eq. f_equal.
    simpl. rewrite <- !app_assoc. simpl.
    unfold set_saved_inputs, set_saved_input_tensors. simpl.
    f_equal. f_equal. f_equal. apply list_fmap_ext. intros _ q _.
    eapply snapshot_of_insert; [exact Hc | done].
Qed.

Lemma get_heap_run h tr : get_heap (mkState h tr) = (Returned h, mkState h tr).
Proof. done. Qed.
Lemma emit_run e h tr : emit e (mkState h tr) = (Returned tt, mkState h (tr ++ [e])).
Proof. done. Qed.
Lemma ret_run {A} (a : A) s : ret a s = (Returned a, s).
Proof. done. Qed.

(** One step of symbolic execution through a [bind]. *)
Ltac mstep :=
  first
    [ rewrite (bind_Returned _ _ _ _ _ (get_heap_run _ _))
    | rewrite (bind_Returned _ _ _ _ _ (emit_run _ _ _))
    | rewrite (bind_Returned _ _ _ _ _ (ret_run _ _))
    | erewrite bind_Returned; [| by (eapply update_live; first [eassumption | apply lookup_insert_eq])] ];
  rewrite ?insert_insert_eq.

Lemma mark_node_checkpoint_noop node_ opts s nd :
  deref (st_heap s) node_ = Some nd → is_checkpoint nd = true →
  mark_node_checkpoint node_ opts s = (Returned tt, s).
Proof.
  intros Hd Hc. destruct s as [h tr]. unfold mark_node_checkpoint. mstep.
  cbn [st_heap] in Hd. rewrite Hd. destruct node_; [|done]. by rewrite Hc.
Qed.

Lemma mark_node_checkpoint_dead node_ opts s :
  deref (st_heap s) node_ = None →
  mark_node_checkpoint node_ opts s = (Returned tt, s).
Proof.
  intros Hd. destruct s as [h tr]. unfold mark_node_checkpoint. mstep.
  cbn [st_heap] in Hd. by rewrite Hd.
Qed.

Lemma snapshot_of_fmap_insert (h : heap) c nd nd' (l : list (option ptr)) :
  h !! c = Some nd → value nd' = value nd →
  snapshot_of (<[c := nd']> h) <$> l = snapshot_of h <$> l.
Proof. intros Hc Hv. apply list_fmap_ext. intros _ q _. by eapply snapshot_of_insert. Qed.

Lemma mark_node_checkpoint_fresh c opts h tr nd :
  h !! c = Some nd → is_checkpoint nd = false →
  mark_node_checkpoint (Some c) opts (mkState h tr)
  = (Returned tt,
     mkState (<[c := marked h opts nd]> h)
       (tr ++ [LogMarkCheckpoint (ident_of h c) (length (inputs nd));
               LogSavedInputsCount (length (inputs nd)) c])).
Proof.
  intros Hc Hnc. unfold mark_node_checkpoint. mstep.
  cbn [deref mbind option_bind]. rewrite Hc, Hnc.
  do 4 mstep.
  erewrite bind_Returned; [| by (eapply mark_loop; apply lookup_insert_eq)].
  rewrite insert_insert_eq. mstep. rewrite lookup_insert_eq.
  cbn [from_option compose saved_inputs set_saved_inputs]. rewrite app_nil_l, length_fmap.
  mstep. rewrite <- app_assoc. cbn [app].
  destruct (save_rng opts) eqn:Hrng.
  - mstep. erewrite update_live; [| apply lookup_insert_eq]. rewrite insert_insert_eq.
    do 3 f_equal.
    rewrite (snapshot_of_fmap_insert _ _ _ _ _ Hc) by reflexivity.
    unfold marked. rewrite Hrng. reflexivity.
  - erewrite update_live; [| apply lookup_insert_eq]. rewrite insert_insert_eq.
    do 3 f_equal.
    rewrite (snapshot_of_fmap_insert _ _ _ _ _ Hc) by reflexivity.
    unfold marked. rewrite Hrng. reflexivity.
Qed.

(** Claim C5.  [mark_node_checkpoint] is idempotent: on a node whose
    [is_checkpoint] flag is already set it changes nothing (no field of any
    node, no output), whatever the options; hence marking a node twice, with
    any two option sets, is marking it once. *)
Theorem mark_node_checkpoint_idempotent :
  (∀ node_ opts s nd,
     deref (st_heap s) node_ = Some nd → is_checkpoint nd = true →
     mark_node_checkpoint node_ opts s = (Returned tt, s))
  ∧ (∀ node_ opts1 opts2 s,
       (mark_node_checkpoint node_ opts1 ;; mark_node_checkpoint node_ opts2) s
       = mark_node_checkpoint node_ opts1 s).
Proof.
  split; [apply mark_node_checkpoint_noop |].
  intros node_ o1 o2 [h tr].
  destruct (deref h node_) as [nd|] eqn:Hd.
  - destruct (is_checkpoint nd) eqn:Hc.
    + rewrite (mark_node_checkpoint_noop node_ o1 _ nd) by done.
      erewrite bind_Returned; [|by eapply mark_node_checkpoint_noop].
      by eapply mark_node_checkpoint_noop.
    + destruct node_ as [c|]; [|done]. cbn in Hd.
      rewrite (mark_node_checkpoint_fresh _ _ _ _ _ Hd Hc).
      erewrite bind_Returned; [|by eapply mark_node_checkpoint_fresh].
      eapply mark_node_checkpoint_noop; cbn [st_heap deref mbind option_bind];
        [apply lookup_insert_eq | done].
  - rewrite (mark_node_checkpoint_dead node_ o1) by done.
    erewrite bind_Returned; [|by eapply mark_node_checkpoint_dead].
    by eapply mark_node_checkpoint_dead.
Qed.

(** ** Frames of the recomputation *)

#[global] Instance only_values_changed_preorder : PreOrder only_values_changed.
Proof.
  split.
  - by intros h n.
  - intros h1 h2 h3 H12 H23 n. by rewrite H23, H12.
Qed.

#[global] Instance trace_grows_without_vjp_preorder : PreOrder trace_grows_without_vjp.
Proof.
  split.
  - intros s. exists []. by rewrite app_nil_r.
  - intros s1 s2 s3 (n1 & E1 & F1) (n2 & E2 & F2). exists (n1 ++ n2).
    split; [by rewrite E2, E1, app_assoc | by apply Forall_app].
Qed.

#[global] Instance recompute_frame_preorder : PreOrder recompute_frame.
Proof.
  split.
  - intros s. split; reflexivity.
  - intros s1 s2 s3 [] []. split; etrans; eauto.
Qed.

Lemma emit_recompute_frame e : ¬ is_vjp_call e → preserves recompute_frame (emit e).
Proof.
  intros He s. split; [reflexivity |]. exists [e]. split; [done |]. by constructor.
Qed.

Lemma set_value_recompute_frame p t : preserves recompute_frame (update p (set_value t)).
Proof.
  intros s. split; [| exists []; split; [by rewrite app_nil_r | constructor]].
  intros n. cbn. rewrite lookup_alter. case_decide; [subst|done].
  by destruct (st_heap s !! n).
Qed.

Ltac frame_step :=
  first
    [ apply preserves_ret; tc_solve
    | apply preserves_throw; tc_solve
    | apply preserves_diverge; tc_solve
    | apply preserves_get_heap; tc_solve
    | apply preserves_bind; [tc_solve | | intros ?]
    | apply preserves_when; [tc_solve |]
    | apply preserves_try_catch; [tc_solve | | intros ?]
    | apply emit_recompute_frame; simpl; tauto
    | apply set_value_recompute_frame
    | match goal with
      | |- preserves _ (match ?x with _ => _ end) => destruct x
      end ].
Ltac frame := repeat frame_step.

Section frames.
Context `{OpLibrary}.

Lemma forward_eval_node_frame n : preserves recompute_frame (forward_eval_node n).
Proof. unfold forward_eval_node. frame. Qed.

Lemma restore_parents_frame rec i slots :
  (∀ p, preserves recompute_frame (rec p)) →
  preserves recompute_frame (restore_parents rec i slots).
Proof.
  intros Hrec. revert i. induction slots as [|[sv parent] slots IH]; intros i; simpl.
  - frame.
  - frame; try apply IH; try apply Hrec.
Qed.

Lemma recompute_subgraph_frame fuel node_ :
  preserves recompute_frame (recompute_subgraph fuel node_).
Proof.
  revert node_. induction fuel as [|fuel IH]; intros node_; simpl.
  - frame.
  - frame; try (apply restore_parents_frame; apply IH).
    all: try apply forward_eval_node_frame.
    all: unfold on_recomputed, restore_rng_state; frame.
Qed.
End frames.

(** ** The reverse walk *)

Lemma bind_assoc {A B C} (c : M A) (k1 : A → M B) (k2 : B → M C) s :
  bind (bind c k1) k2 s = bind c (λ a, bind (k1 a) k2) s.
Proof. unfold bind. by destruct (c s) as [[a| |] s']. Qed.

Lemma for_each_split {A} (l : list A) (body : A → M unit) k x s :
  l !! k = Some x →
  for_each l body s
  = (for_each (take k l) body ;; body x ;; for_each (drop (S k) l) body) s.
Proof.
  intros Hk. rewrite <- (take_drop_middle l k x Hk) at 1.
  by rewrite for_each_app.
Qed.

Lemma new_events_app s s' new :
  st_trace s' = st_trace s ++ new → new_events s s' = new.
Proof. intros E. unfold new_events. by rewrite E, drop_app_length. Qed.

Lemma no_vjp_in_new_events s s' n gy :
  trace_grows_without_vjp s s' → CallVjp n gy ∉ new_events s s'.
Proof.
  intros (new & E & F) Hin. rewrite (new_events_app _ _ _ E) in Hin.
  rewrite Forall_forall in F. by apply (F _ Hin).
Qed.

Lemma only_values_changed_grad h h' m :
  only_values_changed h h' → grad <$> (h' !! m) = grad <$> (h !! m).
Proof.
  intros Hv. specialize (Hv m).
  destruct (h' !! m) as [[]|], (h !! m) as [[]|]; simplify_eq/=; done.
Qed.

Section walk.
Context `{OpLibrary}.

Lemma ensure_parent_frame fuel n p : preserves recompute_frame (ensure_parent fuel n p).
Proof.
  unfold ensure_parent. frame; try apply recompute_subgraph_frame.
Qed.

Lemma recompute_self_frame fuel n nd : preserves recompute_frame (recompute_self fuel n nd).
Proof. unfold recompute_self. frame; try apply recompute_subgraph_frame. Qed.

Lemma backward_checks_frame fuel n nd k : preserves recompute_frame (backward_checks fuel n nd k).
Proof.
  unfold backward_checks, on_backprop_step.
  apply preserves_bind; [tc_solve | frame | intros _].
  apply preserves_bind; [tc_solve | apply recompute_self_frame | intros _].
  apply preserves_for_each; [tc_solve |]. intros p. apply ensure_parent_frame.
Qed.

Lemma backward_unfold fuel r grad_seed s0 :
  backward fuel (mkValue (Some r)) grad_seed s0
  = (seed_root r grad_seed ;;
     for_each (rev (topo_from (st_heap s0) r)) (backward_node fuel)) s0.
Proof. by destruct s0. Qed.

(** Once the walk stands before entry [k], the rest of [backward] is the
    body on that entry followed by the walk over the remaining entries. *)
Lemma backward_from fuel r grad_seed s0 k s n_ :
  backward_reaches fuel r grad_seed s0 k s →
  rev (topo_from (st_heap s0) r) !! k = Some n_ →
  backward fuel (mkValue (Some r)) grad_seed s0
  = (backward_node fuel n_ ;;
     for_each (drop (S k) (rev (topo_from (st_heap s0) r))) (backward_node fuel)) s.
Proof.
  intros Hreach Hk. rewrite backward_unfold. unfold backward_reaches in Hreach.
  unfold bind at 1. unfold bind at 1 in Hreach.
  destruct (seed_root r grad_seed s0) as [[[]| |] s0']; try done.
  rewrite (for_each_split _ _ _ _ _ Hk).
  by rewrite (bind_Returned _ _ _ _ _ Hreach).
Qed.

Lemma backward_node_live fuel n nd s :
  st_heap s !! n = Some nd → requires_grad nd = true →
  backward_node fuel (Some n) s
  = (backward_checks fuel n nd (length (inputs nd)) ;; dispatch_vjp n nd) s.
Proof.
  intros Hn Hrg. destruct s as [h tr]. unfold backward_node.
  rewrite (bind_Returned _ _ _ _ _ (get_heap_run _ _)).
  cbn [deref mbind option_bind]. cbn [st_heap] in Hn. by rewrite Hn, Hrg.
Qed.

(** Having passed the first [i] input slots, the checks go on with slot [i]. *)
Lemma backward_checks_from fuel n nd i p_sp s s1 :
  backward_checks fuel n nd i s = (Returned tt, s1) →
  inputs nd !! i = Some p_sp →
  backward_checks fuel n nd (length (inputs nd)) s
  = (ensure_parent fuel n p_sp ;;
     for_each (drop (S i) (inputs nd)) (ensure_parent fuel n)) s1.
Proof.
  intros Hi Hp. unfold backward_checks in *. rewrite firstn_all.
  unfold bind at 1. unfold bind at 1 in Hi.
  destruct (on_backprop_step n (grad nd) s) as [[[]| |] sa]; try done.
  unfold bind at 1. unfold bind at 1 in Hi.
  destruct (recompute_self fuel n nd sa) as [[[]| |] sb]; try done.
  rewrite (for_each_split _ _ _ _ _ Hp).
  by rewrite (bind_Returned _ _ _ _ _ Hi).
Qed.
End walk.

Section backward_errors.
Context `{OpLibrary}.

Lemma ensure_parent_not_checkpointed fuel n p pn s :
  st_heap s !! p = Some pn → numel (value pn) = 0 → is_checkpoint pn = false →
  let e := ParentValueEmptyNotCheckpointed (ident_of (st_heap s) p) (ident_of (st_heap s) n) in
  ensure_parent fuel n (Some p) s
  = (Thrown e, mkState (st_heap s) (st_trace s ++ [LogBackwardError e])).
Proof.
  intros Hp Hv Hc e. destruct s as [h tr]. unfold ensure_parent.
  rewrite (bind_Returned _ _ _ _ _ (get_heap_run _ _)).
  cbn [deref mbind option_bind st_heap] in *. rewrite Hp.
  rewrite decide_True by done. rewrite Hc.
  by rewrite (bind_Returned _ _ _ _ _ (emit_run _ _ _)).
Qed.

Lemma ensure_parent_checkpointed fuel n p pn s :
  st_heap s !! p = Some pn → numel (value pn) = 0 → is_checkpoint pn = true →
  ensure_parent fuel n (Some p) s
  = (ok <- recompute_subgraph fuel (Some p) ;;
     if ok : bool then ret tt
     else h' <- get_heap ;;
          throw (RecomputeParentFailed (ident_of h' p) (ident_of h' n))) s.
Proof.
  intros Hp Hv Hc. destruct s as [h tr]. unfold ensure_parent.
  rewrite (bind_Returned _ _ _ _ _ (get_heap_run _ _)).
  cbn [deref mbind option_bind st_heap] in *. rewrite Hp.
  rewrite decide_True by done. by rewrite Hc.
Qed.

(** Claim C3.  During [backward], when the loop body of a node [n] with
    [requires_grad] arrives at a parent [p] whose value is empty: if [p] is a
    checkpoint, [backward] calls [recompute_subgraph] on [p], goes on when it
    returns [true] and raises [RecomputeParentFailed p n] when it returns
    [false]; if [p] is not a checkpoint, [backward] raises
    [ParentValueEmptyNotCheckpointed p n], an error carrying the identities
    of both the parent and the consuming node.  In both failures no VJP rule
    has been called for [n]. *)
Theorem backward_parent_value_missing fuel r grad_seed s0 k n nd s i p pn s1 :
  let ns := rev (topo_from (st_heap s0) r) in
  backward_reaches fuel r grad_seed s0 k s →
  ns !! k = Some (Some n) →
  st_heap s !! n = Some nd → requires_grad nd = true →
  backward_checks fuel n nd i s = (Returned tt, s1) →
  inputs nd !! i = Some (Some p) →
  st_heap s1 !! p = Some pn → numel (value pn) = 0 →
  let rest :=
    (for_each (drop (S i) (inputs nd)) (ensure_parent fuel n) ;;
     dispatch_vjp n nd ;;
     for_each (drop (S k) ns) (backward_node fuel)) in
  (is_checkpoint pn = true →
     backward fuel (mkValue (Some r)) grad_seed s0
     = (ok <- recompute_subgraph fuel (Some p) ;;
        if ok : bool then rest
        else h' <- get_heap ;;
             throw (RecomputeParentFailed (ident_of h' p) (ident_of h' n))) s1
     ∧ ∀ s2, recompute_subgraph fuel (Some p) s1 = (Returned false, s2) →
         backward fuel (mkValue (Some r)) grad_seed s0
         = (Thrown (RecomputeParentFailed (ident_of (st_heap s2) p)
                      (ident_of (st_heap s2) n)), s2)
         ∧ ∀ gy, CallVjp n gy ∉ new_events s s2)
  ∧ (is_checkpoint pn = false →
     let e := ParentValueEmptyNotCheckpointed
                (ident_of (st_heap s1) p) (ident_of (st_heap s1) n) in
     let s2 := mkState (st_heap s1) (st_trace s1 ++ [LogBackwardError e]) in
     backward fuel (mkValue (Some r)) grad_seed s0 = (Thrown e, s2)
     ∧ id_addr (ident_of (st_heap s1) p) = p
     ∧ id_addr (ident_of (st_heap s1) n) = n
     ∧ ∀ gy, CallVjp n gy ∉ new_events s s2).
Proof.
  intros ns Hreach Hk Hn Hrg Hchk Hi Hp Hv rest.
  assert (Hback : backward fuel (mkValue (Some r)) grad_seed s0
                  = (ensure_parent fuel n (Some p) ;; rest) s1).
  { rewrite (backward_from _ _ _ _ _ _ _ Hreach Hk).
    unfold bind at 1. rewrite (backward_node_live _ _ _ _ Hn Hrg).
    unfold bind at 1. rewrite (backward_checks_from _ _ _ _ _ _ _ Hchk Hi).
    subst rest. unfold bind.
    by destruct (ensure_parent fuel n (Some p) s1) as [[[]| |] sa];
      [destruct (for_each _ _ sa) as [[[]| |] sb];
         [destruct (dispatch_vjp n nd sb) as [[[]| |] sc] | |] | |]. }
  assert (Hgrow : trace_grows_without_vjp s s1).
  { pose proof (backward_checks_frame fuel n nd i s) as Hf.
    rewrite Hchk in Hf. apply Hf. }
  split.
  - intros Hc. rewrite Hback. unfold bind at 1.
    rewrite (ensure_parent_checkpointed _ _ _ _ _ Hp Hv Hc).
    split.
    + unfold bind.
      by destruct (recompute_subgraph fuel (Some p) s1) as [[[]| |] [ha tra]].
    + intros s2 Hrec. unfold bind at 1.
      rewrite (ensure_parent_checkpointed _ _ _ _ _ Hp Hv Hc).
      unfold bind. rewrite Hrec. destruct s2 as [h2 tr2].
      split; [done |].
      intros gy. apply no_vjp_in_new_events. etrans; [exact Hgrow |].
      pose proof (recompute_subgraph_frame fuel (Some p) s1) as Hf.
      rewrite Hrec in Hf. apply Hf.
  - intros Hc e s2. rewrite Hback. unfold bind at 1.
    rewrite (ensure_parent_not_checkpointed _ _ _ _ _ Hp Hv Hc).
    repeat split; try done.
    intros gy. apply no_vjp_in_new_events. etrans; [exact Hgrow |].
    exists [LogBackwardError e]. split; [done |]. constructor; [|done]. by intros [].
Qed.
End backward_errors.

Section backward_no_rule.
Context `{OpLibrary}.

(** Claim C6.  During [backward], when the loop body of a node [n] arrives
    at the lookup of the VJP rule and none is registered for the op of [n],
    the body logs the warning [LogBackwardNoVjp] and returns normally; no
    [grad] of any node (so none of a parent of [n]) has been changed by the
    body, no VJP rule has been called for [n], and [backward] goes on with
    the remaining entries of the reverse walk. *)
Theorem backward_vjp_missing fuel r grad_seed s0 k n nd s s1 :
  let ns := rev (topo_from (st_heap s0) r) in
  backward_reaches fuel r grad_seed s0 k s →
  ns !! k = Some (Some n) →
  st_heap s !! n = Some nd → requires_grad nd = true →
  backward_checks fuel n nd (length (inputs nd)) s = (Returned tt, s1) →
  vjp_lookup (op nd) = None →
  let s2 := mkState (st_heap s1)
              (st_trace s1 ++ [LogBackwardNoVjp (op nd) (debug_name nd)]) in
  backward_node fuel (Some n) s = (Returned tt, s2)
  ∧ (∀ m, grad <$> (st_heap s2 !! m) = grad <$> (st_heap s !! m))
  ∧ (∀ gy, CallVjp n gy ∉ new_events s s2)
  ∧ backward fuel (mkValue (Some r)) grad_seed s0
    = for_each (drop (S k) ns) (backward_node fuel) s2.
Proof.
  intros ns Hreach Hk Hn Hrg Hchk Hnone s2.
  assert (Hnode : backward_node fuel (Some n) s = (Returned tt, s2)).
  { rewrite (backward_node_live _ _ _ _ Hn Hrg).
    rewrite (bind_Returned _ _ _ _ _ Hchk). unfold dispatch_vjp. rewrite Hnone.
    by destruct s1. }
  pose proof (backward_checks_frame fuel n nd (length (inputs nd)) s) as Hf.
  rewrite Hchk in Hf. destruct Hf as [Hheap Htrace].
  split; [done |]. split; [| split].
  - intros m. by apply only_values_changed_grad.
  - intros gy. apply no_vjp_in_new_events. etrans; [exact Htrace |].
    exists [LogBackwardNoVjp (op nd) (debug_name nd)]. split; [done |].
    constructor; [|done]. by intros [].
  - rewrite (backward_from _ _ _ _ _ _ _ Hreach Hk).
    by rewrite (bind_Returned _ _ _ _ _ Hnode).
Qed.
End backward_no_rule.

(** ** Seeding *)

Lemma size_one_shape (t : Tensor) : size_ t = 1 → rows t = 1 ∧ cols t = 1.
Proof. unfold size_, numel. intros E. by apply Nat.eq_mul_1 in E. Qed.

Lemma seed_tensor_default (v : Tensor) : seed_tensor None v = Tensor_ones_like v.
Proof.
  unfold seed_tensor. case_decide as E; [|done].
  apply size_one_shape in E as [Hr Hc]. unfold Tensor_ones_like. by rewrite Hr, Hc.
Qed.

Section seeding.
Context `{OpLibrary}.

Lemma seed_root_run r grad_seed h tr rn :
  h !! r = Some rn →
  seed_root r grad_seed (mkState h tr)
  = (Returned tt,
     mkState (if requires_grad rn
              then <[r := set_grad (seed_tensor grad_seed (value rn)) rn]> h
              else h) tr).
Proof.
  intros Hr. unfold seed_root. rewrite (bind_Returned _ _ _ _ _ (get_heap_run _ _)).
  rewrite Hr. destruct (requires_grad rn); [| done].
  by apply update_live.
Qed.

(** Claim C7.  [backward] starts by seeding the root: when the root requires
    grad its [grad] becomes the seed that was passed or, without one, a ones
    tensor shaped like the root's value, which is the 1x1 ones tensor when
    the value has exactly one element; when the root does not require grad
    nothing is written.  The reverse walk then runs on that state. *)
Theorem backward_seeds_root fuel r grad_seed h tr rn :
  h !! r = Some rn →
  let g := seed_tensor grad_seed (value rn) in
  let h1 := if requires_grad rn then <[r := set_grad g rn]> h else h in
  seed_root r grad_seed (mkState h tr) = (Returned tt, mkState h1 tr)
  ∧ backward fuel (mkValue (Some r)) grad_seed (mkState h tr)
    = for_each (rev (topo_from h r)) (backward_node fuel) (mkState h1 tr)
  ∧ (requires_grad rn = true →
       grad <$> (h1 !! r) = Some g ∧ ∀ m, m ≠ r → h1 !! m = h !! m)
  ∧ (requires_grad rn = false → h1 = h)
  ∧ (∀ t, grad_seed = Some t → g = t)
  ∧ (grad_seed = None → g = Tensor_ones_like (value rn) ∧ same_shape g (value rn))
  ∧ (grad_seed = None → size_ (value rn) = 1 → g = Tensor_ones 1 1).
Proof.
  intros Hr g h1. split; [by apply seed_root_run |]. split.
  { rewrite backward_unfold. by rewrite (bind_Returned _ _ _ _ _ (seed_root_run _ _ _ _ _ Hr)). }
  subst g h1. split; [| split; [| split; [| split]]].
  - intros ->. split; [by rewrite lookup_insert_eq |].
    intros m Hm. by rewrite lookup_insert_ne.
  - by intros ->.
  - by intros t ->.
  - intros ->. by rewrite seed_tensor_default.
  - intros -> E. unfold seed_tensor. by rewrite decide_True.
Qed.
End seeding.

(** ** Placeholders carry no node *)

Lemma only_values_changed_lookup h h' n nd' :
  only_values_changed h h' → h' !! n = Some nd' →
  ∃ nd, h !! n = Some nd ∧ set_value Tensor_empty nd = set_value Tensor_empty nd'.
Proof.
  intros Hv Hn. specialize (Hv n). rewrite Hn in Hv.
  destruct (h !! n) as [nd|]; [|done]. exists nd. split; [done |].
  cbn in Hv. congruence.
Qed.

Lemma only_values_changed_placeholders h h' :
  only_values_changed h h' → placeholders_null h → placeholders_null h'.
Proof.
  intros Hv Hnull n nd' Hn.
  destruct (only_values_changed_lookup _ _ _ _ Hv Hn) as (nd & Hnd & E).
  assert (saved_inputs nd' = saved_inputs nd) as ->
    by (apply (f_equal saved_inputs) in E; symmetry; exact E).
  by eapply Hnull.
Qed.

Section never_restores.
Context `{OpLibrary}.

Lemma restore_parents_never_restores rec rec' i slots s :
  Forall (λ sl : Value * option ptr, node sl.1 = None) slots →
  placeholders_null (st_heap s) →
  (∀ p s, placeholders_null (st_heap s) → rec p s = rec' p s) →
  (∀ p, preserves recompute_frame (rec p)) →
  restore_parents rec i slots s = restore_parents_live rec' i slots s.
Proof.
  intros Hslots Hnull Hrec Hframe. revert i s Hnull.
  induction Hslots as [|[sv parent] slots Hsv _ IH]; intros i [h tr] Hnull; [done |].
  cbn [restore_parents restore_parents_live].
  rewrite !(bind_Returned _ _ _ _ _ (get_heap_run _ _)).
  destruct (deref h parent) as [pn|]; [destruct parent as [p|] |].
  - rewrite !(bind_Returned _ _ _ _ _ (emit_run _ _ _)).
    cbn in Hsv. rewrite Hsv.
    assert (Hwhen : ∀ tr0, ∃ tr1,
      when (bool_decide (numel (value pn) = 0)) (emit LogRecomputeEmptyInputWarning)
        (mkState h tr0) = (Returned tt, mkState h tr1)).
    { intros tr0. destruct (bool_decide _); cbn; eauto. }
    destruct (Hwhen (tr ++ [LogRecomputeInput i (ident_of h p) (numel (value pn))
                              (rows (value pn)) (cols (value pn)) (op pn)]))
      as (tr1 & Hw).
    rewrite !(bind_Returned _ _ _ _ _ Hw).
    destruct (decide (size_ (value pn) = 0)); [| by apply IH].
    destruct (is_checkpoint pn); [| done].
    unfold bind at 1 3. rewrite <- (Hrec (Some p)) by done.
    pose proof (Hframe (Some p) (mkState h tr1)) as [Hv _].
    destruct (rec (Some p) (mkState h tr1)) as [[[]| |] s2]; try done.
    apply IH. eapply only_values_changed_placeholders; [exact Hv | done].
  - rewrite !(bind_Returned _ _ _ _ _ (emit_run _ _ _)). by apply IH.
  - destruct parent; rewrite !(bind_Returned _ _ _ _ _ (emit_run _ _ _)); by apply IH.
Qed.

Lemma placeholders_null_slots h n nd :
  placeholders_null h → h !! n = Some nd →
  Forall (λ sl : Value * option ptr, node sl.1 = None) (zip (saved_inputs nd) (inputs nd)).
Proof.
  intros Hnull Hn. specialize (Hnull _ _ Hn).
  generalize (inputs nd). induction Hnull as [|sv svs Hsv _ IH]; intros [|p ps]; cbn;
    constructor; eauto.
Qed.

Lemma recompute_subgraph_never_restores fuel node_ s :
  placeholders_null (st_heap s) →
  recompute_subgraph fuel node_ s = recompute_subgraph_live fuel node_ s.
Proof.
  revert node_ s. induction fuel as [|fuel IH]; intros node_ [h tr] Hnull; [done |].
  cbn [recompute_subgraph recompute_subgraph_live].
  rewrite !(bind_Returned _ _ _ _ _ (get_heap_run _ _)).
  destruct (deref h node_) as [nd|] eqn:Hd; [destruct node_ as [c|] |]; try done.
  destruct (negb (is_checkpoint nd)); [done |].
  pose proof (placeholders_null_slots h c nd Hnull Hd) as Hslots.
  destruct (saved_inputs nd) as [|sv0 svs]; [done |].
  assert (Hrng : ∃ tr1,
    when (has_saved_rng nd) (restore_rng_state (saved_rng_blob nd)) (mkState h tr)
    = (Returned tt, mkState h tr1)).
  { destruct (has_saved_rng nd); cbn; eauto. }
  destruct Hrng as (tr1 & Hrng). rewrite !(bind_Returned _ _ _ _ _ Hrng).
  unfold bind at 1 6.
  rewrite (restore_parents_never_restores _ (recompute_subgraph_live fuel) _ _ _ Hslots);
    [done | done | | intros p; apply recompute_subgraph_frame].
  intros p s' Hs'. by apply IH.
Qed.
End never_restores.

(** ** Snapshots are never read *)

Lemma blind_ret {A} (a : A) : blind (ret a) (ret a).
Proof. done. Qed.
Lemma blind_throw {A} e : blind (@throw A e) (throw e).
Proof. done. Qed.
Lemma blind_diverge {A} : blind (@diverge A) diverge.
Proof. done. Qed.
Lemma blind_emit e : blind (emit e) (emit e).
Proof. done. Qed.

Lemma blind_bind {A B} (c1 c2 : M A) (k1 k2 : A → M B) :
  blind c1 c2 → (∀ a, blind (k1 a) (k2 a)) → blind (bind c1 k1) (bind c2 k2).
Proof.
  intros Hc Hk s. unfold bind. rewrite Hc.
  destruct (c2 s) as [[a| |] s']; cbn; [apply Hk | done | done].
Qed.

Lemma blind_get_heap {B} (k1 k2 : heap → M B) :
  (∀ h, blind (k1 (forget_snapshots h)) (k2 h)) → blind (bind get_heap k1) (bind get_heap k2).
Proof. intros Hk [h tr]. apply Hk. Qed.

Lemma blind_try_catch {A} (c1 c2 : M A) (k1 k2 : exn → M A) :
  blind c1 c2 → (∀ e, blind (k1 e) (k2 e)) → blind (try_catch c1 k1) (try_catch c2 k2).
Proof.
  intros Hc Hk s. unfold try_catch. rewrite Hc.
  destruct (c2 s) as [[a| |] s']; cbn; [done | apply Hk | done].
Qed.

Lemma blind_when b (c1 c2 : M unit) : blind c1 c2 → blind (when b c1) (when b c2).
Proof. by destruct b. Qed.

Lemma blind_set_value p t : blind (update p (set_value t)) (update p (set_value t)).
Proof.
  intros [h tr]. unfold update, forget_after, forget, forget_snapshots. cbn. do 2 f_equal.
  apply map_eq. intros i. rewrite lookup_alter, !lookup_fmap, lookup_alter.
  repeat case_decide; try done. by destruct (h !! p).
Qed.

Lemma deref_forget h p :
  deref (forget_snapshots h) p = set_saved_input_tensors [] <$> deref h p.
Proof. destruct p as [p|]; [| done]. apply lookup_fmap. Qed.

Lemma ident_of_forget h p : ident_of (forget_snapshots h) p = ident_of h p.
Proof.
  unfold ident_of, forget_snapshots. rewrite lookup_fmap. by destruct (h !! p).
Qed.

Lemma value_of_forget h p : value_of (forget_snapshots h) p = value_of h p.
Proof. unfold value_of. rewrite deref_forget. by destruct (deref h p). Qed.

Section blind.
Context `{OpLibrary}.

Lemma forward_eval_node_blind n : blind (forward_eval_node n) (forward_eval_node n).
Proof.
  unfold forward_eval_node. apply blind_bind; [apply blind_emit | intros _].
  apply blind_get_heap. intros h. unfold forget_snapshots at 1. rewrite lookup_fmap.
  destruct (h !! n) as [nd|]; cbn; [| apply blind_throw].
  replace ((λ p, value <$> deref (forget_snapshots h) p) <$> inputs nd)
    with ((λ p, value <$> deref h p) <$> inputs nd).
  - destruct (forward_eval _ _); [apply blind_throw | apply blind_ret].
  - apply list_fmap_ext. intros _ p _. rewrite deref_forget. by destruct (deref h p).
Qed.

Lemma restore_parents_blind rec i slots :
  (∀ p, blind (rec p) (rec p)) →
  blind (restore_parents rec i slots) (restore_parents rec i slots).
Proof.
  intros Hrec. revert i. induction slots as [|[sv parent] slots IH]; intros i.
  { apply blind_ret. }
  cbn [restore_parents]. apply blind_get_heap. intros h. rewrite deref_forget.
  destruct (deref h parent) as [pn|]; cbn [fmap option_fmap option_map];
    [destruct parent as [p|] |].
  - rewrite ident_of_forget. cbn [set_saved_input_tensors value op is_checkpoint].
    apply blind_bind; [apply blind_emit | intros _].
    apply blind_bind; [apply blind_when, blind_emit | intros _].
    destruct (node sv) as [src|].
    + rewrite value_of_forget. apply blind_bind; [apply blind_set_value | intros _]. apply IH.
    + destruct (decide _); [| apply IH].
      destruct (is_checkpoint pn).
      * apply blind_bind; [apply Hrec | intros [|]]; [apply IH |].
        apply blind_bind; [apply blind_emit | intros _; apply blind_ret].
      * apply blind_bind; [apply blind_emit | intros _; apply blind_ret].
  - apply blind_bind; [apply blind_emit | intros _]. apply IH.
  - destruct parent; (apply blind_bind; [apply blind_emit | intros _]); apply IH.
Qed.

Lemma recompute_subgraph_blind fuel node_ :
  blind (recompute_subgraph fuel node_) (recompute_subgraph fuel node_).
Proof.
  revert node_. induction fuel as [|fuel IH]; intros node_; [apply blind_diverge |].
  cbn [recompute_subgraph]. apply blind_get_heap. intros h. rewrite deref_forget.
  destruct (deref h node_) as [nd|]; cbn [fmap option_fmap option_map];
    [destruct node_ as [c|] |]; try apply blind_ret.
  cbn [set_saved_input_tensors is_checkpoint saved_inputs has_saved_rng saved_rng_blob inputs].
  destruct (negb (is_checkpoint nd)); [apply blind_ret |].
  rewrite ident_of_forget.
  destruct (saved_inputs nd) as [|sv0 svs].
  { apply blind_bind; [apply blind_emit | intros _; apply blind_ret]. }
  apply blind_bind; [apply blind_when, blind_emit | intros _].
  apply blind_bind; [apply restore_parents_blind, IH | intros [|]]; [| apply blind_ret].
  apply blind_try_catch.
  - apply blind_bind; [apply forward_eval_node_blind | intros t].
    apply blind_bind; [apply blind_set_value | intros _].
    apply blind_bind; [apply blind_emit | intros _; apply blind_ret].
  - intros e. apply blind_bind; [apply blind_emit | intros _; apply blind_ret].
Qed.
End blind.

(** ** What marking and capturing store *)

Lemma mark_node_checkpoint_placeholders node_ opts s :
  placeholders_null (st_heap s) →
  placeholders_null (st_heap (mark_node_checkpoint node_ opts s).2).
Proof.
  intros Hnull. destruct s as [h tr].
  destruct (deref h node_) as [nd|] eqn:Hd.
  - destruct (is_checkpoint nd) eqn:Hc.
    + by erewrite mark_node_checkpoint_noop.
    + destruct node_ as [c|]; [| done]. cbn in Hd.
      rewrite (mark_node_checkpoint_fresh _ _ _ _ _ Hd Hc). cbn [snd st_heap].
      apply map_Forall_insert_2; [| done].
      cbn [marked saved_inputs]. apply Forall_fmap. by apply Forall_true.
  - by erewrite mark_node_checkpoint_dead.
Qed.

#[global] Instance same_saved_inputs_preorder : PreOrder same_saved_inputs.
Proof.
  split.
  - by intros s n.
  - intros s1 s2 s3 H12 H23 n. by rewrite H23, H12.
Qed.

Lemma emit_same_saved_inputs e : preserves same_saved_inputs (emit e).
Proof. by intros s n. Qed.

Lemma update_same_saved_inputs p (f : Node → Node) :
  (∀ x, saved_inputs (f x) = saved_inputs x) → preserves same_saved_inputs (update p f).
Proof.
  intros Hf s n. cbn. rewrite lookup_alter. case_decide; [subst | done].
  destruct (st_heap s !! n); cbn; [by rewrite Hf | done].
Qed.

Lemma capture_slot_same_saved_inputs n p : preserves same_saved_inputs (capture_slot n p).
Proof.
  unfold capture_slot. apply preserves_bind; [tc_solve | apply preserves_get_heap; tc_solve |].
  intros h. destruct (deref h p) as [pn|]; [destruct (decide _) |];
    by apply update_same_saved_inputs.
Qed.

Lemma only_values_changed_proj {A} (f : Node → A) h h' m :
  (∀ x, f (set_value Tensor_empty x) = f x) →
  only_values_changed h h' → f <$> (h' !! m) = f <$> (h !! m).
Proof.
  intros Hf Hv. specialize (Hv m).
  destruct (h' !! m) as [x|], (h !! m) as [y|]; try done.
  change (Some (set_value Tensor_empty x) = Some (set_value Tensor_empty y)) in Hv.
  apply (inj Some) in Hv. cbn [fmap option_fmap option_map]. f_equal.
  by rewrite <- (Hf x), <- (Hf y), Hv.
Qed.

Section capture.
Context `{OpLibrary}.

Lemma capture_checkpoint_snapshots_same_saved_inputs root :
  preserves same_saved_inputs (capture_checkpoint_snapshots root).
Proof.
  unfold capture_checkpoint_snapshots, capture_node. destruct (node root) as [r|];
    [| apply preserves_ret; tc_solve].
  apply preserves_bind; [tc_solve | apply preserves_get_heap; tc_solve | intros h0].
  apply preserves_for_each; [tc_solve | intros n_].
  apply preserves_bind; [tc_solve | apply preserves_get_heap; tc_solve | intros h].
  destruct (deref h n_) as [nd|]; [destruct n_ as [n|] |]; try (apply preserves_ret; tc_solve).
  destruct (negb (is_checkpoint nd)); [apply preserves_ret; tc_solve |].
  apply preserves_bind; [tc_solve | by apply update_same_saved_inputs | intros _].
  apply preserves_bind; [tc_solve | | intros _; apply emit_same_saved_inputs].
  apply preserves_for_each; [tc_solve | intros p]. apply capture_slot_same_saved_inputs.
Qed.

(** Claim C10.  Every placeholder [mark_node_checkpoint] stores in
    [saved_inputs] has a null node handle, whether or not the parent had a
    value, and [capture_checkpoint_snapshots] leaves [saved_inputs] alone;
    so on a heap whose placeholders are all null (which marking keeps so)
    [recompute_subgraph] is the recomputation without the restoring branch,
    and it neither reads [saved_input_tensors] (it does the same on the heap
    with every snapshot thrown away) nor writes them. *)
Theorem recompute_ignores_snapshots :
  (∀ c opts h tr nd, h !! c = Some nd → is_checkpoint nd = false →
     ∃ nd', heap_after (mark_node_checkpoint (Some c) opts) (mkState h tr) !! c = Some nd'
       ∧ saved_inputs nd' = replicate (length (inputs nd)) (mkValue None)
       ∧ length (saved_input_tensors nd') = length (inputs nd))
  ∧ (∀ node_ opts s, placeholders_null (st_heap s) →
       placeholders_null (heap_after (mark_node_checkpoint node_ opts) s))
  ∧ (∀ root s n,
       saved_inputs <$> (heap_after (capture_checkpoint_snapshots root) s !! n)
       = saved_inputs <$> (st_heap s !! n))
  ∧ (∀ fuel node_ s, placeholders_null (st_heap s) →
       recompute_subgraph fuel node_ s = recompute_subgraph_live fuel node_ s)
  ∧ (∀ fuel node_ s,
       recompute_subgraph fuel node_ (forget s)
       = forget_after (recompute_subgraph fuel node_ s))
  ∧ (∀ fuel node_ s n,
       saved_input_tensors <$> (heap_after (recompute_subgraph fuel node_) s !! n)
       = saved_input_tensors <$> (st_heap s !! n)).
Proof.
  split; [| split; [| split; [| split; [| split]]]].
  - intros c opts h tr nd Hc Hnc. unfold heap_after.
    rewrite (mark_node_checkpoint_fresh _ _ _ _ _ Hc Hnc). cbn [snd st_heap].
    rewrite lookup_insert_eq. eexists. split; [done |]. cbn [marked saved_inputs saved_input_tensors].
    split; [| by rewrite length_fmap].
    generalize (inputs nd). intros l. induction l as [|x l IH]; [done |]. cbn. by f_equal.
  - apply mark_node_checkpoint_placeholders.
  - intros root s n. apply capture_checkpoint_snapshots_same_saved_inputs.
  - apply recompute_subgraph_never_restores.
  - apply recompute_subgraph_blind.
  - intros fuel node_ s n. unfold heap_after.
    destruct (recompute_subgraph_frame fuel node_ s) as [Hv _].
    by apply only_values_changed_proj.
Qed.
End capture.

(** ** Eviction *)

Lemma sweep_loop_nil fuel P s : sweep_loop fuel P [] s = s.
Proof. by destruct fuel. Qed.

Lemma sweep_loop_cons fuel P n q' s :
  sweep_loop fuel P (n :: q') s
  = match deref (sw_heap s) n, n with
    | Some nd, Some a =>
      if decide (a ∈ seen s) then sweep_loop fuel P q' s
      else
        match fuel with
        | 0 => s
        | S fuel' =>
          let s' :=
            if decide (a ∈ P)
            then mkSweep (sw_heap s) ({[a]} ∪ seen s) (cleared_count s) (cleared_bytes s)
            else mkSweep (alter evict_node a (sw_heap s)) ({[a]} ∪ seen s)
                   (S (cleared_count s))
                   (if decide (numel (value nd) ≠ 0)
                    then cleared_bytes s + numel (value nd) * sizeof_float
                    else cleared_bytes s) in
          sweep_loop fuel' P (push_inputs q' nd) s'
        end
    | _, _ => sweep_loop fuel P q' s
    end.
Proof. by destruct fuel. Qed.

Lemma protect_loop_nil fuel h ps : protect_loop fuel h [] ps = ps.
Proof. by destruct fuel. Qed.

Lemma protect_loop_cons fuel h n q' ps :
  protect_loop fuel h (n :: q') ps
  = match deref h n, n with
    | Some nd, Some a =>
      if decide (a ∈ ps) then protect_loop fuel h q' ps
      else
        match fuel with
        | 0 => ps
        | S fuel' =>
          if is_checkpoint nd
          then protect_loop fuel' h q' ({[a]} ∪ ps)
          else protect_loop fuel' h (push_inputs q' nd) ({[a]} ∪ ps)
        end
    | _, _ => protect_loop fuel h q' ps
    end.
Proof. by destruct fuel. Qed.

Lemma elem_of_push_inputs p q nd :
  Some p ∈ push_inputs q nd ↔ Some p ∈ q ∨ Some p ∈ inputs nd.
Proof.
  unfold push_inputs. rewrite elem_of_app, list_elem_of_filter. naive_solver.
Qed.

Lemma size_unvisited (D V : gset ptr) a fuel :
  a ∈ D → a ∉ V → size (D ∖ V) ≤ S fuel → size (D ∖ ({[a]} ∪ V)) ≤ fuel.
Proof.
  intros HD HV Hsz.
  assert (D ∖ ({[a]} ∪ V) ⊂ D ∖ V) as Hsub by set_solver.
  apply subset_size in Hsub. lia.
Qed.

Lemma size_unvisited_pos (D V : gset ptr) a : a ∈ D → a ∉ V → size (D ∖ V) ≠ 0.
Proof.
  intros HD HV Hsz. apply size_empty_inv in Hsz. set_solver.
Qed.

(** What the sweep maintains: the heap is the initial one with the seen,
    unprotected nodes evicted; the seen nodes are live; every live input of
    a seen node is seen or queued; and so is the root. *)
Record sweep_inv (h0 : heap) (P : gset ptr) (r : ptr)
    (q : list (option ptr)) (s : sweep_state) : Prop := {
  sweep_heap : evicted_in (seen s) P h0 (sw_heap s);
  sweep_live : seen s ⊆ dom h0;
  sweep_closed : ∀ m nd p, m ∈ seen s → h0 !! m = Some nd → Some p ∈ inputs nd →
                   is_Some (h0 !! p) → p ∈ seen s ∨ Some p ∈ q;
  sweep_root : is_Some (h0 !! r) → r ∈ seen s ∨ Some r ∈ q;
}.

Lemma evicted_in_live S P h0 h n nd :
  evicted_in S P h0 h → h !! n = Some nd →
  ∃ nd0, h0 !! n = Some nd0 ∧ inputs nd = inputs nd0 ∧ (n ∉ S → nd = nd0).
Proof.
  intros He Hn. rewrite He in Hn. destruct (h0 !! n) as [nd0|]; [| done].
  exists nd0. cbn in Hn. injection Hn as <-. split; [done |].
  case_decide; [split; [done | naive_solver] | done].
Qed.

Lemma sweep_inv_skip h0 P r n q s :
  sweep_inv h0 P r (n :: q) s →
  (∀ a, n = Some a → is_Some (sw_heap s !! a) → a ∈ seen s) →
  sweep_inv h0 P r q s.
Proof.
  intros [Hh Hl Hc Hr] Hskip. split; [done | done | |].
  - intros m nd p Hm Hnd Hp Hlive.
    destruct (Hc m nd p Hm Hnd Hp Hlive) as [? | Hin]; [by left |].
    apply elem_of_cons in Hin as [<- | ?]; [| by right].
    left. apply Hskip; [done |]. rewrite Hh. by apply fmap_is_Some.
  - intros Hlive. destruct (Hr Hlive) as [? | Hin]; [by left |].
    apply elem_of_cons in Hin as [<- | ?]; [| by right].
    left. apply Hskip; [done |]. rewrite Hh. by apply fmap_is_Some.
Qed.

Lemma sweep_loop_inv h0 P r fuel q s :
  sweep_inv h0 P r q s → size (dom h0 ∖ seen s) ≤ fuel →
  sweep_inv h0 P r [] (sweep_loop fuel P q s).
Proof.
  revert q s. induction fuel as [|fuel IHfuel];
    (induction q as [|n q IHq]; intros s Hinv Hsz;
       [by rewrite sweep_loop_nil | rewrite sweep_loop_cons]).
  - (* no node is left to visit *)
    destruct (deref (sw_heap s) n) as [nd|] eqn:Hd; [destruct n as [a|]; [| done] |].
    + cbn in Hd. destruct (decide (a ∈ seen s)) as [Ha | Ha].
      * apply IHq; [| done]. apply (sweep_inv_skip _ _ _ _ _ _ Hinv). naive_solver.
      * exfalso. destruct (evicted_in_live _ _ _ _ _ _ (sweep_heap _ _ _ _ _ Hinv) Hd)
          as (nd0 & Hnd0 & _).
        eapply (size_unvisited_pos (dom h0) (seen s) a); [by apply elem_of_dom | done | lia].
    + assert (sweep_inv h0 P r q s)
        by (apply (sweep_inv_skip _ _ _ _ _ _ Hinv); intros a -> [? ?]; cbn in Hd; congruence).
      destruct n; by apply IHq.
  - destruct (deref (sw_heap s) n) as [nd|] eqn:Hd; [destruct n as [a|]; [| done] |].
    + cbn in Hd. destruct (decide (a ∈ seen s)) as [Ha | Ha].
      * apply IHq; [| done]. apply (sweep_inv_skip _ _ _ _ _ _ Hinv). naive_solver.
      * destruct (evicted_in_live _ _ _ _ _ _ (sweep_heap _ _ _ _ _ Hinv) Hd)
          as (nd0 & Hnd0 & Hin & Heq).
        specialize (Heq Ha). subst nd0.
        assert (Hdom : a ∈ dom h0) by by apply elem_of_dom.
        destruct Hinv as [Hh Hl Hc Hr].
        apply IHfuel.
        -- split.
           ++ intros m. destruct (decide (a ∈ P)) as [HP | HP]; cbn [sw_heap seen].
              ** rewrite Hh. destruct (h0 !! m) as [x|]; [| done]. cbn. f_equal.
                 repeat case_decide; try done; set_solver.
              ** rewrite lookup_alter. case_decide as Hm.
                 --- subst m. rewrite Hd, Hnd0. cbn. f_equal.
                     rewrite decide_True; [done | set_solver].
                 --- rewrite Hh. destruct (h0 !! m) as [x|]; [| done]. cbn. f_equal.
                     repeat case_decide; try done; set_solver.
           ++ destruct (decide (a ∈ P)); cbn [seen]; set_solver.
           ++ intros m x p Hm Hx Hp Hlive. rewrite elem_of_push_inputs.
              assert (m = a ∨ m ∈ seen s) as [-> | Hm']
                by (destruct (decide (a ∈ P)); cbn [seen] in Hm; set_solver).
              ** right. right. congruence.
              ** destruct (Hc m x p Hm' Hx Hp Hlive) as [? | Hq].
                 --- left. destruct (decide (a ∈ P)); cbn [seen]; set_solver.
                 --- apply elem_of_cons in Hq as [[= ->] | ?]; [| by (right; left)].
                     left. destruct (decide (a ∈ P)); cbn [seen]; set_solver.
           ++ intros Hlive. rewrite elem_of_push_inputs.
              destruct (Hr Hlive) as [? | Hq].
              ** left. destruct (decide (a ∈ P)); cbn [seen]; set_solver.
              ** apply elem_of_cons in Hq as [[= ->] | ?]; [| by (right; left)].
                 left. destruct (decide (a ∈ P)); cbn [seen]; set_solver.
        -- assert (seen (if decide (a ∈ P)
                         then mkSweep (sw_heap s) ({[a]} ∪ seen s) (cleared_count s) (cleared_bytes s)
                         else mkSweep (alter evict_node a (sw_heap s)) ({[a]} ∪ seen s)
                                (S (cleared_count s))
                                (if decide (numel (value nd) ≠ 0)
                                 then cleared_bytes s + numel (value nd) * sizeof_float
                                 else cleared_bytes s)) = {[a]} ∪ seen s) as ->
             by by destruct (decide (a ∈ P)).
           by apply size_unvisited.
    + assert (sweep_inv h0 P r q s)
        by (apply (sweep_inv_skip _ _ _ _ _ _ Hinv); intros a -> [? ?]; cbn in Hd; congruence).
      destruct n; by apply IHq.
Qed.

(** What the marking of the protected set maintains: everything marked or
    queued lies on a path from the root that leaves no checkpoint, and every
    live input of a marked non-checkpoint is marked or queued. *)
Record protect_inv (h : heap) (r : ptr) (q : list (option ptr)) (ps : gset ptr) : Prop := {
  protect_sound : ∀ n, n ∈ ps → protected_path h r n;
  protect_queue : ∀ p, Some p ∈ q → is_Some (h !! p) → protected_path h r p;
  protect_closed : ∀ m nd p, m ∈ ps → h !! m = Some nd → is_checkpoint nd = false →
                     Some p ∈ inputs nd → is_Some (h !! p) → p ∈ ps ∨ Some p ∈ q;
  protect_root : is_Some (h !! r) → r ∈ ps ∨ Some r ∈ q;
}.

Lemma protected_path_live h r n : protected_path h r n → is_Some (h !! n).
Proof. by destruct 1. Qed.

Lemma protect_inv_skip h r n q ps :
  protect_inv h r (n :: q) ps →
  (∀ a, n = Some a → is_Some (h !! a) → a ∈ ps) →
  protect_inv h r q ps.
Proof.
  intros [Hs Hq Hc Hr] Hskip. split; [done | | |].
  - intros p Hp. apply Hq. by right.
  - intros m nd p Hm Hnd Hnc Hp Hlive.
    destruct (Hc m nd p Hm Hnd Hnc Hp Hlive) as [? | Hin]; [by left |].
    apply elem_of_cons in Hin as [<- | ?]; [| by right]. left. by apply Hskip.
  - intros Hlive. destruct (Hr Hlive) as [? | Hin]; [by left |].
    apply elem_of_cons in Hin as [<- | ?]; [| by right]. left. by apply Hskip.
Qed.

Lemma protect_loop_inv h r fuel q ps :
  protect_inv h r q ps → size (dom h ∖ ps) ≤ fuel →
  protect_inv h r [] (protect_loop fuel h q ps).
Proof.
  revert q ps. induction fuel as [|fuel IHfuel];
    (induction q as [|n q IHq]; intros ps Hinv Hsz;
       [by rewrite protect_loop_nil | rewrite protect_loop_cons]).
  - destruct (deref h n) as [nd|] eqn:Hd; [destruct n as [a|]; [| done] |].
    + cbn in Hd. destruct (decide (a ∈ ps)) as [Ha | Ha].
      * apply IHq; [| done]. apply (protect_inv_skip _ _ _ _ _ Hinv). naive_solver.
      * exfalso.
        eapply (size_unvisited_pos (dom h) ps a); [by apply elem_of_dom | done | lia].
    + assert (protect_inv h r q ps)
        by (apply (protect_inv_skip _ _ _ _ _ Hinv); intros a -> [? ?]; cbn in Hd; congruence).
      destruct n; by apply IHq.
  - destruct (deref h n) as [nd|] eqn:Hd; [destruct n as [a|]; [| done] |].
    + cbn in Hd. destruct (decide (a ∈ ps)) as [Ha | Ha].
      * apply IHq; [| done]. apply (protect_inv_skip _ _ _ _ _ Hinv). naive_solver.
      * assert (Hdom : a ∈ dom h) by by apply elem_of_dom.
        assert (Hpa : protected_path h r a)
          by (apply (protect_queue _ _ _ _ Hinv); [by left | done]).
        destruct Hinv as [Hs Hq Hc Hr].
        destruct (is_checkpoint nd) eqn:Hck; (apply IHfuel; [| by apply size_unvisited]).
        -- split.
           ++ intros m Hm. apply elem_of_union in Hm as [Hm | Hm]; [| by apply Hs].
              apply elem_of_singleton in Hm. by subst.
           ++ intros p Hp. apply Hq. by right.
           ++ intros m x p Hm Hx Hnc Hp Hlive.
              apply elem_of_union in Hm as [Hm | Hm].
              { apply elem_of_singleton in Hm. subst m. congruence. }
              destruct (Hc m x p Hm Hx Hnc Hp Hlive) as [? | Hin]; [left; set_solver |].
              apply elem_of_cons in Hin as [[= ->] | ?]; [left; set_solver | by right].
           ++ intros Hlive. destruct (Hr Hlive) as [? | Hin]; [left; set_solver |].
              apply elem_of_cons in Hin as [[= ->] | ?]; [left; set_solver | by right].
        -- split.
           ++ intros m Hm. apply elem_of_union in Hm as [Hm | Hm]; [| by apply Hs].
              apply elem_of_singleton in Hm. by subst.
           ++ intros p Hp Hlive. apply elem_of_push_inputs in Hp as [Hp | Hp].
              ** apply Hq; [by right | done].
              ** by eapply protected_input.
           ++ intros m x p Hm Hx Hnc Hp Hlive. rewrite elem_of_push_inputs.
              apply elem_of_union in Hm as [Hm | Hm].
              { apply elem_of_singleton in Hm. subst m. right. right. congruence. }
              destruct (Hc m x p Hm Hx Hnc Hp Hlive) as [? | Hin]; [left; set_solver |].
              apply elem_of_cons in Hin as [[= ->] | ?]; [left; set_solver | by (right; left)].
           ++ intros Hlive. rewrite elem_of_push_inputs.
              destruct (Hr Hlive) as [? | Hin]; [left; set_solver |].
              apply elem_of_cons in Hin as [[= ->] | ?]; [left; set_solver | by (right; left)].
    + assert (protect_inv h r q ps)
        by (apply (protect_inv_skip _ _ _ _ _ Hinv); intros a -> [? ?]; cbn in Hd; congruence).
      destruct n; by apply IHq.
Qed.

Lemma size_dom_difference_empty (h : heap) : size (dom h ∖ (∅ : gset ptr)) ≤ size h.
Proof. rewrite difference_empty_L. by rewrite size_dom. Qed.

(** The protected set is exactly the set of nodes on a path from the root
    that leaves no checkpoint. *)
Lemma protected_of_spec h r n : n ∈ protected_of h r ↔ protected_path h r n.
Proof.
  assert (Hinv : protect_inv h r [] (protected_of h r)).
  { apply protect_loop_inv; [| apply size_dom_difference_empty].
    split; [set_solver | | set_solver |].
    - intros p Hp Hlive. apply list_elem_of_singleton in Hp as [= ->]. by constructor.
    - intros _. right. by left. }
  split; [apply (protect_sound _ _ _ _ Hinv) |].
  induction 1 as [Hlive | m nd p _ IH Hm Hnc Hp Hlive].
  - destruct (protect_root _ _ _ _ Hinv Hlive) as [? | Hin]; [done | by apply elem_of_nil in Hin].
  - destruct (protect_closed _ _ _ _ Hinv m nd p IH Hm Hnc Hp Hlive) as [? | Hin];
      [done | by apply elem_of_nil in Hin].
Qed.

Lemma swept_inv h r : sweep_inv h (protected_of h r) r [] (swept h r).
Proof.
  apply sweep_loop_inv; [| apply size_dom_difference_empty].
  split; cbn [seen sw_heap].
  - intros n. destruct (h !! n) as [x|]; [| done]. cbn [fmap option_fmap option_map].
    by rewrite decide_False by set_solver.
  - set_solver.
  - set_solver.
  - intros _. right. by left.
Qed.

Lemma swept_seen_reachable h r n : reachable h r n → n ∈ seen (swept h r).
Proof.
  pose proof (swept_inv h r) as Hinv.
  induction 1 as [Hlive | m nd p _ IH Hm Hp Hlive].
  - destruct (sweep_root _ _ _ _ _ Hinv Hlive) as [? | Hin]; [done | by apply elem_of_nil in Hin].
  - destruct (sweep_closed _ _ _ _ _ Hinv m nd p IH Hm Hp Hlive) as [? | Hin];
      [done | by apply elem_of_nil in Hin].
Qed.

(** Claim C4.  [evict_non_checkpoint_values(root)] returns, and afterwards:
    a node of the protected set (the nodes on a path from the root that
    leaves no checkpoint, as the first traversal computes it) is unchanged,
    the root among them; a reachable node outside the protected set has an
    empty value and an empty tape and is otherwise unchanged; and the
    [saved_input_tensors] of every node are what they were. *)
Theorem evict_non_checkpoint_values_spec (r : ptr) (h : heap) (tr : list event) :
  let P := protected_of h r in
  let h' := heap_after (evict_non_checkpoint_values (mkValue (Some r))) (mkState h tr) in
  (∃ tr', evict_non_checkpoint_values (mkValue (Some r)) (mkState h tr)
          = (Returned tt, mkState h' tr'))
  ∧ (∀ n, n ∈ P ↔ protected_path h r n)
  ∧ (∀ n, n ∈ P → h' !! n = h !! n)
  ∧ (is_Some (h !! r) → r ∈ P ∧ value <$> (h' !! r) = value <$> (h !! r))
  ∧ (∀ n nd, reachable h r n → n ∉ P → h !! n = Some nd →
       h' !! n = Some (evict_node nd)
       ∧ value (evict_node nd) = Tensor_empty ∧ tape (evict_node nd) = [])
  ∧ (∀ n, saved_input_tensors <$> (h' !! n) = saved_input_tensors <$> (h !! n)).
Proof.
  intros P h'.
  assert (Hh' : h' = sw_heap (swept h r)) by done.
  destruct (swept_inv h r) as [Hheap _ _ _]. fold P in Hheap.
  assert (Hkeep : ∀ n, n ∈ P → h' !! n = h !! n).
  { intros n Hn. rewrite Hh', Hheap. destruct (h !! n); [| done]. cbn.
    rewrite decide_False; [done | tauto]. }
  split.
  { exists (tr ++ [LogEvictFreed (cleared_count (swept h r)) (cleared_bytes (swept h r))]).
    reflexivity. }
  split; [apply protected_of_spec |]. split; [done |].
  split; [| split].
  - intros Hlive. assert (r ∈ P) by (apply protected_of_spec; by constructor).
    split; [done |]. by rewrite Hkeep.
  - intros n nd Hreach HnP Hn. split; [| done].
    rewrite Hh', Hheap, Hn. cbn. rewrite decide_True; [done |].
    split; [by apply swept_seen_reachable | done].
  - intros n. rewrite Hh', Hheap. destruct (h !! n); [| done]. cbn. by case_decide.
Qed.

(** ** Depth-first post-order *)

Lemma dfs_visit_unfold fuel h C a st :
  dfs_visit fuel h C (Some a) st
  = if decide (a ∈ perm st) then st
    else if decide (a ∈ temp st) then st
    else
      match fuel, h !! a with
      | S fuel', Some nd =>
        let st2 := dfs_inputs fuel' h C (mkDfs ({[a]} ∪ temp st) (perm st) (out st)) (inputs nd) in
        mkDfs (temp st2) ({[a]} ∪ perm st2) (out st2 ++ [a])
      | _, _ => st
      end.
Proof. by destruct fuel. Qed.

Lemma dfs_inputs_nil fuel h C st : dfs_inputs fuel h C st [] = st.
Proof. done. Qed.

Lemma dfs_inputs_cons fuel h C st x l :
  dfs_inputs fuel h C st (x :: l)
  = dfs_inputs fuel h C
      (match x with
       | None => st
       | Some i => if decide (i ∈ C) then dfs_visit fuel h C (Some i) st else st
       end) l.
Proof. done. Qed.

(** What the traversal maintains. *)
Record dfs_inv (h : heap) (C : gset ptr) (st : dfs_state) : Prop := {
  dfs_perm_temp : perm st ⊆ temp st;
  dfs_out_perm : ∀ n, n ∈ out st ↔ n ∈ perm st;
  dfs_nodup : NoDup (out st);
  dfs_live : temp st ⊆ dom h;
  dfs_closed : ∀ n p, n ∈ perm st → input_edge h C n p → p ∈ temp st;
  dfs_order : ∀ i n p, out st !! i = Some n → input_edge h C n p →
                (∃ j, j < i ∧ out st !! j = Some p) ∨ tc (input_edge h C) p n;
}.

(** What one call adds to the state it starts from. *)
Record dfs_post (h : heap) (C : gset ptr) (st st' : dfs_state) : Prop := {
  post_inv : dfs_inv h C st';
  post_temp : temp st ⊆ temp st';
  post_perm : perm st ⊆ perm st';
  post_stack : on_stack st' = on_stack st;
}.

Lemma dfs_post_refl h C st : dfs_inv h C st → dfs_post h C st st.
Proof. by split. Qed.

Lemma dfs_post_trans h C st1 st2 st3 :
  dfs_post h C st1 st2 → dfs_post h C st2 st3 → dfs_post h C st1 st3.
Proof.
  intros [? ? ? E12] [? ? ? E23]. split; [done | set_solver | set_solver | congruence].
Qed.

Lemma size_unvisited_mono (D V V' : gset ptr) fuel :
  V ⊆ V' → size (D ∖ V) ≤ fuel → size (D ∖ V') ≤ fuel.
Proof.
  intros HV Hsz. etrans; [| exact Hsz]. apply subseteq_size. set_solver.
Qed.

Lemma dfs_visit_spec h C fuel a st :
  dfs_inv h C st → size (dom h ∖ temp st) ≤ fuel →
  (is_Some (h !! a) → ∀ g, g ∈ on_stack st → tc (input_edge h C) g a) →
  dfs_post h C st (dfs_visit fuel h C (Some a) st)
  ∧ (is_Some (h !! a) → a ∈ temp (dfs_visit fuel h C (Some a) st)).
Proof.
  revert a st. induction fuel as [|fuel IH]; intros a st Hinv Hsz Hstack;
    rewrite dfs_visit_unfold.
  - destruct (decide (a ∈ perm st)) as [Hp | Hp].
    { split; [by apply dfs_post_refl |]. intros _. by apply (dfs_perm_temp _ _ _ Hinv). }
    destruct (decide (a ∈ temp st)) as [Ht | Ht];
      [split; [by apply dfs_post_refl | done] |].
    split; [by apply dfs_post_refl |]. intros Hlive. exfalso.
    eapply (size_unvisited_pos (dom h) (temp st) a); [by apply elem_of_dom | done | lia].
  - destruct (decide (a ∈ perm st)) as [Hp | Hp].
    { split; [by apply dfs_post_refl |]. intros _. by apply (dfs_perm_temp _ _ _ Hinv). }
    destruct (decide (a ∈ temp st)) as [Ht | Ht];
      [split; [by apply dfs_post_refl | done] |].
    destruct (h !! a) as [nd|] eqn:Ha;
      [| split; [by apply dfs_post_refl | by intros [? ?]]].
    assert (Hdom : a ∈ dom h) by (apply elem_of_dom; eauto).
    specialize (Hstack (ltac:(eauto))).
    set (st1 := mkDfs ({[a]} ∪ temp st) (perm st) (out st)).
    assert (Hinv1 : dfs_inv h C st1).
    { destruct Hinv as [? ? ? ? ? ?]. split; cbn [temp perm out st1]; try done; set_solver. }
    assert (Hstack1 : on_stack st1 = {[a]} ∪ on_stack st).
    { unfold on_stack. cbn [temp perm st1]. set_solver. }
    (* the loop over the inputs *)
    assert (Hloop : ∀ l s, dfs_post h C st1 s →
              (∀ i, Some i ∈ l → Some i ∈ inputs nd) →
              dfs_post h C st1 (dfs_inputs fuel h C s l)
              ∧ ∀ i, (Some i ∈ l ∨ (i ∈ temp s ∧ is_Some (h !! i))) → i ∈ C → is_Some (h !! i) →
                     i ∈ temp (dfs_inputs fuel h C s l)).
    { induction l as [|x l IHl]; intros s Hs Hl.
      { rewrite dfs_inputs_nil. split; [done |].
        intros i [Hi | [? ?]]; [by apply elem_of_nil in Hi | done]. }
      rewrite dfs_inputs_cons.
      assert (Hl' : ∀ i, Some i ∈ l → Some i ∈ inputs nd) by (intros i Hi; apply Hl; by right).
      destruct x as [i0|]; [destruct (decide (i0 ∈ C)) as [HC | HC] |].
      - destruct (IH i0 s) as [Hpost Hin].
        + apply Hs.
        + eapply size_unvisited_mono; [| by apply (size_unvisited (dom h) (temp st) a)].
          etrans; [| apply (post_temp _ _ _ _ Hs)]. done.
        + intros Hlive g Hg. rewrite (post_stack _ _ _ _ Hs), Hstack1 in Hg.
          assert (He : input_edge h C a i0).
          { exists nd. split; [done |]. split; [apply Hl; by left | done]. }
          apply elem_of_union in Hg as [Hg | Hg].
          * apply elem_of_singleton in Hg. subst g. by apply tc_once.
          * eapply tc_r; [by apply Hstack | done].
        + destruct (IHl _ (dfs_post_trans _ _ _ _ _ Hs Hpost) Hl') as [Hpost' Hin'].
          split; [done |]. intros i [Hi | [Hi Hlive']] HiC Hlive.
          * apply elem_of_cons in Hi as [[= ->] | Hi]; [| apply Hin'; eauto].
            apply Hin'; [right | done | done]. split; [by apply Hin | done].
          * apply Hin'; [right | done | done]. split; [| done].
            by apply (post_temp _ _ _ _ Hpost).
      - destruct (IHl s Hs Hl') as [Hpost' Hin']. split; [done |].
        intros i [Hi | Hi] HiC Hlive; [| apply Hin'; eauto].
        apply elem_of_cons in Hi as [[= ->] | Hi]; [done | apply Hin'; eauto].
      - destruct (IHl s Hs Hl') as [Hpost' Hin']. split; [done |].
        intros i [Hi | Hi] HiC Hlive; [| apply Hin'; eauto].
        apply elem_of_cons in Hi as [[=] | Hi]. apply Hin'; eauto. }
    destruct (Hloop (inputs nd) st1 (dfs_post_refl _ _ _ Hinv1) (λ _ Hi, Hi))
      as [[Hinv2 Htemp2 Hperm2 Hstack2] Hin2].
    cbn zeta. set (st2 := dfs_inputs fuel h C st1 (inputs nd)) in *.
    assert (Ha2 : a ∈ temp st2 ∧ a ∉ perm st2).
    { assert (a ∈ on_stack st2) as Hon by (rewrite Hstack2, Hstack1; set_solver).
      unfold on_stack in Hon. set_solver. }
    destruct Ha2 as [Hat2 Hap2].
    destruct Hinv2 as [Hpt2 Hop2 Hnd2 Hlv2 Hcl2 Hor2].
    assert (Hedge : ∀ p, input_edge h C a p → p ∈ temp st2).
    { intros p (nd' & Hnd' & Hpin & HpC & Hlive).
      assert (nd' = nd) as -> by congruence. apply Hin2; eauto. }
    split; [split; [split |..] |]; cbn [temp perm out].
    + set_solver.
    + intros n. rewrite elem_of_app, list_elem_of_singleton, Hop2. set_solver.
    + apply NoDup_app. split; [done |]. split; [| apply NoDup_singleton].
      intros n Hn Hn'. apply list_elem_of_singleton in Hn'. subst n.
      apply Hop2 in Hn. done.
    + done.
    + intros n p Hn He. apply elem_of_union in Hn as [Hn | Hn]; [| by eapply Hcl2].
      apply elem_of_singleton in Hn. subst n. by apply Hedge.
    + intros i n p Hi He.
      destruct (decide (i < length (out st2))) as [Hlt | Hge].
      * rewrite lookup_app_l in Hi by done.
        destruct (Hor2 i n p Hi He) as [(j & Hj & Hjp) | ?]; [left | by right].
        exists j. split; [done |]. rewrite lookup_app_l; [done | lia].
      * rewrite lookup_app_r in Hi by lia.
        apply list_lookup_singleton_Some in Hi as [Hi <-].
        assert (i = length (out st2)) as -> by lia.
        pose proof (Hedge p He) as Hpt.
        destruct (decide (p ∈ perm st2)) as [Hpp | Hpp].
        -- left. apply Hop2 in Hpp. apply list_elem_of_lookup in Hpp as [j Hj].
           exists j. split; [by eapply lookup_lt_Some |].
           rewrite lookup_app_l; [done | by eapply lookup_lt_Some].
        -- right. assert (p ∈ on_stack st2) as Hon by (unfold on_stack; set_solver).
           rewrite Hstack2, Hstack1 in Hon.
           apply elem_of_union in Hon as [Hon | Hon]; [| by apply Hstack].
           apply elem_of_singleton in Hon. subst p. by apply tc_once.
    + set_solver.
    + set_solver.
    + unfold on_stack in *. cbn [temp perm] in *. set_solver.
    + intros _. set_solver.
Qed.

(** ** [topo_from] *)

Lemma dfs_inv_init h C : dfs_inv h C dfs_init.
Proof.
  split; cbn [dfs_init temp perm out].
  - done.
  - intros n. set_solver.
  - apply NoDup_nil_2.
  - set_solver.
  - set_solver.
  - intros i n p Hi. by rewrite lookup_nil in Hi.
Qed.

Lemma topo_from_nodes h r : topo_from h r = Some <$> topo_nodes h r.
Proof. done. Qed.

Lemma topo_from_post h r :
  dfs_post h (dom h) dfs_init (dfs_visit (size h) h (dom h) (Some r) dfs_init)
  ∧ (is_Some (h !! r) → r ∈ temp (dfs_visit (size h) h (dom h) (Some r) dfs_init)).
Proof.
  apply dfs_visit_spec.
  - apply dfs_inv_init.
  - cbn [temp dfs_init]. apply size_dom_difference_empty.
  - intros _ g Hg. unfold on_stack in Hg. cbn in Hg. set_solver.
Qed.

Lemma topo_nodes_perm h r n :
  n ∈ topo_nodes h r ↔ n ∈ temp (dfs_visit (size h) h (dom h) (Some r) dfs_init).
Proof.
  destruct (topo_from_post h r) as [[Hinv _ _ Hstack] _].
  unfold topo_nodes. rewrite (dfs_out_perm _ _ _ Hinv).
  unfold on_stack in Hstack. cbn [temp perm dfs_init] in Hstack.
  pose proof (dfs_perm_temp _ _ _ Hinv) as Hsub.
  generalize dependent (dfs_visit (size h) h (dom h) (Some r) dfs_init).
  intros st _ Hstack Hsub. split; [apply Hsub |]. intros Ht.
  destruct (decide (n ∈ perm st)) as [| Hn]; [done |].
  assert (n ∈ temp st ∖ perm st) as Hin by (apply elem_of_difference; done).
  rewrite Hstack in Hin. apply elem_of_difference in Hin as [Hin _].
  by apply elem_of_empty in Hin.
Qed.

Lemma topo_nodes_live h r n : n ∈ topo_nodes h r → is_Some (h !! n).
Proof.
  intros Hn. apply topo_nodes_perm in Hn.
  destruct (topo_from_post h r) as [[Hinv _ _ _] _].
  apply elem_of_dom. by apply (dfs_live _ _ _ Hinv).
Qed.

Lemma topo_nodes_reachable h r m : reachable h r m → m ∈ topo_nodes h r.
Proof.
  destruct (topo_from_post h r) as [[Hinv _ _ _] Hroot].
  induction 1 as [Hlive | m nd p _ IH Hm Hp Hlive].
  - apply topo_nodes_perm. by apply Hroot.
  - apply topo_nodes_perm. apply (dfs_closed _ _ _ Hinv m).
    + apply (dfs_out_perm _ _ _ Hinv). exact IH.
    + exists nd. split; [done |]. split; [done |]. split; [by apply elem_of_dom | done].
Qed.

Lemma topo_nodes_NoDup h r : NoDup (topo_nodes h r).
Proof. destruct (topo_from_post h r) as [[Hinv _ _ _] _]. apply (dfs_nodup _ _ _ Hinv). Qed.

Lemma dfs_inv_inputs_first h C st :
  acyclic h C → dfs_inv h C st → inputs_first h C (out st).
Proof.
  intros Hacyc Hinv i n p Hi He.
  destruct (dfs_order _ _ _ Hinv i n p Hi He) as [? | Hcyc]; [done |].
  exfalso. apply (Hacyc n). eapply tc_l; [exact He | exact Hcyc].
Qed.

Lemma topo_nodes_inputs_first h r :
  acyclic h (dom h) → inputs_first h (dom h) (topo_nodes h r).
Proof.
  intros Hacyc. destruct (topo_from_post h r) as [[Hinv _ _ _] _].
  by apply dfs_inv_inputs_first.
Qed.

(** ** [compute_forward_values] *)

Lemma try_catch_Returned {A} (c : M A) handler s a s' :
  c s = (Returned a, s') → try_catch c handler s = (Returned a, s').
Proof. unfold try_catch. by intros ->. Qed.

Lemma try_catch_Thrown {A} (c : M A) handler s e s' :
  c s = (Thrown e, s') → try_catch c handler s = handler e s'.
Proof. unfold try_catch. by intros ->. Qed.

Lemma for_each_run {A} (l : list A) (body : A → M unit) (step : State → A → State) s :
  (∀ x s0, body x s0 = (Returned tt, step s0 x)) →
  for_each l body s = (Returned tt, foldl step s l).
Proof.
  intros Hbody. revert s. induction l as [|x l IH]; intros s; [done |].
  cbn [for_each foldl]. rewrite (bind_Returned _ _ _ _ _ (Hbody x s)). apply IH.
Qed.

Section forward.
Context `{OpLibrary}.

Lemma forward_eval_node_run n h tr nd :
  h !! n = Some nd →
  forward_eval_node n (mkState h tr)
  = (match forward_eval (op nd) (parent_values h nd) with
     | inr t => Returned t
     | inl what => Thrown (ExternalError what)
     end, mkState h (tr ++ [CallForwardEval n])).
Proof.
  intros Hn. unfold forward_eval_node.
  rewrite (bind_Returned _ _ _ _ _ (emit_run _ _ _)).
  rewrite (bind_Returned _ _ _ _ _ (get_heap_run _ _)).
  rewrite Hn. fold (parent_values h nd).
  by destruct (forward_eval (op nd) (parent_values h nd)).
Qed.

Lemma compute_forward_node_run n_ s :
  compute_forward_node n_ s = (Returned tt, compute_forward_step s n_).
Proof.
  destruct s as [h tr]. unfold compute_forward_node, compute_forward_step.
  rewrite (bind_Returned _ _ _ _ _ (get_heap_run _ _)). cbn [st_heap st_trace].
  destruct (deref h n_) as [nd|] eqn:Hd; [destruct n_ as [n|]; [| done] | done].
  cbn in Hd. destruct (decide (size_ (value nd) ≠ 0)); [done |].
  pose proof (forward_eval_node_run n h tr nd Hd) as Hrun.
  destruct (forward_eval (op nd) (parent_values h nd)) as [what | t].
  - erewrite try_catch_Thrown; [| by erewrite bind_Thrown].
    rewrite emit_run. by rewrite <- app_assoc.
  - erewrite try_catch_Returned; [done |].
    rewrite (bind_Returned _ _ _ _ _ Hrun).
    erewrite bind_Returned; [| by apply update_live].
    unfold on_recomputed. rewrite (bind_Returned _ _ _ _ _ (emit_run _ _ _)).
    rewrite emit_run. by rewrite <- !app_assoc.
Qed.

Lemma compute_forward_values_run r s :
  compute_forward_values (mkValue (Some r)) s
  = (Returned tt, foldl compute_forward_step s (topo_from (st_heap s) r)).
Proof.
  destruct s as [h tr]. unfold compute_forward_values. cbn [node].
  rewrite (bind_Returned _ _ _ _ _ (get_heap_run _ _)).
  apply for_each_run. intros n_ s0. apply compute_forward_node_run.
Qed.

Lemma compute_forward_step_live s n_ m :
  is_Some (st_heap (compute_forward_step s n_) !! m) ↔ is_Some (st_heap s !! m).
Proof.
  unfold compute_forward_step.
  destruct (deref (st_heap s) n_) as [nd|] eqn:Hd; [destruct n_ as [n|]; [| done] | done].
  destruct (decide _); [done |].
  destruct (forward_eval _ _); [done |]. cbn [st_heap]. cbn in Hd.
  rewrite lookup_insert. case_decide; [subst | done].
  split; [by rewrite Hd | eauto].
Qed.

Lemma compute_forward_walk_live s l m :
  is_Some (st_heap (foldl compute_forward_step s l) !! m) ↔ is_Some (st_heap s !! m).
Proof.
  revert s. induction l as [|x l IH]; intros s; [done |].
  cbn [foldl]. by rewrite IH, compute_forward_step_live.
Qed.

(** A node that has a value is never written. *)
Lemma compute_forward_step_keeps s n_ m nd :
  st_heap s !! m = Some nd → size_ (value nd) ≠ 0 →
  st_heap (compute_forward_step s n_) !! m = Some nd.
Proof.
  intros Hm Hv. unfold compute_forward_step.
  destruct (deref (st_heap s) n_) as [x|] eqn:Hd; [destruct n_ as [n|]; [| done] | done].
  destruct (decide _) as [| Hx]; [done |].
  destruct (forward_eval _ _); [done |]. cbn [st_heap]. cbn in Hd.
  rewrite lookup_insert_ne; [done |]. intros ->. rewrite Hm in Hd. by injection Hd as ->.
Qed.

Lemma compute_forward_walk_keeps s l m nd :
  st_heap s !! m = Some nd → size_ (value nd) ≠ 0 →
  st_heap (foldl compute_forward_step s l) !! m = Some nd.
Proof.
  revert s. induction l as [|x l IH]; intros s Hm Hv; [done |].
  cbn [foldl]. apply IH; [| done]. by apply compute_forward_step_keeps.
Qed.
End forward.

Section forward_spec.
Context `{OpLibrary}.

Lemma forward_walk_S s r k n_ :
  topo_from (st_heap s) r !! k = Some n_ →
  forward_walk s r (S k) = compute_forward_step (forward_walk s r k) n_.
Proof.
  intros Hk. unfold forward_walk. rewrite (take_S_r _ _ _ Hk). by rewrite foldl_app.
Qed.

(** Claim C9.  [compute_forward_values(root)] walks the order [topo_from]
    gives: every node reachable from the root, each once, inputs first when
    the graph is acyclic.  It always returns normally.  At a node whose value
    is empty when its turn comes the forward evaluator is called; its result
    is stored in the node, and when it raises instead, the failure is logged,
    the heap is left as it is and the walk goes on.  At a node that has a
    value nothing happens, and a node that has a value at the start has it,
    unchanged, at the end. *)
Theorem compute_forward_values_spec (r : ptr) (s : State) :
  let order := topo_from (st_heap s) r in
  let final := forward_walk s r (length order) in
  compute_forward_values (mkValue (Some r)) s = (Returned tt, final)
  ∧ (∀ m, reachable (st_heap s) r m → Some m ∈ order)
  ∧ NoDup order
  ∧ (acyclic (st_heap s) (dom (st_heap s)) →
       inputs_first (st_heap s) (dom (st_heap s)) (topo_nodes (st_heap s) r))
  ∧ (∀ k n, order !! k = Some (Some n) →
       let s1 := forward_walk s r k in
       let s2 := forward_walk s r (S k) in
       ∃ nd, st_heap s1 !! n = Some nd ∧
         (size_ (value nd) ≠ 0 → s2 = s1) ∧
         (size_ (value nd) = 0 →
            CallForwardEval n ∈ new_events s1 s2 ∧
            (∀ t, forward_eval (op nd) (parent_values (st_heap s1) nd) = inr t →
               st_heap s2 = <[n := set_value t nd]> (st_heap s1)) ∧
            (∀ what, forward_eval (op nd) (parent_values (st_heap s1) nd) = inl what →
               st_heap s2 = st_heap s1 ∧
               LogComputeForwardFailed (ident_of (st_heap s1) n) (ExternalError what)
                 ∈ new_events s1 s2)))
  ∧ (∀ n nd, st_heap s !! n = Some nd → size_ (value nd) ≠ 0 →
       st_heap final !! n = Some nd).
Proof.
  intros order final.
  assert (Hfinal : final = foldl compute_forward_step s order).
  { unfold final, forward_walk. fold order. by rewrite firstn_all. }
  split; [by rewrite Hfinal, compute_forward_values_run |].
  split; [| split; [| split; [| split]]].
  - intros m Hm. unfold order. rewrite topo_from_nodes.
    apply list_elem_of_fmap. exists m. split; [done |]. by apply topo_nodes_reachable.
  - unfold order. rewrite topo_from_nodes.
    apply (NoDup_fmap_2 Some). apply topo_nodes_NoDup.
  - apply topo_nodes_inputs_first.
  - intros k n Hk s1 s2.
    assert (Hlive : is_Some (st_heap s1 !! n)).
    { apply compute_forward_walk_live. apply (topo_nodes_live _ r).
      apply list_elem_of_lookup_2 in Hk. unfold order in Hk. rewrite topo_from_nodes in Hk.
      apply list_elem_of_fmap in Hk as (m & [= ->] & Hm). done. }
    destruct Hlive as [nd Hnd]. exists nd. split; [done |].
    assert (Hs2 : s2 = compute_forward_step s1 (Some n)) by by apply forward_walk_S.
    unfold compute_forward_step in Hs2. cbn [deref mbind option_bind] in Hs2.
    rewrite Hnd in Hs2. split.
    + intros Hv. by rewrite decide_True in Hs2.
    + intros Hv. rewrite decide_False in Hs2 by (intros ?; done).
      destruct (forward_eval (op nd) (parent_values (st_heap s1) nd)) as [what | t];
        rewrite Hs2; (split; [| split]); try done.
      * erewrite new_events_app; [| done]. by left.
      * intros what' [= <-]. split; [done |].
        erewrite new_events_app; [| done]. right. by left.
      * erewrite new_events_app; [| done]. by left.
      * by intros t' [= <-].
  - intros n nd Hn Hv. rewrite Hfinal. by apply compute_forward_walk_keeps.
Qed.
End forward_spec.

(** ** [jvp] *)


Section jvp.
Context `{OpLibrary}.

Lemma jvp_node_run seed T n h tr nd :
  h !! n = Some nd →
  jvp_node seed T (Some n) (mkState h tr)
  = match jvp_lookup (op nd) with
    | None =>
      (Returned (<[n := initial_tangent seed h n]> T), mkState h (tr ++ [CallOnJvpStep n]))
    | Some fn =>
      match fn h n (tangent_of T) with
      | inr t' =>
        (Returned (<[n := t']> T), mkState h (tr ++ [CallOnJvpStep n; CallJvp n]))
      | inl what =>
        (Thrown (ExternalError what), mkState h (tr ++ [CallOnJvpStep n; CallJvp n]))
      end
    end.
Proof.
  intros Hn. unfold jvp_node.
  rewrite (bind_Returned _ _ _ _ _ (get_heap_run _ _)).
  cbn [deref mbind option_bind]. rewrite Hn. unfold on_jvp_step.
  rewrite (bind_Returned _ _ _ _ _ (emit_run _ _ _)).
  destruct (jvp_lookup (op nd)) as [fn|]; [| done].
  unfold bind at 1. rewrite (bind_Returned _ _ _ _ _ (emit_run _ _ _)).
  rewrite <- app_assoc. by destruct (fn h n (tangent_of T)).
Qed.

End jvp.

(** ** Concrete runs *)

(** Claim C1, at a captured graph of two nodes.  The tracer captured [x]
    and then [y = relu(x)]; [topo_sort] returns [y] before its input [x]:
    the post-order of [dfs_visit] already lists inputs first, and the final
    [std::reverse] turns it around. *)
Theorem topo_sort_child_first :
  captured_nodes pair_tracer = [0; 1]
  ∧ inputs_of pair_heap 1 = [0]
  ∧ topo_sort pair_heap pair_tracer = [1; 0]
  ∧ ¬ parents_before_children pair_heap (list_to_set (captured_nodes pair_tracer))
        (topo_sort pair_heap pair_tracer).
Proof.
  assert (Hsort : topo_sort pair_heap pair_tracer = [1; 0]) by (vm_compute; reflexivity).
  split; [by vm_compute |]. split; [by vm_compute |]. split; [done |].
  rewrite Hsort. intros Hpc.
  destruct (Hpc 0 1 0) as (j & Hj & _); [done | | | lia].
  - replace (inputs_of pair_heap 1) with [0] by (vm_compute; reflexivity). by left.
  - replace (captured_nodes pair_tracer) with [0; 1] by (vm_compute; reflexivity).
    set_solver.
Qed.

(** Claim C2, at the chain x -> a -> b -> loss.  [b] is marked while [a] has
    its value, so slot 0 of [b] holds a copy of it; the eviction from [loss]
    then empties [a], which is no checkpoint.  [recompute_subgraph(b)]
    returns [false] with every op library and leaves [a] empty: the copy is
    not assigned to [a].  Had it been, the call would return [true]. *)
Theorem recompute_subgraph_ignores_snapshot :
  saved_input_tensors <$> (st_heap evicted_chain !! 2) = Some [t22]
  ∧ value <$> (st_heap evicted_chain !! 1) = Some Tensor_empty
  ∧ is_checkpoint <$> (st_heap evicted_chain !! 1) = Some false
  ∧ (∀ (L : OpLibrary) fuel,
       (recompute_subgraph (S fuel) (Some 2) evicted_chain).1 = Returned false
       ∧ value <$> (heap_after (recompute_subgraph (S fuel) (Some 2)) evicted_chain !! 1)
         = Some Tensor_empty)
  ∧ (@recompute_subgraph relu_library 4 (Some 2)
       (mkState (alter (set_value t22) 1 (st_heap evicted_chain)) [])).1 = Returned true.
Proof.
  split; [by vm_compute |]. split; [by vm_compute |]. split; [by vm_compute |].
  split; [| by vm_compute].
  intros L fuel. split; by vm_compute.
Qed.

(** ** Instances on the example graphs *)

Lemma mark_node_checkpoint_idempotent_witness :
  is_checkpoint <$> (st_heap marked_chain !! 2) = Some true
  ∧ mark_node_checkpoint (Some 2) (mkOpts true) marked_chain = (Returned tt, marked_chain).
Proof.
  split; [by vm_compute |].
  eapply (proj1 mark_node_checkpoint_idempotent); [vm_compute; reflexivity | reflexivity].
Defined.

Lemma backward_seeds_root_witness :
  chain !! 3 = Some (unary_node Relu 2 t22 "loss")
  ∧ grad <$> (st_heap (seed_root 3 None (start chain)).2 !! 3) = Some (Tensor_ones 2 2).
Proof.
  assert (H3 : chain !! 3 = Some (unary_node Relu 2 t22 "loss")) by (vm_compute; reflexivity).
  split; [exact H3 |].
  destruct (@backward_seeds_root relu_library 4 3 None chain [] _ H3) as (Hseed & _).
  unfold start. rewrite Hseed. vm_compute. reflexivity.
Defined.

Lemma backward_parent_value_missing_witness :
  (@backward relu_library 4 (mkValue (Some 3)) None evicted_chain).1
  = Thrown (ParentValueEmptyNotCheckpointed (mkIdent 1 (Some "a")) (mkIdent 2 (Some "b"))).
Proof.
  set (s := ((seed_root 3 None ;;
              for_each (take 1 (rev (topo_from (st_heap evicted_chain) 3)))
                (@backward_node relu_library 4)) evicted_chain).2).
  set (nd := default (leaf_node Tensor_empty false "") (st_heap s !! 2)).
  set (s1 := (@backward_checks relu_library 4 2 nd 0 s).2).
  set (pn := default (leaf_node Tensor_empty false "") (st_heap s1 !! 1)).
  assert (H1 : @backward_reaches relu_library 4 3 None evicted_chain 1 s)
    by (vm_compute; reflexivity).
  assert (H2 : rev (topo_from (st_heap evicted_chain) 3) !! 1 = Some (Some 2))
    by (vm_compute; reflexivity).
  assert (H3 : st_heap s !! 2 = Some nd) by (vm_compute; reflexivity).
  assert (H4 : requires_grad nd = true) by (vm_compute; reflexivity).
  assert (H5 : @backward_checks relu_library 4 2 nd 0 s = (Returned tt, s1))
    by (vm_compute; reflexivity).
  assert (H6 : inputs nd !! 0 = Some (Some 1)) by (vm_compute; reflexivity).
  assert (H7 : st_heap s1 !! 1 = Some pn) by (vm_compute; reflexivity).
  assert (H8 : numel (value pn) = 0) by (vm_compute; reflexivity).
  assert (H9 : is_checkpoint pn = false) by (vm_compute; reflexivity).
  destruct (@backward_parent_value_missing relu_library 4 3 None evicted_chain
              1 2 nd s 0 1 pn s1 H1 H2 H3 H4 H5 H6 H7 H8) as [_ Hplain].
  destruct (Hplain H9) as [Hthrown _]. rewrite Hthrown. vm_compute. reflexivity.
Defined.

Lemma backward_vjp_missing_witness :
  LogBackwardNoVjp Leaf (Some "x")
    ∈ st_trace (@backward relu_library 4 (mkValue (Some 3)) None (start chain)).2
  ∧ (@backward relu_library 4 (mkValue (Some 3)) None (start chain)).1 = Returned tt.
Proof.
  set (s := ((seed_root 3 None ;;
              for_each (take 3 (rev (topo_from chain 3)))
                (@backward_node relu_library 4)) (start chain)).2).
  set (nd := default (leaf_node Tensor_empty false "") (st_heap s !! 0)).
  set (s1 := (@backward_checks relu_library 4 0 nd 0 s).2).
  assert (H1 : @backward_reaches relu_library 4 3 None (start chain) 3 s)
    by (vm_compute; reflexivity).
  assert (H2 : rev (topo_from (st_heap (start chain)) 3) !! 3 = Some (Some 0))
    by (vm_compute; reflexivity).
  assert (H3 : st_heap s !! 0 = Some nd) by (vm_compute; reflexivity).
  assert (H4 : requires_grad nd = true) by (vm_compute; reflexivity).
  assert (H5 : @backward_checks relu_library 4 0 nd (length (inputs nd)) s = (Returned tt, s1))
    by (vm_compute; reflexivity).
  assert (H6 : @vjp_lookup relu_library (op nd) = None) by (vm_compute; reflexivity).
  destruct (@backward_vjp_missing relu_library 4 3 None (start chain) 3 0 nd s s1
              H1 H2 H3 H4 H5 H6) as (_ & _ & _ & Hback).
  rewrite Hback. split; [| vm_compute; reflexivity].
  vm_compute. apply list_elem_of_In. repeat (first [left; reflexivity | right]).
Defined.

Lemma recompute_ignores_snapshots_witness :
  placeholders_null (st_heap evicted_chain)
  ∧ @recompute_subgraph relu_library 4 (Some 2) evicted_chain
    = @recompute_subgraph_live relu_library 4 (Some 2) evicted_chain.
Proof.
  assert (Hnull : placeholders_null (st_heap evicted_chain)).
  { apply (bool_decide_unpack _). vm_compute. exact I. }
  split; [exact Hnull |].
  destruct (@recompute_ignores_snapshots relu_library) as (_ & _ & _ & Hlive & _).
  by apply Hlive.
Defined.

Lemma evict_non_checkpoint_values_spec_witness :
  is_Some (st_heap marked_chain !! 3)
  ∧ 3 ∈ protected_of (st_heap marked_chain) 3
  ∧ value <$> (st_heap evicted_chain !! 3) = value <$> (st_heap marked_chain !! 3).
Proof.
  assert (Hlive : is_Some (st_heap marked_chain !! 3)) by (vm_compute; eauto).
  split; [exact Hlive |].
  destruct (evict_non_checkpoint_values_spec 3 (st_heap marked_chain) (st_trace marked_chain))
    as (_ & _ & _ & Hroot & _).
  exact (Hroot Hlive).
Defined.

Lemma compute_forward_values_spec_witness :
  topo_from chain_without_a 3 !! 1 = Some (Some 1)
  ∧ value <$> (st_heap (@forward_walk relu_library (start chain_without_a) 3 1) !! 1)
    = Some Tensor_empty
  ∧ value <$> (st_heap (@forward_walk relu_library (start chain_without_a) 3 2) !! 1)
    = Some t22.
Proof.
  assert (Hk : topo_from (st_heap (start chain_without_a)) 3 !! 1 = Some (Some 1))
    by (vm_compute; reflexivity).
  split; [exact Hk |]. split; [vm_compute; reflexivity |].
  destruct (@compute_forward_values_spec relu_library 3 (start chain_without_a))
    as (_ & _ & _ & _ & Hnode & _).
  destruct (Hnode 1 1 Hk) as (nd & Hnd & _ & Hempty).
  assert (Hlook : st_heap (@forward_walk relu_library (start chain_without_a) 3 1) !! 1
                  = Some (evict_node (unary_node Relu 0 t22 "a")))
    by (vm_compute; reflexivity).
  rewrite Hlook in Hnd. injection Hnd as <-.
  destruct (Hempty eq_refl) as (_ & Hok & _).
  rewrite (Hok t22) by (vm_compute; reflexivity).
  rewrite lookup_insert_eq. reflexivity.
Defined.

(** ** [topo_sort] on every acyclic capture *)

Lemma dfs_visit_temp fuel h C a st :
  temp (dfs_visit fuel h C (Some a) st) ⊆ {[a]} ∪ C ∪ temp st.
Proof.
  revert a st. induction fuel as [|fuel IH]; intros a st; rewrite dfs_visit_unfold;
    repeat case_decide; try set_solver.
  destruct (h !! a) as [nd|]; [| set_solver]. cbn zeta. cbn [temp].
  assert (Hloop : ∀ l s, temp (dfs_inputs fuel h C s l) ⊆ C ∪ temp s).
  { induction l as [|x l IHl]; intros s; [set_solver |].
    rewrite dfs_inputs_cons. etrans; [apply IHl |].
    destruct x as [i|]; [| set_solver]. case_decide; [| set_solver].
    pose proof (IH i s). set_solver. }
  etrans; [apply Hloop |]. cbn [temp]. set_solver.
Qed.

Lemma dfs_visit_done fuel h C a st :
  a ∈ perm st → dfs_visit fuel h C (Some a) st = st.
Proof. intros Ha. rewrite dfs_visit_unfold. by rewrite decide_True. Qed.

Lemma on_stack_empty_perm st : perm st ⊆ temp st → on_stack st = ∅ → temp st = perm st.
Proof.
  unfold on_stack. intros Hsub Hempty. apply set_eq. intros n. split; [| apply Hsub].
  intros Ht. destruct (decide (n ∈ perm st)) as [| Hn]; [done |].
  assert (n ∈ temp st ∖ perm st) as Hin by (apply elem_of_difference; done).
  rewrite Hempty in Hin. by apply elem_of_empty in Hin.
Qed.

Lemma size_unvisited_le (h : heap) (V : gset ptr) : size (dom h ∖ V) ≤ size h.
Proof. rewrite <- (size_dom h). apply subseteq_size. set_solver. Qed.

(** Visits started from outside any visit: the stack is empty before and after. *)
Lemma dfs_from_spec h C l st :
  dfs_inv h C st → on_stack st = ∅ →
  let st' := dfs_from h C st l in
  dfs_inv h C st' ∧ on_stack st' = ∅ ∧ perm st ⊆ perm st'
  ∧ temp st' ⊆ list_to_set l ∪ C ∪ temp st
  ∧ ∀ a, a ∈ l → is_Some (h !! a) → a ∈ perm st'.
Proof.
  revert st. induction l as [|a l IH]; intros st Hinv Hstack; cbn zeta.
  { split; [done |]. split; [done |]. split; [done |]. split.
    - apply union_subseteq_r.
    - intros a Ha. by apply elem_of_nil in Ha. }
  unfold dfs_from. cbn [foldl]. fold (dfs_from h C (dfs_visit (size h) h C (Some a) st) l).
  destruct (dfs_visit_spec h C (size h) a st Hinv) as [[Hinv1 Ht1 Hp1 Hs1] Hin1].
  { apply size_unvisited_le. }
  { intros _ g Hg. rewrite Hstack in Hg. by apply elem_of_empty in Hg. }
  rewrite Hstack in Hs1.
  destruct (IH _ Hinv1 Hs1) as (Hinv' & Hs' & Hp' & Ht' & Hin').
  split; [done |]. split; [done |]. split; [by etrans |]. split.
  - pose proof (dfs_visit_temp (size h) h C a st) as Hsub.
    etrans; [exact Ht' |]. rewrite list_to_set_cons.
    clear -Hsub. set_solver.
  - intros b Hb Hlive. apply elem_of_cons in Hb as [-> | Hb]; [| by apply Hin'].
    apply Hp'. rewrite <- (on_stack_empty_perm _ (dfs_perm_temp _ _ _ Hinv1) Hs1).
    by apply Hin1.
Qed.

Lemma inputs_first_reverse h C l :
  inputs_first h C l → inputs_last h C (reverse l).
Proof.
  intros Hfirst i n p Hi He.
  assert (Hlt : i < length l) by (apply lookup_lt_Some in Hi; by rewrite length_reverse in Hi).
  rewrite reverse_lookup in Hi by done.
  destruct (Hfirst _ _ _ Hi He) as (j & Hj & Hjp).
  exists (length l - S j). split; [lia |].
  rewrite reverse_lookup by lia. by replace (length l - S (length l - S j)) with j by lia.
Qed.

Lemma filter_all {A} (P : A → Prop) `{!∀ x, Decision (P x)} (l : list A) :
  Forall P l → filter P l = l.
Proof.
  induction 1 as [|x l Hx _ IH]; [done |]. by rewrite filter_cons_True, IH.
Qed.

Lemma outputs_captured h t a : a ∈ outputs h t → a ∈ order_ t.
Proof.
  unfold outputs. case_decide.
  - by intros [_ ?]%list_elem_of_filter.
  - match goal with |- context [filter ?P ?l] => destruct (filter P l) as [|x xs] eqn:Hf end.
    + destruct (last (order_ t)) as [back|] eqn:Hlast; [| by intros ?%elem_of_nil].
      intros ->%list_elem_of_singleton. apply last_Some in Hlast as [l' ->]. set_solver.
    + intros Ha. rewrite <- Hf in Ha. by apply list_elem_of_filter in Ha as [_ ?].
Qed.

Lemma dfs_from_unless_done h C l st :
  foldl (λ st sp, if decide (sp ∈ perm st) then st
                  else dfs_visit (size h) h C (Some sp) st) st l
  = dfs_from h C st l.
Proof.
  revert st. induction l as [|a l IH]; intros st; [done |].
  unfold dfs_from. cbn [foldl]. rewrite IH. unfold dfs_from. f_equal.
  case_decide; [| done]. by rewrite dfs_visit_done.
Qed.

Lemma topo_sort_unfold h t :
  order_ t ≠ [] →
  let C : gset ptr := list_to_set (order_ t) in
  topo_sort h t
  = filter (λ r, r ∈ C)
      (reverse (out (dfs_from h C (dfs_from h C dfs_init (outputs h t)) (order_ t)))).
Proof.
  intros Hne C. unfold topo_sort. destruct (order_ t) as [|x xs] eqn:Ho; [done |].
  cbn zeta. by rewrite dfs_from_unless_done.
Qed.

Lemma input_edge_inputs_of h C n p :
  is_Some (h !! n) → p ∈ inputs_of h n → p ∈ C → is_Some (h !! p) → input_edge h C n p.
Proof.
  intros [nd Hn] Hp HC Hlive. exists nd. split; [done |]. split; [| done].
  unfold inputs_of in Hp. rewrite Hn in Hp. cbn in Hp.
  apply list_elem_of_omap in Hp as ([q|] & Hq & [= ->]). done.
Qed.

(** What [topo_sort] returns on an acyclic capture of live nodes: the
    captured nodes, each once, every node before its captured inputs, which
    is the reverse of the order its documentation promises; whenever a
    captured node has a captured input, the promised order fails. *)
Theorem topo_sort_children_first (h : heap) (t : Tracer) :
  let C : gset ptr := list_to_set (captured_nodes t) in
  (∀ a, a ∈ captured_nodes t → is_Some (h !! a)) →
  acyclic h C →
  inputs_last h C (topo_sort h t)
  ∧ NoDup (topo_sort h t)
  ∧ (∀ n, n ∈ topo_sort h t ↔ n ∈ captured_nodes t)
  ∧ (∀ n p, n ∈ captured_nodes t → p ∈ inputs_of h n → p ∈ C →
       ¬ parents_before_children h C (topo_sort h t)).
Proof.
  intros C Hlive Hacyc. unfold captured_nodes in *.
  assert (Hmain : inputs_last h C (topo_sort h t) ∧ NoDup (topo_sort h t)
                  ∧ ∀ n, n ∈ topo_sort h t ↔ n ∈ order_ t).
  { destruct (decide (order_ t = [])) as [Hnil | Hne].
    { unfold topo_sort. rewrite Hnil. split; [| split].
      - intros i n p Hi. by rewrite lookup_nil in Hi.
      - apply NoDup_nil_2.
      - done. }
    rewrite (topo_sort_unfold h t Hne). fold C.
    destruct (dfs_from_spec h C (outputs h t) dfs_init (dfs_inv_init h C))
      as (Hinv1 & Hs1 & _ & Ht1 & _); [done |].
    destruct (dfs_from_spec h C (order_ t) _ Hinv1 Hs1) as (Hinv2 & Hs2 & _ & Ht2 & Hin2).
    set (st2 := dfs_from h C (dfs_from h C dfs_init (outputs h t)) (order_ t)) in *.
    assert (Hsub : ∀ n, n ∈ out st2 → n ∈ C).
    { intros n Hn. apply (dfs_out_perm _ _ _ Hinv2), (dfs_perm_temp _ _ _ Hinv2) in Hn.
      apply Ht2 in Hn. apply elem_of_union in Hn as [Hn | Hn].
      - apply elem_of_union in Hn as [Hn | Hn]; [exact Hn | done].
      - apply Ht1 in Hn. cbn [temp dfs_init] in Hn.
        apply elem_of_union in Hn as [Hn | Hn]; [| by apply elem_of_empty in Hn].
        apply elem_of_union in Hn as [Hn | Hn]; [| done].
        apply elem_of_list_to_set in Hn. apply elem_of_list_to_set.
        by apply (outputs_captured h t). }
    rewrite filter_all.
    2:{ apply Forall_forall. intros n Hn. apply Hsub. by apply elem_of_reverse. }
    split; [| split].
    - apply inputs_first_reverse. by apply dfs_inv_inputs_first.
    - rewrite reverse_Permutation. apply (dfs_nodup _ _ _ Hinv2).
    - intros n. rewrite elem_of_reverse. split.
      + intros Hn. apply Hsub in Hn. by apply elem_of_list_to_set in Hn.
      + intros Hn. apply (dfs_out_perm _ _ _ Hinv2). apply Hin2; [done | by apply Hlive]. }
  destruct Hmain as (Hlast & Hnodup & Hmem).
  split; [done |]. split; [done |]. split; [done |].
  intros n p Hn Hp HpC Hpc.
  assert (He : input_edge h C n p).
  { apply input_edge_inputs_of; [by apply Hlive | done | done |].
    apply Hlive. by apply elem_of_list_to_set in HpC. }
  apply Hmem, list_elem_of_lookup in Hn as [i Hi].
  destruct (Hlast i n p Hi He) as (j & Hj & Hjp).
  destruct (Hpc i n p Hi Hp HpC) as (j' & Hj' & Hjp').
  assert (j = j') by (eapply NoDup_lookup; eauto). lia.
Qed.

(** ** The budget of [recompute_subgraph] *)

Section budget.
Context `{OpLibrary}.

Lemma restore_parents_budget rec rec' i slots s r s' :
  (∀ p s0 r0 s0', rec p s0 = (r0, s0') → r0 ≠ Diverged → rec' p s0 = (r0, s0')) →
  restore_parents rec i slots s = (r, s') → r ≠ Diverged →
  restore_parents rec' i slots s = (r, s').
Proof.
  intros Hrec. revert i s. induction slots as [|[sv parent] slots IH]; intros i [h tr];
    [done |].
  cbn [restore_parents]. rewrite !(bind_Returned _ _ _ _ _ (get_heap_run _ _)).
  destruct (deref h parent) as [pn|]; [destruct parent as [p|] |].
  - rewrite !(bind_Returned _ _ _ _ _ (emit_run _ _ _)).
    assert (Hwhen : ∀ tr0, ∃ tr1,
      when (bool_decide (numel (value pn) = 0)) (emit LogRecomputeEmptyInputWarning)
        (mkState h tr0) = (Returned tt, mkState h tr1)).
    { intros tr0. destruct (bool_decide _); cbn; eauto. }
    destruct (Hwhen (tr ++ [LogRecomputeInput i (ident_of h p) (numel (value pn))
                              (rows (value pn)) (cols (value pn)) (op pn)]))
      as (tr1 & Hw).
    rewrite !(bind_Returned _ _ _ _ _ Hw).
    destruct (node sv) as [src|].
    + unfold bind at 1 2. destruct (update p _ _) as [[[]| |] s1]; eauto.
    + destruct (decide _); [| by apply IH].
      destruct (is_checkpoint pn); [| done].
      unfold bind at 1 3.
      destruct (rec (Some p) (mkState h tr1)) as [[ok| |] s1] eqn:Erec.
      * rewrite (Hrec _ _ _ _ Erec) by done. destruct ok; [by apply IH | done].
      * by rewrite (Hrec _ _ _ _ Erec).
      * intros [= <- <-]. done.
  - rewrite !(bind_Returned _ _ _ _ _ (emit_run _ _ _)). by apply IH.
  - destruct parent; rewrite !(bind_Returned _ _ _ _ _ (emit_run _ _ _)); by apply IH.
Qed.

(** A recomputation that ends within its budget ends the same way within
    any larger one. *)
Lemma recompute_subgraph_budget fuel fuel' node_ s r s' :
  fuel ≤ fuel' →
  recompute_subgraph fuel node_ s = (r, s') → r ≠ Diverged →
  recompute_subgraph fuel' node_ s = (r, s').
Proof.
  revert fuel' node_ s r s'. induction fuel as [|fuel IH]; intros fuel' node_ [h tr] r s' Hle.
  { intros [= <- <-]. done. }
  destruct fuel' as [|fuel']; [lia |].
  cbn [recompute_subgraph]. rewrite !(bind_Returned _ _ _ _ _ (get_heap_run _ _)).
  destruct (deref h node_) as [nd|]; [destruct node_ as [c|] |]; try done.
  destruct (negb (is_checkpoint nd)); [done |].
  destruct (saved_inputs nd) as [|sv0 svs]; [done |].
  assert (Hrng : ∃ tr1,
    when (has_saved_rng nd) (restore_rng_state (saved_rng_blob nd)) (mkState h tr)
    = (Returned tt, mkState h tr1)).
  { destruct (has_saved_rng nd); cbn; eauto. }
  destruct Hrng as (tr1 & Hrng). rewrite !(bind_Returned _ _ _ _ _ Hrng).
  assert (Hrec : ∀ p s0 r0 s0', recompute_subgraph fuel p s0 = (r0, s0') → r0 ≠ Diverged →
                   recompute_subgraph fuel' p s0 = (r0, s0')).
  { intros p s0 r0 s0'. apply IH. lia. }
  unfold bind at 1 6.
  destruct (restore_parents (recompute_subgraph fuel) 0 _ (mkState h tr1))
    as [[ok| |] s1] eqn:Eres.
  - by rewrite (restore_parents_budget _ _ _ _ _ _ _ Hrec Eres).
  - by rewrite (restore_parents_budget _ _ _ _ _ _ _ Hrec Eres).
  - intros [= <- <-]. done.
Qed.
End budget.

Lemma only_values_changed_ranked rank h h' :
  only_values_changed h h' → ranked rank h → ranked rank h'.
Proof.
  intros Hv Hr n nd' p Hn Hp.
  destruct (only_values_changed_lookup _ _ _ _ Hv Hn) as (nd & Hnd & E).
  apply (f_equal inputs) in E. cbn in E. eapply Hr; [exact Hnd |]. by rewrite E.
Qed.

Section termination.
Context `{OpLibrary}.

Lemma restore_parents_terminates rank rec i slots s bound :
  (∀ p s0, ranked rank (st_heap s0) → rank p < bound → (rec (Some p) s0).1 ≠ Diverged) →
  (∀ p, preserves recompute_frame (rec p)) →
  ranked rank (st_heap s) →
  (∀ sv p, (sv, Some p) ∈ slots → rank p < bound) →
  (restore_parents rec i slots s).1 ≠ Diverged.
Proof.
  intros Hrec Hframe. revert i s.
  induction slots as [|[sv parent] slots IH]; intros i [h tr] Hranked Hslots; [done |].
  assert (Hslots' : ∀ sv' p, (sv', Some p) ∈ slots → rank p < bound)
    by (intros sv' q Hq; eapply Hslots; by right).
  cbn [restore_parents]. rewrite !(bind_Returned _ _ _ _ _ (get_heap_run _ _)).
  destruct (deref h parent) as [pn|]; [destruct parent as [p|] |].
  - rewrite !(bind_Returned _ _ _ _ _ (emit_run _ _ _)).
    assert (Hwhen : ∀ tr0, ∃ tr1,
      when (bool_decide (numel (value pn) = 0)) (emit LogRecomputeEmptyInputWarning)
        (mkState h tr0) = (Returned tt, mkState h tr1)).
    { intros tr0. destruct (bool_decide _); cbn; eauto. }
    destruct (Hwhen (tr ++ [LogRecomputeInput i (ident_of h p) (numel (value pn))
                              (rows (value pn)) (cols (value pn)) (op pn)]))
      as (tr1 & Hw).
    rewrite !(bind_Returned _ _ _ _ _ Hw).
    destruct (node sv) as [src|].
    + pose proof (set_value_recompute_frame p (value_of h (Some src)) (mkState h tr1))
        as [Hv _].
      unfold bind at 1. destruct (update p _ _) as [[[]| |] s1] eqn:Eu; try done.
      apply IH; [| done]. eapply only_values_changed_ranked; [exact Hv | done].
    + destruct (decide _); [| by apply IH].
      destruct (is_checkpoint pn); [| done].
      unfold bind at 1.
      pose proof (Hrec p (mkState h tr1) Hranked (Hslots sv p ltac:(by left))) as Hnd.
      pose proof (Hframe (Some p) (mkState h tr1)) as [Hv _].
      destruct (rec (Some p) (mkState h tr1)) as [[[|]| |] s1]; try done.
      apply IH; [| done]. eapply only_values_changed_ranked; [exact Hv | done].
  - rewrite !(bind_Returned _ _ _ _ _ (emit_run _ _ _)). by apply IH.
  - destruct parent; rewrite !(bind_Returned _ _ _ _ _ (emit_run _ _ _)); by apply IH.
Qed.

(** On a DAG the recursion through checkpointed parents is no deeper than
    the rank of the node: a budget above it is never exhausted. *)
Lemma recompute_subgraph_terminates rank fuel c s :
  ranked rank (st_heap s) → rank c < fuel →
  (recompute_subgraph fuel (Some c) s).1 ≠ Diverged.
Proof.
  revert c s. induction fuel as [|fuel IH]; intros c [h tr] Hranked Hlt; [lia |].
  cbn [recompute_subgraph]. rewrite !(bind_Returned _ _ _ _ _ (get_heap_run _ _)).
  cbn [deref mbind option_bind].
  destruct (h !! c) as [nd|] eqn:Hc; [| done].
  destruct (negb (is_checkpoint nd)); [done |].
  destruct (saved_inputs nd) as [|sv0 svs] eqn:Hsv; [done |].
  assert (Hrng : ∃ tr1,
    when (has_saved_rng nd) (restore_rng_state (saved_rng_blob nd)) (mkState h tr)
    = (Returned tt, mkState h tr1)).
  { destruct (has_saved_rng nd); cbn; eauto. }
  destruct Hrng as (tr1 & Hrng). rewrite !(bind_Returned _ _ _ _ _ Hrng).
  unfold bind at 1.
  pose proof (restore_parents_terminates rank (recompute_subgraph fuel) 0
                (zip (sv0 :: svs) (inputs nd)) (mkState h tr1) fuel) as Hloop.
  pose proof (restore_parents_frame (recompute_subgraph fuel) 0
                (zip (sv0 :: svs) (inputs nd)) (recompute_subgraph_frame fuel)
                (mkState h tr1)) as [Hv _].
  destruct (restore_parents _ _ _ _) as [[[|]| |] s1]; try done.
  - unfold try_catch, bind.
    destruct (forward_eval_node c s1) as [[t| |] s2] eqn:Ef; try done.
    destruct s1 as [h1 tr2].
    assert (is_Some (h1 !! c)) as [nd1 Hc1].
    { specialize (Hv c). cbn [st_heap snd] in Hv. rewrite Hc in Hv.
      destruct (h1 !! c); [eauto | done]. }
    rewrite (forward_eval_node_run _ _ _ _ Hc1) in Ef.
    by destruct (forward_eval _ _).
  - exfalso. apply Hloop; [| | done | | done].
    + intros p s0 Hr0 Hp. by apply IH.
    + intros p. apply recompute_subgraph_frame.
    + intros sv p Hin. apply elem_of_zip_r in Hin.
      pose proof (Hranked c nd p Hc Hin). lia.
Qed.
End termination.

Lemma inputs_below_ranked h : inputs_below h → ranked id h.
Proof.
  intros Hbelow n nd p Hn Hp. specialize (Hbelow n nd Hn).
  rewrite Forall_forall in Hbelow. exact (Hbelow _ Hp).
Qed.

(** * Further properties *)

(** ** The storage of the tracer *)

Lemma add_if_new_wf n t : tracer_wf t → tracer_wf (add_if_new n t).
Proof.
  intros [Hnd Hseen]. unfold add_if_new. destruct n as [raw|]; [| done].
  case_decide as Hin; [done |]. split; cbn [order_ seen_raw_].
  - apply NoDup_app. split; [done |]. split; [| apply NoDup_singleton].
    intros x Hx ->%list_elem_of_singleton. apply Hin. rewrite Hseen.
    by apply elem_of_list_to_set.
  - rewrite Hseen. apply set_eq. intros x.
    rewrite elem_of_union, !elem_of_list_to_set, elem_of_app, elem_of_singleton,
      list_elem_of_singleton. tauto.
Qed.

Lemma run_call_wf t c : tracer_wf t → tracer_wf (run_call t c).
Proof.
  intros Hwf. destruct c as [n | n |]; cbn [run_call].
  - unfold on_node_created. destruct n; [by apply add_if_new_wf | done].
  - unfold mark_output. by destruct n.
  - split; [apply NoDup_nil_2 | done].
Qed.

(** After any sequence of calls on a fresh tracer, [captured_nodes] holds no
    node twice, [seen_raw_] is exactly the set of the captured nodes, and a
    node is captured only if it was reported created since the last [clear]. *)
Theorem tracer_storage_invariant (calls : list tracer_call) :
  let t := foldl run_call make_tracer calls in
  NoDup (captured_nodes t)
  ∧ seen_raw_ t = list_to_set (captured_nodes t)
  ∧ ∀ a, a ∈ captured_nodes t → CallOnNodeCreated (Some a) ∈ calls.
Proof.
  cbn zeta. unfold captured_nodes.
  assert (Hgen : ∀ t0, tracer_wf t0 →
            tracer_wf (foldl run_call t0 calls)
            ∧ ∀ a, a ∈ order_ (foldl run_call t0 calls) →
                   a ∈ order_ t0 ∨ CallOnNodeCreated (Some a) ∈ calls).
  { induction calls as [|c calls IH]; intros t0 Hwf; [by split; [| left] |].
    cbn [foldl]. destruct (IH _ (run_call_wf t0 c Hwf)) as [Hwf' Hin]. split; [done |].
    intros a Ha. destruct (Hin a Ha) as [Ha0 | Hc]; [| right; by right].
    destruct c as [n | n |]; cbn [run_call] in Ha0.
    - unfold on_node_created, add_if_new in Ha0. destruct n as [raw|]; [| by left].
      case_decide; [by left |]. cbn [order_] in Ha0.
      apply elem_of_app in Ha0 as [? | ->%list_elem_of_singleton]; [by left |].
      right. by left.
    - left. unfold mark_output in Ha0. by destruct n.
    - by apply elem_of_nil in Ha0. }
  destruct (Hgen make_tracer) as [[Hnd Hseen] Hin]; [split; [apply NoDup_nil_2 | done] |].
  split; [done |]. split; [done |].
  intros a Ha. destruct (Hin a Ha) as [Ha0 | ?]; [by apply elem_of_nil in Ha0 | done].
Qed.

Lemma first_seen_elem x l : x ∈ first_seen l ↔ x ∈ l.
Proof.
  induction l as [|y l IH]; [done |]. cbn [first_seen].
  rewrite !elem_of_cons, list_elem_of_filter, IH.
  destruct (decide (x = y)); naive_solver.
Qed.

Lemma created_order (events : list (option ptr)) t :
  tracer_wf t →
  order_ (foldl (λ t n, on_node_created n t) t events)
  = order_ t ++ filter (λ y, y ∉ order_ t) (first_seen (omap id events)).
Proof.
  revert t. induction events as [|n events IH]; intros t Hwf.
  { cbn. by rewrite app_nil_r. }
  cbn [foldl]. destruct n as [raw|]; cbn [on_node_created].
  2: { change (omap id (None :: events)) with (omap id events). by apply IH. }
  change (omap id (Some raw :: events)) with (raw :: omap id events).
  rewrite IH by by apply add_if_new_wf. cbn [first_seen]. unfold add_if_new.
  destruct Hwf as [Hnd Hseen]. case_decide as Hin.
  - rewrite Hseen, elem_of_list_to_set in Hin.
    rewrite filter_cons_False by (intros Hn; by apply Hn).
    f_equal. rewrite list_filter_filter. apply list_filter_iff. intros y. cbn beta.
    split; [| by intros [? ?]]. intros Hy. split; [done |]. by intros ->.
  - rewrite Hseen, elem_of_list_to_set in Hin. cbn [order_].
    rewrite filter_cons_True by done. rewrite <- app_assoc. cbn [app]. do 2 f_equal.
    rewrite list_filter_filter. apply list_filter_iff. intros y. cbn beta.
    rewrite elem_of_app, list_elem_of_singleton. tauto.
Qed.

(** Fed the creation events one after the other, a fresh tracer has captured
    the distinct non-null nodes in the order in which each was first created. *)
Theorem captured_nodes_first_seen (events : list (option ptr)) :
  captured_nodes (foldl (λ t n, on_node_created n t) make_tracer events)
  = first_seen (omap id events).
Proof.
  unfold captured_nodes. rewrite created_order by (split; [apply NoDup_nil_2 | done]).
  cbn [order_ make_tracer app]. apply filter_all, Forall_forall. intros x _. apply not_elem_of_nil.
Qed.

(** ** [topo_sort] on any capture *)

(** On any capture of live nodes, cyclic or not, [topo_sort] returns a
    rearrangement of the captured nodes, and a node comes before each of
    its captured inputs, except an input from which the node can be reached
    back. *)
Theorem topo_sort_any_capture (h : heap) (t : Tracer) :
  let C : gset ptr := list_to_set (captured_nodes t) in
  NoDup (captured_nodes t) →
  (∀ a, a ∈ captured_nodes t → is_Some (h !! a)) →
  topo_sort h t ≡ₚ captured_nodes t
  ∧ ∀ i n p, topo_sort h t !! i = Some n → input_edge h C n p →
      (∃ j, i < j ∧ topo_sort h t !! j = Some p) ∨ tc (input_edge h C) p n.
Proof.
  intros C Hnd Hlive. unfold captured_nodes in *.
  destruct (decide (order_ t = [])) as [Hnil | Hne].
  { unfold topo_sort. rewrite Hnil. split; [done |].
    intros i n p Hi. by rewrite lookup_nil in Hi. }
  rewrite (topo_sort_unfold h t Hne). fold C.
  destruct (dfs_from_spec h C (outputs h t) dfs_init (dfs_inv_init h C))
    as (Hinv1 & Hs1 & _ & Ht1 & _); [done |].
  destruct (dfs_from_spec h C (order_ t) _ Hinv1 Hs1) as (Hinv2 & Hs2 & _ & Ht2 & Hin2).
  set (st2 := dfs_from h C (dfs_from h C dfs_init (outputs h t)) (order_ t)) in *.
  assert (Hsub : ∀ n, n ∈ out st2 → n ∈ C).
  { intros n Hn. apply (dfs_out_perm _ _ _ Hinv2), (dfs_perm_temp _ _ _ Hinv2) in Hn.
    apply Ht2 in Hn. apply elem_of_union in Hn as [Hn | Hn].
    - apply elem_of_union in Hn as [Hn | Hn]; [exact Hn | done].
    - apply Ht1 in Hn. cbn [temp dfs_init] in Hn.
      apply elem_of_union in Hn as [Hn | Hn]; [| by apply elem_of_empty in Hn].
      apply elem_of_union in Hn as [Hn | Hn]; [| done].
      apply elem_of_list_to_set in Hn. apply elem_of_list_to_set.
      by apply (outputs_captured h t). }
  rewrite filter_all.
  2:{ apply Forall_forall. intros n Hn. apply Hsub. by apply elem_of_reverse. }
  split.
  - apply NoDup_Permutation; [| done |].
    + rewrite reverse_Permutation. apply (dfs_nodup _ _ _ Hinv2).
    + intros n. rewrite elem_of_reverse. split.
      * intros Hn. apply Hsub in Hn. by apply elem_of_list_to_set in Hn.
      * intros Hn. apply (dfs_out_perm _ _ _ Hinv2). apply Hin2; [done | by apply Hlive].
  - intros i n p Hi He.
    assert (Hlt : i < length (out st2)).
    { apply lookup_lt_Some in Hi. by rewrite length_reverse in Hi. }
    rewrite reverse_lookup in Hi by done.
    destruct (dfs_order _ _ _ Hinv2 _ n p Hi He) as [(j & Hj & Hjp) | Hcyc]; [| by right].
    left. exists (length (out st2) - S j). split; [lia |].
    rewrite reverse_lookup by lia.
    by replace (length (out st2) - S (length (out st2) - S j)) with j by lia.
Qed.

Lemma topo_sort_any_capture_witness :
  topo_sort pair_heap pair_tracer ≡ₚ captured_nodes pair_tracer.
Proof.
  assert (H1 : NoDup (captured_nodes pair_tracer)).
  { apply (bool_decide_unpack _). vm_compute. exact I. }
  assert (H2 : ∀ a, a ∈ captured_nodes pair_tracer → is_Some (pair_heap !! a)).
  { intros a Ha. change (captured_nodes pair_tracer) with [0; 1] in Ha.
    apply elem_of_cons in Ha as [-> | Ha]; [by eexists |].
    apply list_elem_of_singleton in Ha as ->. by eexists. }
  exact (proj1 (topo_sort_any_capture pair_heap pair_tracer H1 H2)).
Defined.

(** ** The outputs of a capture *)

Lemma has_consumer_spec h (l : list ptr) (acc : gset ptr) a :
  a ∈ foldl (λ acc sp, foldl (λ acc' i, {[i]} ∪ acc') acc (inputs_of h sp)) acc l
  ↔ a ∈ acc ∨ ∃ c, c ∈ l ∧ a ∈ inputs_of h c.
Proof.
  assert (Hin : ∀ (ins : list ptr) (acc : gset ptr),
             a ∈ foldl (λ acc' i, {[i]} ∪ acc') acc ins ↔ a ∈ acc ∨ a ∈ ins).
  { clear. induction ins as [|i ins IH]; intros acc; cbn [foldl].
    - rewrite elem_of_nil. tauto.
    - rewrite IH, elem_of_union, elem_of_singleton, elem_of_cons. tauto. }
  revert acc. induction l as [|c l IH]; intros acc; cbn [foldl].
  - split; [by left | intros [? | (c & Hc & _)]; [done | by apply elem_of_nil in Hc]].
  - rewrite IH, Hin. split.
    + intros [[? | ?] | (c' & Hc' & ?)]; [by left | right; exists c; split; [left | done] |].
      right. exists c'. split; [by right | done].
    + intros [? | (c' & Hc' & ?)]; [by left; left |].
      apply elem_of_cons in Hc' as [-> | Hc']; [by left; right |].
      right. by exists c'.
Qed.

(** What [outputs] returns.  With marked outputs: the captured nodes that
    are marked, in capture order, possibly none.  Without: the captured
    nodes that no captured node has as an input, in capture order, or, when
    every captured node has such a consumer, the last captured node alone.
    So without marks the result is empty only for an empty capture. *)
Theorem outputs_spec (h : heap) (t : Tracer) :
  (outputs_raw_ t ≠ ∅ →
     outputs h t = filter (λ a, a ∈ outputs_raw_ t) (captured_nodes t))
  ∧ (outputs_raw_ t = ∅ →
     (∀ a, a ∈ captured_nodes t → has_captured_consumer h t a) →
     outputs h t = option_list (last (captured_nodes t)))
  ∧ (outputs_raw_ t = ∅ →
     ¬ (∀ a, a ∈ captured_nodes t → has_captured_consumer h t a) →
     sublist (outputs h t) (captured_nodes t)
     ∧ ∀ a, a ∈ outputs h t ↔ a ∈ captured_nodes t ∧ ¬ has_captured_consumer h t a)
  ∧ (outputs_raw_ t = ∅ → captured_nodes t ≠ [] → outputs h t ≠ []).
Proof.
  unfold captured_nodes.
  assert (Hf : ∀ a, a ∈ filter (λ sp, sp ∉ foldl (λ acc sp, foldl (λ acc' i, {[i]} ∪ acc')
                        acc (inputs_of h sp)) (∅ : gset ptr) (order_ t)) (order_ t)
                ↔ a ∈ order_ t ∧ ¬ has_captured_consumer h t a).
  { intros a. rewrite list_elem_of_filter, has_consumer_spec. unfold has_captured_consumer.
    rewrite elem_of_empty. tauto. }
  split; [| split; [| split]].
  - intros Hm. unfold outputs. by rewrite decide_True.
  - intros Hm Hall. unfold outputs. rewrite decide_False by (intros Hn; by apply Hn).
    cbn zeta.
    match goal with |- context [filter ?P ?l] => destruct (filter P l) as [|x xs] eqn:Hfl end.
    + by destruct (last (order_ t)).
    + exfalso. assert (Hx : x ∈ x :: xs) by left.
      apply Hf in Hx as [Hx Hno]. by apply Hno, Hall.
  - intros Hm Hsome. unfold outputs. rewrite decide_False by (intros Hn; by apply Hn).
    cbn zeta.
    match goal with |- context [filter ?P ?l] => destruct (filter P l) as [|x xs] eqn:Hfl end.
    + exfalso. apply Hsome. intros a Ha.
      destruct (decide (a ∈ foldl (λ acc sp, foldl (λ acc' i, {[i]} ∪ acc')
                        acc (inputs_of h sp)) (∅ : gset ptr) (order_ t))) as [Hc | Hc].
      * apply has_consumer_spec in Hc as [Hc | Hc]; [by apply elem_of_empty in Hc | done].
      * assert (Ha' : a ∈ ([] : list ptr)); [| by apply elem_of_nil in Ha'].
        apply Hf. split; [done |]. intros Hcons. apply Hc, has_consumer_spec. by right.
    + split; [rewrite <- Hfl; apply sublist_filter | exact Hf].
  - intros Hm Hne. unfold outputs. rewrite decide_False by (intros Hn; by apply Hn).
    cbn zeta.
    match goal with |- context [filter ?P ?l] => destruct (filter P l) as [|x xs] eqn:Hfl end;
      [| done].
    destruct (last (order_ t)) as [back|] eqn:Hlast; [done |].
    by apply last_None in Hlast.
Qed.

Lemma outputs_spec_witness : outputs pair_heap pair_tracer ≠ [].
Proof.
  assert (H1 : outputs_raw_ pair_tracer = ∅) by reflexivity.
  assert (H2 : captured_nodes pair_tracer ≠ []) by (vm_compute; discriminate).
  exact (proj2 (proj2 (proj2 (outputs_spec pair_heap pair_tracer))) H1 H2).
Defined.

(** ** What eviction reports and what it leaves alone *)

(** What the sweep maintains beside [sweep_inv]: everything seen or queued
    is reachable from the root, and the two counters account for the seen
    nodes outside the protected set, each once, with the bytes their values
    held at the start. *)
Record sweep_acct (h0 : heap) (P : gset ptr) (r : ptr)
    (q : list (option ptr)) (s : sweep_state) : Prop := {
  acct_heap : evicted_in (seen s) P h0 (sw_heap s);
  acct_sound : ∀ a, a ∈ seen s → reachable h0 r a;
  acct_queue : ∀ p, Some p ∈ q → is_Some (h0 !! p) → reachable h0 r p;
  acct_cleared : ∃ l, NoDup l ∧ (∀ a, a ∈ l ↔ a ∈ seen s ∧ a ∉ P)
                   ∧ cleared_count s = length l
                   ∧ cleared_bytes s = sum_list_with (value_bytes h0) l;
}.

Lemma sweep_acct_skip h0 P r n q s :
  sweep_acct h0 P r (n :: q) s → sweep_acct h0 P r q s.
Proof.
  intros [Hh Hs Hq Hl]. split; [done | done | | done].
  intros p Hp. apply Hq. by right.
Qed.

Lemma sweep_loop_acct h0 P r fuel q s :
  sweep_acct h0 P r q s → sweep_acct h0 P r [] (sweep_loop fuel P q s).
Proof.
  revert q s. induction fuel as [|fuel IHfuel];
    (induction q as [|n q IHq]; intros s Hinv;
       [by rewrite sweep_loop_nil | rewrite sweep_loop_cons]).
  - destruct (deref (sw_heap s) n) as [nd|] eqn:Hd; [destruct n as [a|]; [| done] |].
    + destruct (decide (a ∈ seen s)) as [Ha | Ha].
      * apply IHq. by apply sweep_acct_skip in Hinv.
      * destruct Hinv as [Hh Hs _ Hl]. split; [done | done | | done].
        intros p Hp. by apply elem_of_nil in Hp.
    + apply sweep_acct_skip in Hinv. destruct n; by apply IHq.
  - destruct (deref (sw_heap s) n) as [nd|] eqn:Hd; [destruct n as [a|]; [| done] |].
    + cbn in Hd. destruct (decide (a ∈ seen s)) as [Ha | Ha].
      * apply IHq. by apply sweep_acct_skip in Hinv.
      * destruct (evicted_in_live _ _ _ _ _ _ (acct_heap _ _ _ _ _ Hinv) Hd)
          as (nd0 & Hnd0 & Hin & Heq).
        specialize (Heq Ha). subst nd0.
        destruct Hinv as [Hh Hs Hq (l & Hnd & Hl & Hcount & Hbytes)].
        assert (Hra : reachable h0 r a) by (apply Hq; [left | by eexists]).
        apply IHfuel. split.
        -- intros m. destruct (decide (a ∈ P)) as [HP | HP]; cbn [sw_heap seen].
           ++ rewrite Hh. destruct (h0 !! m) as [x|]; [| done]. cbn. f_equal.
              repeat case_decide; try done; set_solver.
           ++ rewrite lookup_alter. case_decide as Hm.
              ** subst m. rewrite Hd, Hnd0. cbn. f_equal.
                 rewrite decide_True; [done | set_solver].
              ** rewrite Hh. destruct (h0 !! m) as [x|]; [| done]. cbn. f_equal.
                 repeat case_decide; try done; set_solver.
        -- intros m Hm.
           assert (m = a ∨ m ∈ seen s) as [-> | Hm']
             by (destruct (decide (a ∈ P)); cbn [seen] in Hm; set_solver); [done |].
           by apply Hs.
        -- intros p Hp Hlive. apply elem_of_push_inputs in Hp as [Hp | Hp].
           ++ apply Hq; [by right | done].
           ++ by apply (reachable_input h0 r a nd p).
        -- destruct (decide (a ∈ P)) as [HP | HP]; cbn [seen cleared_count cleared_bytes].
           ++ exists l. split; [done |]. split; [| done].
              intros m. rewrite Hl. set_solver.
           ++ exists (a :: l). split; [| split; [| split]].
              ** apply NoDup_cons. split; [| done]. rewrite Hl. tauto.
              ** intros m. rewrite elem_of_cons, Hl. set_solver.
              ** cbn [length]. by rewrite Hcount.
              ** cbn [sum_list_with]. unfold value_bytes at 1. rewrite Hnd0, Hbytes.
                 case_decide as Hz; [lia |].
                 assert (numel (value nd) = 0) as -> by (destruct (numel (value nd)); [done | by destruct Hz]).
                 lia.
    + apply sweep_acct_skip in Hinv. destruct n; by apply IHq.
Qed.

Lemma swept_acct h r : sweep_acct h (protected_of h r) r [] (swept h r).
Proof.
  apply sweep_loop_acct. split; cbn [seen sw_heap cleared_count cleared_bytes].
  - intros n. destruct (h !! n) as [x|]; [| done]. cbn [fmap option_fmap option_map].
    by rewrite decide_False by set_solver.
  - intros a Ha. by apply elem_of_empty in Ha.
  - intros p Hp Hlive. apply list_elem_of_singleton in Hp as [= ->]. by constructor.
  - exists []. split; [apply NoDup_nil_2 |]. split; [| done].
    intros a. rewrite elem_of_nil. set_solver.
Qed.

Lemma swept_seen h r n : n ∈ seen (swept h r) ↔ reachable h r n.
Proof. split; [apply (acct_sound _ _ _ _ _ (swept_acct h r)) | apply swept_seen_reachable]. Qed.

Lemma swept_heap h r n :
  sw_heap (swept h r) !! n
  = (λ nd, if decide (n ∈ seen (swept h r) ∧ n ∉ protected_of h r)
           then evict_node nd else nd) <$> (h !! n).
Proof. apply (acct_heap _ _ _ _ _ (swept_acct h r)). Qed.

(** [evict_non_checkpoint_values(root)] writes one line: the number of
    nodes reachable from the root outside the protected set, each counted
    once, whether or not its value was already empty, and the bytes their
    values held before the call. *)
Theorem evict_non_checkpoint_values_report (r : ptr) (h : heap) (tr : list event) :
  ∃ l, NoDup l
    ∧ (∀ a, a ∈ l ↔ reachable h r a ∧ ¬ protected_path h r a)
    ∧ st_trace (evict_non_checkpoint_values (mkValue (Some r)) (mkState h tr)).2
      = tr ++ [LogEvictFreed (length l) (sum_list_with (value_bytes h) l)].
Proof.
  destruct (swept_acct h r) as [_ _ _ (l & Hnd & Hl & Hcount & Hbytes)].
  exists l. split; [done |]. split.
  - intros a. by rewrite Hl, swept_seen, protected_of_spec.
  - rewrite <- Hcount, <- Hbytes. reflexivity.
Qed.

(** [evict_non_checkpoint_values] leaves every node that is not reachable
    from the root as it is, changes no field of any node other than [value]
    and [tape], frees no node, and does nothing at all for a null root. *)
Theorem evict_non_checkpoint_values_frame (r : ptr) (h : heap) (tr : list event) :
  let h' := heap_after (evict_non_checkpoint_values (mkValue (Some r))) (mkState h tr) in
  (∀ n, ¬ reachable h r n → h' !! n = h !! n)
  ∧ (∀ n, evict_node <$> (h' !! n) = evict_node <$> (h !! n))
  ∧ dom h' = dom h
  ∧ evict_non_checkpoint_values (mkValue None) (mkState h tr) = (Returned tt, mkState h tr).
Proof.
  intros h'. assert (Hh' : h' = sw_heap (swept h r)) by done.
  split; [| split; [| split]].
  - intros n Hn. rewrite Hh', swept_heap. destruct (h !! n) as [nd|]; [| done]. cbn.
    rewrite decide_False; [done |]. rewrite swept_seen. tauto.
  - intros n. rewrite Hh', swept_heap. destruct (h !! n) as [nd|]; [| done]. cbn.
    by case_decide.
  - apply set_eq. intros n. rewrite !elem_of_dom, Hh', swept_heap.
    destruct (h !! n); cbn; split; intros [? ?]; try done; by eexists.
  - reflexivity.
Qed.

(** ** Eviction repeated *)

Lemma same_graph_sym h h' : same_graph h h' → same_graph h' h.
Proof. intros Hg n. by rewrite Hg. Qed.

Lemma same_graph_lookup h h' n nd :
  same_graph h h' → h !! n = Some nd →
  ∃ nd', h' !! n = Some nd' ∧ inputs nd' = inputs nd ∧ is_checkpoint nd' = is_checkpoint nd.
Proof.
  intros Hg Hn. specialize (Hg n). rewrite Hn in Hg. destruct (h' !! n) as [nd'|]; [| done].
  cbn in Hg. exists nd'. split; [done |]. by injection Hg as -> ->.
Qed.

Lemma same_graph_live h h' n : same_graph h h' → is_Some (h !! n) → is_Some (h' !! n).
Proof. intros Hg [nd Hn]. destruct (same_graph_lookup _ _ _ _ Hg Hn) as (? & ? & _). by eexists. Qed.

Lemma same_graph_reachable h h' r a : same_graph h h' → reachable h r a → reachable h' r a.
Proof.
  intros Hg. induction 1 as [Hlive | m nd p _ IH Hm Hp Hlive].
  - constructor. by apply (same_graph_live h).
  - destruct (same_graph_lookup _ _ _ _ Hg Hm) as (nd' & Hm' & Hin & _).
    apply (reachable_input h' r m nd' p); [done | done | by rewrite Hin |].
    by apply (same_graph_live h).
Qed.

Lemma same_graph_protected_path h h' r a :
  same_graph h h' → protected_path h r a → protected_path h' r a.
Proof.
  intros Hg. induction 1 as [Hlive | m nd p _ IH Hm Hnc Hp Hlive].
  - constructor. by apply (same_graph_live h).
  - destruct (same_graph_lookup _ _ _ _ Hg Hm) as (nd' & Hm' & Hin & Hck).
    apply (protected_input h' r m nd' p); [done | done | by rewrite Hck | by rewrite Hin |].
    by apply (same_graph_live h).
Qed.

Lemma swept_same_graph h r : same_graph h (sw_heap (swept h r)).
Proof.
  intros n. rewrite swept_heap. destruct (h !! n) as [nd|]; [| done]. cbn.
  by case_decide.
Qed.

Lemma sum_list_with_zero {A} (f : A → nat) l : (∀ a, a ∈ l → f a = 0) → sum_list_with f l = 0.
Proof.
  induction l as [|x l IH]; intros Hz; [done |]. cbn [sum_list_with].
  rewrite (Hz x) by left. rewrite IH; [done |]. intros a Ha. apply Hz. by right.
Qed.

(** A second [evict_non_checkpoint_values(root)] right after the first
    changes nothing in the heap; its line reports the same number of
    activations as the first, and 0 bytes. *)
Theorem evict_non_checkpoint_values_twice (r : ptr) (h : heap) (tr : list event) :
  let s1 := (evict_non_checkpoint_values (mkValue (Some r)) (mkState h tr)).2 in
  ∃ c b, st_trace s1 = tr ++ [LogEvictFreed c b]
    ∧ evict_non_checkpoint_values (mkValue (Some r)) s1
      = (Returned tt, mkState (st_heap s1) (st_trace s1 ++ [LogEvictFreed c 0])).
Proof.
  intros s1. set (h1 := sw_heap (swept h r)).
  assert (Hs1 : s1 = mkState h1
                  (tr ++ [LogEvictFreed (cleared_count (swept h r)) (cleared_bytes (swept h r))]))
    by reflexivity.
  exists (cleared_count (swept h r)), (cleared_bytes (swept h r)).
  split; [by rewrite Hs1 |]. rewrite Hs1. cbn [st_heap st_trace].
  pose proof (swept_same_graph h r) as Hg. fold h1 in Hg.
  assert (Hreach : ∀ a, reachable h1 r a ↔ reachable h r a).
  { intros a. split; apply same_graph_reachable; [by apply same_graph_sym | done]. }
  assert (Hprot : ∀ a, protected_path h1 r a ↔ protected_path h r a).
  { intros a. split; apply same_graph_protected_path; [by apply same_graph_sym | done]. }
  assert (Hheap : sw_heap (swept h1 r) = h1).
  { apply map_eq. intros n. rewrite swept_heap.
    assert (Hh1 : h1 !! n = (λ nd, if decide (n ∈ seen (swept h r) ∧ n ∉ protected_of h r)
                                   then evict_node nd else nd) <$> (h !! n))
      by apply swept_heap.
    rewrite Hh1. destruct (h !! n) as [nd|]; [| done]. cbn. f_equal.
    pose proof (swept_seen h1 r n). pose proof (swept_seen h r n).
    pose proof (protected_of_spec h1 r n). pose proof (protected_of_spec h r n).
    pose proof (Hreach n). pose proof (Hprot n).
    repeat case_decide; try done; exfalso; tauto. }
  destruct (swept_acct h r) as [_ _ _ (l & Hnd & Hl & Hcount & _)].
  destruct (swept_acct h1 r) as [_ _ _ (l1 & Hnd1 & Hl1 & Hcount1 & Hbytes1)].
  assert (Hperm : l1 ≡ₚ l).
  { apply NoDup_Permutation; [done | done |]. intros a.
    by rewrite Hl, Hl1, !swept_seen, !protected_of_spec, Hreach, Hprot. }
  assert (Hc : cleared_count (swept h1 r) = cleared_count (swept h r)).
  { by rewrite Hcount, Hcount1, Hperm. }
  assert (Hb : cleared_bytes (swept h1 r) = 0).
  { rewrite Hbytes1. apply sum_list_with_zero. intros a Ha. apply Hl1 in Ha as [Hseen HP].
    unfold value_bytes.
    assert (Hh1 : h1 !! a = (λ nd, if decide (a ∈ seen (swept h r) ∧ a ∉ protected_of h r)
                                   then evict_node nd else nd) <$> (h !! a))
      by apply swept_heap.
    rewrite Hh1. destruct (h !! a) as [nd|]; [| done]. cbn.
    rewrite decide_True; [done |]. split.
    - apply swept_seen, Hreach. by apply swept_seen.
    - rewrite protected_of_spec, <- Hprot, <- protected_of_spec. exact HP. }
  transitivity (Returned tt,
      mkState (sw_heap (swept h1 r))
        ((tr ++ [LogEvictFreed (cleared_count (swept h r)) (cleared_bytes (swept h r))])
           ++ [LogEvictFreed (cleared_count (swept h1 r)) (cleared_bytes (swept h1 r))]));
    [reflexivity |].
  by rewrite Hheap, Hc, Hb.
Qed.

(** ** The memory estimate *)

Lemma estimate_loop_nil fuel h s : estimate_loop fuel h [] s = s.
Proof. by destruct fuel. Qed.

Lemma estimate_loop_cons fuel h n q' s :
  estimate_loop fuel h (n :: q') s
  = match deref h n, n with
    | Some nd, Some a =>
      if decide (a ∈ s.1) then estimate_loop fuel h q' s
      else
        match fuel with
        | 0 => s
        | S fuel' =>
          estimate_loop fuel' h (push_inputs q' nd)
            ({[a]} ∪ s.1, s.2 + numel (value nd) * sizeof_float)
        end
    | _, _ => estimate_loop fuel h q' s
    end.
Proof. by destruct fuel. Qed.

(** What the loop of [estimate_bytes] maintains: the seen and the queued
    nodes are reachable, the live inputs of a seen node are seen or queued,
    and the total is the sum over the seen nodes, each once. *)
Record estimate_inv (h : heap) (r : ptr) (q : list (option ptr)) (s : gset ptr * nat) : Prop := {
  est_sound : ∀ a, a ∈ s.1 → reachable h r a;
  est_queue : ∀ p, Some p ∈ q → is_Some (h !! p) → reachable h r p;
  est_closed : ∀ m nd p, m ∈ s.1 → h !! m = Some nd → Some p ∈ inputs nd →
                 is_Some (h !! p) → p ∈ s.1 ∨ Some p ∈ q;
  est_root : is_Some (h !! r) → r ∈ s.1 ∨ Some r ∈ q;
  est_total : ∃ l, NoDup l ∧ (∀ a, a ∈ l ↔ a ∈ s.1) ∧ s.2 = sum_list_with (value_bytes h) l;
}.

Lemma estimate_inv_skip h r n q s :
  estimate_inv h r (n :: q) s →
  (∀ a, n = Some a → is_Some (h !! a) → a ∈ s.1) →
  estimate_inv h r q s.
Proof.
  intros [Hs Hq Hc Hr Ht] Hskip. split; [done | | | | done].
  - intros p Hp. apply Hq. by right.
  - intros m nd p Hm Hnd Hp Hlive.
    destruct (Hc m nd p Hm Hnd Hp Hlive) as [? | Hin]; [by left |].
    apply elem_of_cons in Hin as [<- | ?]; [| by right]. left. by apply Hskip.
  - intros Hlive. destruct (Hr Hlive) as [? | Hin]; [by left |].
    apply elem_of_cons in Hin as [<- | ?]; [| by right]. left. by apply Hskip.
Qed.

Lemma estimate_loop_inv h r fuel q s :
  estimate_inv h r q s → size (dom h ∖ s.1) ≤ fuel →
  estimate_inv h r [] (estimate_loop fuel h q s).
Proof.
  revert q s. induction fuel as [|fuel IHfuel];
    (induction q as [|n q IHq]; intros s Hinv Hsz;
       [by rewrite estimate_loop_nil | rewrite estimate_loop_cons]).
  - destruct (deref h n) as [nd|] eqn:Hd; [destruct n as [a|]; [| done] |].
    + cbn in Hd. destruct (decide (a ∈ s.1)) as [Ha | Ha].
      * apply IHq; [| done]. apply (estimate_inv_skip _ _ _ _ _ Hinv). naive_solver.
      * exfalso.
        eapply (size_unvisited_pos (dom h) (s.1) a); [by apply elem_of_dom | done | lia].
    + assert (estimate_inv h r q s)
        by (apply (estimate_inv_skip _ _ _ _ _ Hinv); intros a -> [? ?]; cbn in Hd; congruence).
      destruct n; by apply IHq.
  - destruct (deref h n) as [nd|] eqn:Hd; [destruct n as [a|]; [| done] |].
    + cbn in Hd. destruct (decide (a ∈ s.1)) as [Ha | Ha].
      * apply IHq; [| done]. apply (estimate_inv_skip _ _ _ _ _ Hinv). naive_solver.
      * assert (Hdom : a ∈ dom h) by by apply elem_of_dom.
        destruct Hinv as [Hs Hq Hc Hr (l & Hnd & Hl & Ht)].
        assert (Hra : reachable h r a) by (apply Hq; [left | by eexists]).
        apply IHfuel; [| by apply size_unvisited]. split; cbn [fst snd].
        -- intros m Hm. apply elem_of_union in Hm as [->%elem_of_singleton | Hm]; [done |].
           by apply Hs.
        -- intros p Hp Hlive. apply elem_of_push_inputs in Hp as [Hp | Hp].
           ++ apply Hq; [by right | done].
           ++ by apply (reachable_input h r a nd p).
        -- intros m x p Hm Hx Hp Hlive. rewrite elem_of_push_inputs.
           apply elem_of_union in Hm as [->%elem_of_singleton | Hm].
           ++ right. right. congruence.
           ++ destruct (Hc m x p Hm Hx Hp Hlive) as [? | Hin]; [left; set_solver |].
              apply elem_of_cons in Hin as [[= ->] | ?]; [left; set_solver | by (right; left)].
        -- intros Hlive. rewrite elem_of_push_inputs.
           destruct (Hr Hlive) as [? | Hin]; [left; set_solver |].
           apply elem_of_cons in Hin as [[= ->] | ?]; [left; set_solver | by (right; left)].
        -- exists (a :: l). split; [| split].
           ++ apply NoDup_cons. split; [by rewrite Hl | done].
           ++ intros m. rewrite elem_of_cons, Hl. set_solver.
           ++ cbn [sum_list_with]. unfold value_bytes at 1. rewrite Hd, Ht. lia.
    + assert (estimate_inv h r q s)
        by (apply (estimate_inv_skip _ _ _ _ _ Hinv); intros a -> [? ?]; cbn in Hd; congruence).
      destruct n; by apply IHq.
Qed.

Lemma estimate_bytes_sum h r l :
  NoDup l → (∀ a, a ∈ l ↔ reachable h r a) →
  estimate_bytes h (mkValue (Some r)) = sum_list_with (value_bytes h) l.
Proof.
  intros Hnd Hl.
  assert (Hinv : estimate_inv h r [] (estimate_loop (size h) h [Some r] (∅, 0))).
  { apply estimate_loop_inv; [| apply size_dom_difference_empty].
    split; cbn [fst snd].
    - intros a Ha. by apply elem_of_empty in Ha.
    - intros p Hp Hlive. apply list_elem_of_singleton in Hp as [= ->]. by constructor.
    - intros m nd p Hm. by apply elem_of_empty in Hm.
    - intros _. right. by left.
    - exists []. split; [apply NoDup_nil_2 |]. split; [| done].
      intros a. rewrite elem_of_nil. set_solver. }
  destruct Hinv as [Hs _ Hc Hr (l' & Hnd' & Hl' & Ht)].
  unfold estimate_bytes. cbn [node]. rewrite Ht. apply sum_list_with_Permutation_proper.
  apply NoDup_Permutation; [done | done |]. intros a. rewrite Hl', Hl. split; [apply Hs |].
  induction 1 as [Hlive | m nd p _ IH Hm Hp Hlive].
  - destruct (Hr Hlive) as [? | Hin]; [done | by apply elem_of_nil in Hin].
  - destruct (Hc m nd p IH Hm Hp Hlive) as [? | Hin]; [done | by apply elem_of_nil in Hin].
Qed.

Lemma reachable_list h r :
  ∃ l, NoDup l ∧ ∀ a, a ∈ l ↔ reachable h r a.
Proof.
  exists (elements (seen (swept h r))). split; [apply NoDup_elements |].
  intros a. by rewrite elem_of_elements, swept_seen.
Qed.

(** [estimate_bytes(root)] is the sum, over the nodes reachable from the
    root, each counted once however many paths lead to it, of the bytes of
    the node's value; 0 for a null root. *)
Theorem estimate_bytes_spec (h : heap) (r : ptr) :
  (∃ l, NoDup l ∧ (∀ a, a ∈ l ↔ reachable h r a)
     ∧ estimate_bytes h (mkValue (Some r)) = sum_list_with (value_bytes h) l)
  ∧ (h !! r = None → estimate_bytes h (mkValue (Some r)) = 0)
  ∧ estimate_bytes h (mkValue None) = 0.
Proof.
  destruct (reachable_list h r) as (l & Hnd & Hl).
  split; [exists l; split; [done |]; split; [done |]; by apply estimate_bytes_sum |].
  split; [| done]. intros Hr. rewrite (estimate_bytes_sum h r []); [done | apply NoDup_nil_2 |].
  intros a. rewrite elem_of_nil. split; [done |].
  intros Ha. assert (Hlive : is_Some (h !! r)); [| rewrite Hr in Hlive; by destruct Hlive].
  clear Hl. induction Ha; done.
Qed.

Lemma sum_list_with_split (f g : ptr → nat) (P : gset ptr) l :
  (∀ a, a ∈ l → g a = if decide (a ∈ P) then f a else 0) →
  sum_list_with f l = sum_list_with g l + sum_list_with f (filter (λ a, a ∉ P) l).
Proof.
  induction l as [|x l IH]; intros Hg; [done |]. cbn [sum_list_with].
  rewrite (Hg x) by left. rewrite IH by (intros a Ha; apply Hg; by right).
  destruct (decide (x ∈ P)).
  - rewrite filter_cons_False by (intros Hn; by apply Hn). lia.
  - rewrite filter_cons_True by done. cbn [sum_list_with]. lia.
Qed.

(** The bytes [evict_non_checkpoint_values(root)] reports as freed are
    exactly the drop of [estimate_bytes(root)] across the call. *)
Theorem evict_non_checkpoint_values_frees_estimate (r : ptr) (h : heap) (tr : list event) :
  let s' := (evict_non_checkpoint_values (mkValue (Some r)) (mkState h tr)).2 in
  ∃ c b, st_trace s' = tr ++ [LogEvictFreed c b]
    ∧ estimate_bytes h (mkValue (Some r)) = estimate_bytes (st_heap s') (mkValue (Some r)) + b.
Proof.
  intros s'. set (h1 := sw_heap (swept h r)).
  exists (cleared_count (swept h r)), (cleared_bytes (swept h r)).
  split; [reflexivity |]. change (st_heap s') with h1.
  pose proof (swept_same_graph h r) as Hg. fold h1 in Hg.
  destruct (reachable_list h r) as (l & Hnd & Hl).
  rewrite (estimate_bytes_sum h r l Hnd Hl).
  rewrite (estimate_bytes_sum h1 r l Hnd).
  2:{ intros a. rewrite Hl. split; apply same_graph_reachable; [done | by apply same_graph_sym]. }
  destruct (swept_acct h r) as [_ _ _ (lu & Hndu & Hlu & _ & Hbytes)].
  rewrite Hbytes.
  assert (Hperm : lu ≡ₚ filter (λ a, a ∉ protected_of h r) l).
  { apply NoDup_Permutation; [done | by apply NoDup_filter |]. intros a.
    rewrite Hlu, list_elem_of_filter, Hl, swept_seen. tauto. }
  rewrite Hperm. apply sum_list_with_split. intros a Ha.
  unfold value_bytes.
  assert (Hh1 : h1 !! a = (λ nd, if decide (a ∈ seen (swept h r) ∧ a ∉ protected_of h r)
                                 then evict_node nd else nd) <$> (h !! a))
    by apply swept_heap.
  rewrite Hh1. destruct (h !! a) as [nd|] eqn:Hnda; cbn.
  - assert (a ∈ seen (swept h r)) by (apply swept_seen; by apply Hl).
    destruct (decide (a ∈ protected_of h r)).
    + rewrite decide_False; [done | tauto].
    + rewrite decide_True; [done | tauto].
  - by destruct (decide (a ∈ protected_of h r)).
Qed.

(** ** Marking a node *)

(** Marking a live node that is not yet a checkpoint returns after writing
    two lines; it sets the flag, stores one null placeholder and one
    snapshot per input slot (the input's value if it has one, an empty
    tensor otherwise), records whether an RNG state was saved and, if so,
    stores that state as the blob, and changes nothing else in that node
    nor anything in another node. *)
Theorem mark_node_checkpoint_effect (c : ptr) (opts : CheckpointOptions)
    (h : heap) (tr : list event) (nd : Node) :
  h !! c = Some nd → is_checkpoint nd = false →
  ∃ nd',
    mark_node_checkpoint (Some c) opts (mkState h tr)
    = (Returned tt,
       mkState (<[c := nd']> h)
         (tr ++ [LogMarkCheckpoint (ident_of h c) (length (inputs nd));
                 LogSavedInputsCount (length (inputs nd)) c]))
    ∧ is_checkpoint nd' = true
    ∧ saved_inputs nd' = replicate (length (inputs nd)) (mkValue None)
    ∧ saved_input_tensors nd' = snapshot_of h <$> inputs nd
    ∧ has_saved_rng nd' = save_rng opts
    ∧ saved_rng_blob nd' = (if save_rng opts then save_rng_state else saved_rng_blob nd)
    ∧ (op nd', inputs nd', value nd', grad nd', requires_grad nd', tape nd', debug_name nd')
      = (op nd, inputs nd, value nd, grad nd, requires_grad nd, tape nd, debug_name nd).
Proof.
  intros Hc Hnc. exists (marked h opts nd).
  split; [by apply mark_node_checkpoint_fresh |].
  split; [done |]. split; [| done].
  cbn [marked saved_inputs]. generalize (inputs nd). intros l.
  induction l as [|x l IH]; [done |]. cbn. by rewrite <- IH.
Qed.

Lemma mark_node_checkpoint_effect_witness :
  ∃ nd', st_heap marked_chain !! 2 = Some nd' ∧ is_checkpoint nd' = true
         ∧ saved_input_tensors nd' = [t22].
Proof.
  assert (H1 : chain !! 2 = Some (unary_node Relu 1 t22 "b")) by (vm_compute; reflexivity).
  assert (H2 : is_checkpoint (unary_node Relu 1 t22 "b") = false) by reflexivity.
  destruct (mark_node_checkpoint_effect 2 (mkOpts false) chain [] _ H1 H2)
    as (nd' & Hrun & Hck & _ & Hsnap & _).
  exists nd'. unfold marked_chain, start. rewrite Hrun. cbn [snd st_heap].
  rewrite lookup_insert_eq. split; [done |]. split; [done |]. rewrite Hsnap.
  vm_compute. reflexivity.
Defined.

(** ** Automatic checkpointing *)

Lemma mark_bfs_loop_nil should fuel V k : mark_bfs_loop should fuel [] V k = ret tt.
Proof. by destruct fuel. Qed.

Lemma mark_bfs_loop_cons should fuel cur depth q' V k :
  mark_bfs_loop should fuel ((cur, depth) :: q') V k
  = (h <- get_heap ;;
     match deref h cur, cur with
     | Some nd, Some a =>
       if decide (a ∈ V) then mark_bfs_loop should fuel q' V k
       else
         match fuel with
         | 0 => diverge
         | S fuel' =>
           when (should (k + 1)%Z depth && negb (bool_decide (inputs nd = [])))
             (mark_node_checkpoint cur CheckpointOptions_default) ;;
           mark_bfs_loop should fuel' (push_inputs_at q' nd depth) ({[a]} ∪ V) (k + 1)%Z
         end
     | _, _ => mark_bfs_loop should fuel q' V k
     end).
Proof. by destruct fuel. Qed.

Lemma every_n_loop_nil fuel n V k : every_n_loop fuel n [] V k = ret tt.
Proof. by destruct fuel. Qed.

Lemma every_n_loop_cons fuel n cur q' V k :
  every_n_loop fuel n (cur :: q') V k
  = (h <- get_heap ;;
     match deref h cur, cur with
     | Some nd, Some a =>
       if decide (a ∈ V) then every_n_loop fuel n q' V k
       else
         match fuel with
         | 0 => diverge
         | S fuel' =>
           when (bool_decide (Z.rem (k + 1) n = 0%Z) && negb (bool_decide (inputs nd = [])))
             (mark_node_checkpoint cur CheckpointOptions_default) ;;
           every_n_loop fuel' n (push_inputs q' nd) ({[a]} ∪ V) (k + 1)%Z
         end
     | _, _ => every_n_loop fuel n q' V k
     end).
Proof. by destruct fuel. Qed.

Lemma by_depth_loop_nil fuel th V : by_depth_loop fuel th [] V = ret tt.
Proof. by destruct fuel. Qed.

Lemma by_depth_loop_cons fuel th cur depth q' V :
  by_depth_loop fuel th ((cur, depth) :: q') V
  = (h <- get_heap ;;
     match deref h cur, cur with
     | Some nd, Some a =>
       if decide (a ∈ V) then by_depth_loop fuel th q' V
       else
         match fuel with
         | 0 => diverge
         | S fuel' =>
           when (bool_decide (th ≤ depth)%Z && negb (bool_decide (inputs nd = [])))
             (mark_node_checkpoint cur CheckpointOptions_default) ;;
           by_depth_loop fuel' th (push_inputs_at q' nd depth) ({[a]} ∪ V)
         end
     | _, _ => by_depth_loop fuel th q' V
     end).
Proof. by destruct fuel. Qed.

Lemma push_inputs_at_fst q nd d : (push_inputs_at q nd d).*1 = push_inputs (q.*1) nd.
Proof.
  unfold push_inputs_at, push_inputs. rewrite fmap_app. f_equal.
  rewrite <- list_fmap_compose. apply list_fmap_id.
Qed.

Lemma bind_ext {A B} (c : M A) (k k' : A → M B) s :
  (∀ a s', k a s' = k' a s') → bind c k s = bind c k' s.
Proof. intros Hk. unfold bind. destruct (c s) as [[a| |] s']; [apply Hk | done | done]. Qed.

(** The two loops are instances of the common one. *)
Lemma every_n_loop_bfs fuel n q V k s :
  every_n_loop fuel n (q.*1) V k s
  = mark_bfs_loop (λ k' _, bool_decide (Z.rem k' n = 0%Z)) fuel q V k s.
Proof.
  revert q V k s. induction fuel as [|fuel IHfuel];
    (induction q as [|[cur d] q IHq]; intros V k s;
       [by rewrite every_n_loop_nil, mark_bfs_loop_nil
       | cbn [fmap list_fmap fst]; rewrite every_n_loop_cons, mark_bfs_loop_cons]);
    apply bind_ext; intros h s';
    (destruct (deref h cur); [destruct cur; [| apply IHq] | apply IHq]);
    (case_decide; [apply IHq |]); [done |].
  apply bind_ext. intros _ s''. rewrite <- IHfuel. by rewrite push_inputs_at_fst.
Qed.

Lemma by_depth_loop_bfs fuel th q V k s :
  by_depth_loop fuel th q V s
  = mark_bfs_loop (λ _ d, bool_decide (th ≤ d)%Z) fuel q V k s.
Proof.
  revert q V k s. induction fuel as [|fuel IHfuel];
    (induction q as [|[cur d] q IHq]; intros V k s;
       [by rewrite by_depth_loop_nil, mark_bfs_loop_nil
       | rewrite by_depth_loop_cons, mark_bfs_loop_cons]);
    apply bind_ext; intros h s';
    (destruct (deref h cur); [destruct cur; [| apply IHq] | apply IHq]);
    (case_decide; [apply IHq |]); [done |].
  apply bind_ext. intros _ s''. apply IHfuel.
Qed.

Lemma elem_of_push_inputs_at p d' q nd d :
  (Some p, d') ∈ push_inputs_at q nd d ↔ (Some p, d') ∈ q ∨ (Some p ∈ inputs nd ∧ d' = (d + 1)%Z).
Proof.
  unfold push_inputs_at. rewrite elem_of_app, list_elem_of_fmap. split.
  - intros [? | (x & [= <- ->] & Hx)]; [by left |].
    apply list_elem_of_filter in Hx as [_ Hx]. by right.
  - intros [? | [Hp ->]]; [by left |]. right. exists (Some p). split; [done |].
    apply list_elem_of_filter. split; [by eexists | done].
Qed.

Lemma push_inputs_at_depth p d' q nd d :
  (p, d') ∈ push_inputs_at q nd d → (p, d') ∈ q ∨ d' = (d + 1)%Z.
Proof.
  unfold push_inputs_at. rewrite elem_of_app, list_elem_of_fmap.
  intros [? | (x & [= -> ->] & _)]; [by left | by right].
Qed.

Lemma when_mark_run (b : bool) a h tr nd :
  h !! a = Some nd →
  ∃ tr', when b (mark_node_checkpoint (Some a) CheckpointOptions_default) (mkState h tr)
         = (Returned tt,
            mkState (if b && negb (is_checkpoint nd)
                     then <[a := marked h CheckpointOptions_default nd]> h else h) tr').
Proof.
  intros Ha. destruct b; cbn [when andb]; [| by exists tr].
  destruct (is_checkpoint nd) eqn:Hck; cbn [negb].
  - exists tr. by apply (mark_node_checkpoint_noop _ _ _ nd).
  - eexists. by apply mark_node_checkpoint_fresh.
Qed.

Lemma marked_ext h h' opts nd :
  (∀ p, value <$> deref h p = value <$> deref h' p) → marked h opts nd = marked h' opts nd.
Proof.
  intros Hv. unfold marked. f_equal. apply list_fmap_ext. intros _ p _.
  unfold snapshot_of. specialize (Hv p).
  destruct (deref h p) as [x|], (deref h' p) as [y|]; try done.
  cbn in Hv. injection Hv as ->. done.
Qed.

(** What the common loop maintains, [h0] being the heap it started from: a
    node is as it was or, if visited, unmarked at the start and with inputs,
    it is the marked form of what it was; the visited and the queued nodes
    are reachable from the root; the live inputs of a visited node are
    visited or queued, and so is the root; under a policy that always marks,
    every visited node with inputs is a checkpoint; under a policy that does
    not mark the first node visited, the root is as it was. *)
Record mark_bfs_inv (should : Z → Z → bool) (h0 : heap) (r : ptr)
    (q : list (option ptr * Z)) (V : gset ptr) (k : Z) (s : State) : Prop := {
  mb_dead : ∀ a, h0 !! a = None → st_heap s !! a = None;
  mb_heap : ∀ a nd, h0 !! a = Some nd →
    st_heap s !! a = Some nd
    ∨ (a ∈ V ∧ is_checkpoint nd = false ∧ inputs nd ≠ []
       ∧ st_heap s !! a = Some (marked h0 CheckpointOptions_default nd));
  mb_sound : ∀ a, a ∈ V → reachable h0 r a;
  mb_queue : ∀ p d, (Some p, d) ∈ q → is_Some (h0 !! p) → reachable h0 r p;
  mb_depth : ∀ p d, (p, d) ∈ q → (0 ≤ d)%Z;
  mb_closed : ∀ m nd p, m ∈ V → h0 !! m = Some nd → Some p ∈ inputs nd →
                is_Some (h0 !! p) → p ∈ V ∨ ∃ d, (Some p, d) ∈ q;
  mb_root : is_Some (h0 !! r) → r ∈ V ∨ ∃ d, (Some r, d) ∈ q;
  mb_all : marks_always should → ∀ a nd, a ∈ V → h0 !! a = Some nd → inputs nd ≠ [] →
             is_checkpointed (st_heap s) (Some a) = true;
  mb_first : should 1%Z 0%Z = false →
             (q = [(Some r, 0%Z)] ∧ V = ∅ ∧ k = 0%Z)
             ∨ (st_heap s !! r = h0 !! r ∧ (is_Some (h0 !! r) → r ∈ V));
}.

Lemma mark_bfs_inv_values should h0 r q V k s p :
  mark_bfs_inv should h0 r q V k s →
  value <$> deref (st_heap s) p = value <$> deref h0 p.
Proof.
  intros Hinv. destruct p as [p|]; [| done]. cbn.
  destruct (h0 !! p) as [nd|] eqn:Hp.
  - destruct (mb_heap _ _ _ _ _ _ _ Hinv p nd Hp) as [-> | (_ & _ & _ & ->)]; done.
  - by rewrite (mb_dead _ _ _ _ _ _ _ Hinv p Hp).
Qed.

Lemma mark_bfs_inv_skip should h0 r cur d q V k s :
  mark_bfs_inv should h0 r ((cur, d) :: q) V k s →
  (∀ a, cur = Some a → is_Some (h0 !! a) → a ∈ V) →
  mark_bfs_inv should h0 r q V k s.
Proof.
  intros [Hd Hh Hs Hq Hdp Hc Hr Ha Hf] Hskip. split; [done | done | done | | | | | done |].
  - intros p d' Hp. apply (Hq p d'). by right.
  - intros p d' Hp. apply (Hdp p). by right.
  - intros m nd p Hm Hnd Hp Hlive.
    destruct (Hc m nd p Hm Hnd Hp Hlive) as [? | [d' Hin]]; [by left |].
    apply elem_of_cons in Hin as [[= <- <-] | ?]; [| right; by exists d']. left. by apply Hskip.
  - intros Hlive. destruct (Hr Hlive) as [? | [d' Hin]]; [by left |].
    apply elem_of_cons in Hin as [[= <- <-] | ?]; [| right; by exists d']. left. by apply Hskip.
  - intros Hno. destruct (Hf Hno) as [([= -> -> ->] & -> & ->) | ?]; [| by right].
    right. assert (Hdead : h0 !! r = None).
    { destruct (h0 !! r) eqn:Hr0; [| done]. exfalso.
      assert (r ∈ (∅ : gset ptr)) by (apply Hskip; [done | by eexists]). set_solver. }
    split; [by rewrite Hdead, (Hd r Hdead) |]. rewrite Hdead. by intros [? ?].
Qed.

Lemma mark_bfs_loop_inv should h0 r fuel q V k s :
  mark_bfs_inv should h0 r q V k s → size (dom h0 ∖ V) ≤ fuel →
  ∃ V' k' s', mark_bfs_loop should fuel q V k s = (Returned tt, s')
              ∧ mark_bfs_inv should h0 r [] V' k' s'.
Proof.
  revert q V k s. induction fuel as [|fuel IHfuel];
    (induction q as [|[cur d] q IHq]; intros V k s Hinv Hsz;
       [rewrite mark_bfs_loop_nil; by exists V, k, s | rewrite mark_bfs_loop_cons]);
    destruct s as [h tr]; rewrite (bind_Returned _ _ _ _ _ (get_heap_run _ _)).
  - destruct (deref h cur) as [nd|] eqn:Hd; [destruct cur as [a|]; [| done] |].
    + cbn in Hd. assert (Hlive0 : is_Some (h0 !! a)).
      { destruct (h0 !! a) eqn:H0; [by eexists |].
        pose proof (mb_dead _ _ _ _ _ _ _ Hinv a H0) as E. cbn [st_heap] in E. congruence. }
      destruct (decide (a ∈ V)) as [Ha | Ha].
      * apply IHq; [| done]. apply (mark_bfs_inv_skip _ _ _ _ _ _ _ _ _ Hinv). naive_solver.
      * exfalso.
        eapply (size_unvisited_pos (dom h0) V a); [by apply elem_of_dom | done | lia].
    + assert (mark_bfs_inv should h0 r q V k (mkState h tr)).
      { apply (mark_bfs_inv_skip _ _ _ _ _ _ _ _ _ Hinv). intros a -> [x Hx].
        destruct (mb_heap _ _ _ _ _ _ _ Hinv a x Hx) as [E | (_ & _ & _ & E)];
          cbn in Hd, E; congruence. }
      destruct cur; by apply IHq.
  - destruct (deref h cur) as [nd|] eqn:Hd; [destruct cur as [a|]; [| done] |].
    + cbn in Hd. assert (Hlive0 : is_Some (h0 !! a)).
      { destruct (h0 !! a) eqn:H0; [by eexists |].
        pose proof (mb_dead _ _ _ _ _ _ _ Hinv a H0) as E. cbn [st_heap] in E. congruence. }
      destruct (decide (a ∈ V)) as [Ha | Ha].
      * apply IHq; [| done]. apply (mark_bfs_inv_skip _ _ _ _ _ _ _ _ _ Hinv). naive_solver.
      * destruct Hlive0 as [nd0 Hnd0].
        assert (nd0 = nd) as ->.
        { destruct (mb_heap _ _ _ _ _ _ _ Hinv a nd0 Hnd0) as [E | (? & _)]; [| done].
          cbn in E. congruence. }
        assert (Hdom : a ∈ dom h0) by by apply elem_of_dom.
        assert (Hm : marked h CheckpointOptions_default nd
                     = marked h0 CheckpointOptions_default nd).
        { apply marked_ext. intros p.
          apply (mark_bfs_inv_values _ _ _ _ _ _ (mkState h tr) p Hinv). }
        destruct (when_mark_run
                    (should (k + 1)%Z d && negb (bool_decide (inputs nd = []))) a h tr nd Hd)
          as [tr' Hrun].
        rewrite (bind_Returned _ _ _ _ _ Hrun). rewrite Hm.
        set (b := should (k + 1)%Z d && negb (bool_decide (inputs nd = []))
                  && negb (is_checkpoint nd)).
        assert (Hb : b = true → is_checkpoint nd = false ∧ inputs nd ≠ []).
        { unfold b. intros Hb. apply andb_prop in Hb as [Hb Hck].
          apply andb_prop in Hb as [_ Hin]. split; [by destruct (is_checkpoint nd) |].
          apply negb_true_iff, bool_decide_eq_false in Hin. done. }
        assert (Hother : ∀ x, x ≠ a →
                  (if b then <[a := marked h0 CheckpointOptions_default nd]> h else h) !! x
                  = h !! x).
        { intros x Hx. destruct b; [by rewrite lookup_insert_ne | done]. }
        destruct Hinv as [Hdd Hh Hs Hq Hdp Hc Hr Hall Hf].
        cbn [st_heap] in Hdd, Hh, Hall, Hf.
        assert (Hra : reachable h0 r a) by (apply (Hq a d); [left | by eexists]).
        apply IHfuel; [| by apply size_unvisited]. split; cbn [st_heap].
        -- intros x Hx. rewrite Hother by congruence. by apply Hdd.
        -- intros x ndx Hx. destruct (decide (x = a)) as [-> | Hxa].
           ++ assert (ndx = nd) as -> by congruence. destruct b eqn:Eb.
              ** right. destruct (Hb eq_refl). rewrite lookup_insert_eq.
                 split; [set_solver | done].
              ** by left.
           ++ rewrite Hother by done.
              destruct (Hh x ndx Hx) as [? | (? & ? & ? & ?)]; [by left |].
              right. split; [set_solver | done].
        -- intros x Hx. apply elem_of_union in Hx as [->%elem_of_singleton | Hx]; [done |].
           by apply Hs.
        -- intros p d' Hp Hlive. apply elem_of_push_inputs_at in Hp as [Hp | [Hp _]].
           ++ apply (Hq p d'); [by right | done].
           ++ by apply (reachable_input h0 r a nd p).
        -- intros p d' Hp. apply push_inputs_at_depth in Hp as [Hp | ->].
           ++ apply (Hdp p). by right.
           ++ assert (0 ≤ d)%Z by (apply (Hdp (Some a)); left). lia.
        -- intros m x p Hm' Hx Hp Hlive.
           apply elem_of_union in Hm' as [->%elem_of_singleton | Hm'].
           ++ right. exists (d + 1)%Z. apply elem_of_push_inputs_at. right.
              split; [congruence | done].
           ++ destruct (Hc m x p Hm' Hx Hp Hlive) as [? | [d' Hin]]; [left; set_solver |].
              apply elem_of_cons in Hin as [[= -> ->] | ?]; [left; set_solver |].
              right. exists d'. apply elem_of_push_inputs_at. by left.
        -- intros Hlive. destruct (Hr Hlive) as [? | [d' Hin]]; [left; set_solver |].
           apply elem_of_cons in Hin as [[= -> ->] | ?]; [left; set_solver |].
           right. exists d'. apply elem_of_push_inputs_at. by left.
        -- intros Htot x ndx Hx Hndx Hin.
           apply elem_of_union in Hx as [->%elem_of_singleton | Hx].
           ++ assert (ndx = nd) as -> by congruence.
              assert (Hd0 : (0 ≤ d)%Z) by (apply (Hdp (Some a)); left).
              unfold is_checkpointed. cbn [deref mbind option_bind].
              unfold b. rewrite (Htot _ _ Hd0), bool_decide_eq_false_2 by done. cbn [andb negb].
              destruct (is_checkpoint nd) eqn:Hck; cbn [negb].
              ** by rewrite Hd.
              ** by rewrite lookup_insert_eq.
           ++ specialize (Hall Htot x ndx Hx Hndx Hin).
              unfold is_checkpointed in *. cbn [deref mbind option_bind] in *.
              rewrite Hother; [done |]. by intros ->.
        -- intros Hno. destruct (Hf Hno) as [([= -> ->] & -> & ->) | [Hrr Hrv]].
           ++ right. split; [| set_solver]. unfold b. change (0 + 1)%Z with 1%Z.
              rewrite Hno. cbn [andb]. congruence.
           ++ right. split; [| set_solver]. rewrite Hother; [done |].
              intros ->. apply Ha, Hrv. by eexists.
    + assert (mark_bfs_inv should h0 r q V k (mkState h tr)).
      { apply (mark_bfs_inv_skip _ _ _ _ _ _ _ _ _ Hinv). intros a -> [x Hx].
        destruct (mb_heap _ _ _ _ _ _ _ Hinv a x Hx) as [E | (_ & _ & _ & E)];
          cbn in Hd, E; congruence. }
      destruct cur; by apply IHq.
Qed.

Lemma mark_bfs_from_root should h r tr :
  ∃ h' tr',
    mark_bfs_loop should (size h) [(Some r, 0%Z)] ∅ 0%Z (mkState h tr)
    = (Returned tt, mkState h' tr')
    ∧ (∀ a, h !! a = None → h' !! a = None)
    ∧ (∀ a nd, h !! a = Some nd →
         h' !! a = Some nd
         ∨ (reachable h r a ∧ is_checkpoint nd = false ∧ inputs nd ≠ []
            ∧ h' !! a = Some (marked h CheckpointOptions_default nd)))
    ∧ (marks_always should →
       ∀ a nd, reachable h r a → h !! a = Some nd → inputs nd ≠ [] →
               is_checkpointed h' (Some a) = true)
    ∧ (should 1%Z 0%Z = false → h' !! r = h !! r).
Proof.
  destruct (mark_bfs_loop_inv should h r (size h) [(Some r, 0%Z)] ∅ 0%Z (mkState h tr))
    as (V' & k' & [h' tr'] & Hrun & [Hd Hh Hs _ _ Hc Hr Hall Hf]).
  { split; cbn [st_heap].
    - done.
    - intros a nd Ha. by left.
    - intros a Ha. by apply elem_of_empty in Ha.
    - intros p d Hp Hlive. apply list_elem_of_singleton in Hp as [= -> ->]. by constructor.
    - intros p d Hp. by apply list_elem_of_singleton in Hp as [= -> ->].
    - intros m nd p Hm. by apply elem_of_empty in Hm.
    - intros _. right. exists 0%Z. by left.
    - intros _ a nd Ha. by apply elem_of_empty in Ha.
    - intros _. by left. }
  { apply size_dom_difference_empty. }
  cbn [st_heap] in *. exists h', tr'. split; [done |]. split; [done |].
  split; [| split].
  - intros a nd Ha. destruct (Hh a nd Ha) as [? | (HV & ? & ? & ?)]; [by left |].
    right. split; [by apply Hs | done].
  - intros Htot a nd Ha. apply Hall; [done |]. clear nd.
    induction Ha as [Hlive | m nd p _ IH Hm Hp Hlive].
    + destruct (Hr Hlive) as [? | [d Hin]]; [done | by apply elem_of_nil in Hin].
    + destruct (Hc m nd p IH Hm Hp Hlive) as [? | [d Hin]];
        [done | by apply elem_of_nil in Hin].
  - intros Hno. destruct (Hf Hno) as [([=] & _) | [? _]]; done.
Qed.

(** [auto_checkpoint_every_n(root, n)] returns.  A node is afterwards as it
    was or, if it is reachable from the root, was no checkpoint and has
    inputs, marked as [mark_node_checkpoint] with default options marks it
    on the initial heap: a leaf is never marked and no value changes.  With
    [n = 1] every reachable node with inputs is a checkpoint afterwards;
    with [n > 1] the root is left as it was; with [n <= 0] or a null root
    nothing happens. *)
Theorem auto_checkpoint_every_n_spec (r : ptr) (n : Z) (h : heap) (tr : list event) :
  let h' := heap_after (auto_checkpoint_every_n (mkValue (Some r)) n) (mkState h tr) in
  (∃ tr', auto_checkpoint_every_n (mkValue (Some r)) n (mkState h tr)
          = (Returned tt, mkState h' tr'))
  ∧ (∀ a, h !! a = None → h' !! a = None)
  ∧ (∀ a nd, h !! a = Some nd →
       h' !! a = Some nd
       ∨ (reachable h r a ∧ is_checkpoint nd = false ∧ inputs nd ≠ []
          ∧ h' !! a = Some (marked h CheckpointOptions_default nd)))
  ∧ (n = 1%Z → ∀ a nd, reachable h r a → h !! a = Some nd → inputs nd ≠ [] →
       is_checkpointed h' (Some a) = true)
  ∧ ((1 < n)%Z → h' !! r = h !! r)
  ∧ ((n ≤ 0)%Z →
       auto_checkpoint_every_n (mkValue (Some r)) n (mkState h tr) = (Returned tt, mkState h tr))
  ∧ auto_checkpoint_every_n (mkValue None) n (mkState h tr) = (Returned tt, mkState h tr).
Proof.
  intros h'. unfold heap_after in h'.
  assert (Hnull : auto_checkpoint_every_n (mkValue None) n (mkState h tr)
                  = (Returned tt, mkState h tr)).
  { unfold auto_checkpoint_every_n. by case_decide. }
  destruct (decide (n ≤ 0)%Z) as [Hn | Hn].
  { assert (Hrun : auto_checkpoint_every_n (mkValue (Some r)) n (mkState h tr)
                   = (Returned tt, mkState h tr)).
    { unfold auto_checkpoint_every_n. by rewrite decide_True. }
    subst h'. rewrite Hrun. cbn [snd st_heap].
    split; [by exists tr |]. split; [done |]. split; [intros a nd Ha; by left |].
    split; [lia |]. split; [lia |]. by split. }
  destruct (mark_bfs_from_root (λ k' _, bool_decide (Z.rem k' n = 0%Z)) h r tr)
    as (h1 & tr1 & Hloop & Hdead & Hheap & Hall & Hfirst).
  assert (Hrun : auto_checkpoint_every_n (mkValue (Some r)) n (mkState h tr)
                 = (Returned tt, mkState h1 tr1)).
  { unfold auto_checkpoint_every_n. rewrite decide_False by done. cbn [node].
    rewrite (bind_Returned _ _ _ _ _ (get_heap_run _ _)).
    rewrite <- Hloop. apply (every_n_loop_bfs (size h) n [(Some r, 0%Z)]). }
  subst h'. rewrite Hrun. cbn [snd st_heap].
  split; [by exists tr1 |]. split; [done |]. split; [done |].
  split; [| split; [| split; [lia | done]]].
  - intros ->. apply Hall. intros k d _. apply bool_decide_eq_true_2, Z.rem_1_r.
  - intros Hgt. apply Hfirst. apply bool_decide_eq_false_2.
    rewrite Z.rem_small by lia. done.
Qed.

(** [auto_checkpoint_by_depth(root, depth_threshold)] returns.  A node is
    afterwards as it was or, if it is reachable from the root, was no
    checkpoint and has inputs, marked as [mark_node_checkpoint] with default
    options marks it on the initial heap.  With a threshold of 0 or less
    every reachable node with inputs is a checkpoint afterwards; with a
    positive threshold the root is left as it was; for a null root nothing
    happens. *)
Theorem auto_checkpoint_by_depth_spec (r : ptr) (th : Z) (h : heap) (tr : list event) :
  let h' := heap_after (auto_checkpoint_by_depth (mkValue (Some r)) th) (mkState h tr) in
  (∃ tr', auto_checkpoint_by_depth (mkValue (Some r)) th (mkState h tr)
          = (Returned tt, mkState h' tr'))
  ∧ (∀ a, h !! a = None → h' !! a = None)
  ∧ (∀ a nd, h !! a = Some nd →
       h' !! a = Some nd
       ∨ (reachable h r a ∧ is_checkpoint nd = false ∧ inputs nd ≠ []
          ∧ h' !! a = Some (marked h CheckpointOptions_default nd)))
  ∧ ((th ≤ 0)%Z → ∀ a nd, reachable h r a → h !! a = Some nd → inputs nd ≠ [] →
       is_checkpointed h' (Some a) = true)
  ∧ ((0 < th)%Z → h' !! r = h !! r)
  ∧ auto_checkpoint_by_depth (mkValue None) th (mkState h tr) = (Returned tt, mkState h tr).
Proof.
  intros h'. unfold heap_after in h'.
  destruct (mark_bfs_from_root (λ _ d, bool_decide (th ≤ d)%Z) h r tr)
    as (h1 & tr1 & Hloop & Hdead & Hheap & Hall & Hfirst).
  assert (Hrun : auto_checkpoint_by_depth (mkValue (Some r)) th (mkState h tr)
                 = (Returned tt, mkState h1 tr1)).
  { unfold auto_checkpoint_by_depth. cbn [node].
    rewrite (bind_Returned _ _ _ _ _ (get_heap_run _ _)).
    rewrite <- Hloop. apply by_depth_loop_bfs. }
  subst h'. rewrite Hrun. cbn [snd st_heap].
  split; [by exists tr1 |]. split; [done |]. split; [done |].
  split; [| split; [| done]].
  - intros Hth. apply Hall. intros k d Hd. apply bool_decide_eq_true_2. lia.
  - intros Hth. apply Hfirst. apply bool_decide_eq_false_2. lia.
Qed.

(** ** What a recomputation returns *)

Section recompute_returns.
Context `{OpLibrary}.

Lemma when_rng_run (b : bool) blob h tr :
  ∃ tr1, when b (restore_rng_state blob) (mkState h tr) = (Returned tt, mkState h tr1).
Proof. destruct b; cbn; eauto. Qed.

Lemma restore_parents_no_throw rec i slots s e s' :
  (∀ p s0 e0 s1, rec p s0 ≠ (Thrown e0, s1)) →
  restore_parents rec i slots s ≠ (Thrown e, s').
Proof.
  intros Hrec. revert i s.
  induction slots as [|[sv parent] slots IH]; intros i [h tr]; [done |].
  cbn [restore_parents]. rewrite !(bind_Returned _ _ _ _ _ (get_heap_run _ _)).
  destruct (deref h parent) as [pn|] eqn:Hd; [destruct parent as [p|] |].
  - rewrite !(bind_Returned _ _ _ _ _ (emit_run _ _ _)).
    assert (Hwhen : ∀ tr0, ∃ tr1,
      when (bool_decide (numel (value pn) = 0)) (emit LogRecomputeEmptyInputWarning)
        (mkState h tr0) = (Returned tt, mkState h tr1)).
    { intros tr0. destruct (bool_decide (numel (value pn) = 0)); cbn; eauto. }
    destruct (Hwhen (tr ++ [LogRecomputeInput i (ident_of h p) (numel (value pn))
                              (rows (value pn)) (cols (value pn)) (op pn)])) as (tr1 & Hw).
    rewrite !(bind_Returned _ _ _ _ _ Hw).
    destruct (node sv) as [src|].
    + cbn in Hd. rewrite (bind_Returned _ _ _ _ _ (update_live _ _ _ _ _ Hd)). apply IH.
    + destruct (decide (size_ (value pn) = 0)); [| apply IH].
      destruct (is_checkpoint pn).
      * unfold bind at 1.
        destruct (rec (Some p) (mkState h tr1)) as [[[|]|e1|] [h1 tr1']] eqn:Erec.
        -- apply IH.
        -- by rewrite (bind_Returned _ _ _ _ _ (emit_run _ _ _)).
        -- by apply Hrec in Erec.
        -- done.
      * by rewrite (bind_Returned _ _ _ _ _ (emit_run _ _ _)).
  - rewrite !(bind_Returned _ _ _ _ _ (emit_run _ _ _)). apply IH.
  - destruct parent; rewrite !(bind_Returned _ _ _ _ _ (emit_run _ _ _)); apply IH.
Qed.

Lemma forward_eval_node_cases c h tr :
  (∃ nd t, h !! c = Some nd
     ∧ forward_eval (op nd) ((λ p, value <$> deref h p) <$> inputs nd) = inr t
     ∧ forward_eval_node c (mkState h tr) = (Returned t, mkState h (tr ++ [CallForwardEval c])))
  ∨ (∃ e, forward_eval_node c (mkState h tr)
          = (Thrown e, mkState h (tr ++ [CallForwardEval c]))).
Proof.
  unfold forward_eval_node. rewrite (bind_Returned _ _ _ _ _ (emit_run _ _ _)).
  rewrite (bind_Returned _ _ _ _ _ (get_heap_run _ _)).
  destruct (h !! c) as [nd|]; [| right; by eexists].
  destruct (forward_eval (op nd) _) as [what|t] eqn:Ef; [right; by eexists |].
  left. by exists nd, t.
Qed.

Lemma recompute_subgraph_no_throw fuel node_ s e s' :
  recompute_subgraph fuel node_ s ≠ (Thrown e, s').
Proof.
  revert node_ s e s'. induction fuel as [|fuel IH]; intros node_ [h tr] e s'; [done |].
  cbn [recompute_subgraph]. rewrite !(bind_Returned _ _ _ _ _ (get_heap_run _ _)).
  destruct (deref h node_) as [nd|]; [destruct node_ as [c|] |]; try done.
  destruct (negb (is_checkpoint nd)); [done |].
  destruct (saved_inputs nd) as [|sv0 svs];
    [by rewrite (bind_Returned _ _ _ _ _ (emit_run _ _ _)) |].
  destruct (when_rng_run (has_saved_rng nd) (saved_rng_blob nd) h tr) as (tr1 & Hrng).
  rewrite !(bind_Returned _ _ _ _ _ Hrng). unfold bind at 1.
  destruct (restore_parents _ _ _ _) as [[[|]|e0|] [h1 tr2]] eqn:Eres; try done.
  - unfold try_catch.
    destruct (forward_eval_node_cases c h1 tr2) as [(nd1 & t & Hc & _ & Hrun) | [e1 Hrun]].
    + rewrite (bind_Returned _ _ _ _ _ Hrun).
      rewrite (bind_Returned _ _ _ _ _ (update_live _ _ _ _ _ Hc)).
      unfold on_recomputed. by rewrite (bind_Returned _ _ _ _ _ (emit_run _ _ _)).
    + rewrite (bind_Thrown _ _ _ _ _ Hrun).
      by rewrite (bind_Returned _ _ _ _ _ (emit_run _ _ _)).
  - by apply restore_parents_no_throw in Eres.
Qed.

Lemma recompute_subgraph_true fuel c s s' :
  recompute_subgraph fuel (Some c) s = (Returned true, s') →
  ∃ h1 nd1 t,
    h1 !! c = Some nd1 ∧ is_checkpoint nd1 = true
    ∧ only_values_changed (st_heap s) h1
    ∧ forward_eval (op nd1) ((λ p, value <$> deref h1 p) <$> inputs nd1) = inr t
    ∧ st_heap s' = <[c := set_value t nd1]> h1.
Proof.
  destruct fuel as [|fuel]; [done |]. destruct s as [h tr].
  cbn [recompute_subgraph]. rewrite !(bind_Returned _ _ _ _ _ (get_heap_run _ _)).
  cbn [deref mbind option_bind]. destruct (h !! c) as [nd|] eqn:Hc; [| done].
  destruct (is_checkpoint nd) eqn:Hck; [| done]. cbn [negb].
  destruct (saved_inputs nd) as [|sv0 svs];
    [by rewrite (bind_Returned _ _ _ _ _ (emit_run _ _ _)) |].
  destruct (when_rng_run (has_saved_rng nd) (saved_rng_blob nd) h tr) as (tr1 & Hrng).
  rewrite !(bind_Returned _ _ _ _ _ Hrng). unfold bind at 1.
  pose proof (restore_parents_frame (recompute_subgraph fuel) 0
                (zip (sv0 :: svs) (inputs nd))
                (λ p, recompute_subgraph_frame fuel p) (mkState h tr1)) as Hframe.
  destruct (restore_parents _ _ _ _) as [[[|]|e0|] [h1 tr2]] eqn:Eres; try done.
  destruct Hframe as [Hvals _]. cbn [snd st_heap] in Hvals.
  unfold try_catch.
  destruct (forward_eval_node_cases c h1 tr2) as [(nd1 & t & Hc1 & Hev & Hrun) | [e1 Hrun]].
  - rewrite (bind_Returned _ _ _ _ _ Hrun).
    rewrite (bind_Returned _ _ _ _ _ (update_live _ _ _ _ _ Hc1)).
    unfold on_recomputed. rewrite (bind_Returned _ _ _ _ _ (emit_run _ _ _)).
    intros [= <-]. exists h1, nd1, t. split; [done |]. split; [| done].
    destruct (only_values_changed_lookup _ _ _ _ Hvals Hc1) as (nd0 & Hnd0 & E).
    rewrite Hc in Hnd0. injection Hnd0 as <-.
    apply (f_equal is_checkpoint) in E. cbn in E. congruence.
  - rewrite (bind_Thrown _ _ _ _ _ Hrun).
    by rewrite (bind_Returned _ _ _ _ _ (emit_run _ _ _)).
Qed.

(** On a graph whose inputs have smaller rank, [recompute_subgraph] returns
    a boolean: it raises nothing, whatever the evaluator does, and its
    recursion through checkpointed parents ends.  It changes [value] fields
    only and calls no VJP rule.  When it returns [true], the value of the
    node is what the forward evaluator gives for the node's op on the
    values its inputs now have. *)
Theorem recompute_subgraph_returns (rank : ptr → nat) (fuel : nat) (c : ptr) (s : State) :
  ranked rank (st_heap s) → rank c < fuel →
  ∃ b s', recompute_subgraph fuel (Some c) s = (Returned b, s')
    ∧ only_values_changed (st_heap s) (st_heap s')
    ∧ trace_grows_without_vjp s s'
    ∧ (b = true →
       ∃ nd', st_heap s' !! c = Some nd' ∧ is_checkpoint nd' = true
         ∧ forward_eval (op nd') ((λ p, value <$> deref (st_heap s') p) <$> inputs nd')
           = inr (value nd')).
Proof.
  intros Hranked Hlt.
  pose proof (recompute_subgraph_terminates rank fuel c s Hranked Hlt) as Hterm.
  pose proof (recompute_subgraph_frame fuel (Some c) s) as [Hvals Htrace].
  destruct (recompute_subgraph fuel (Some c) s) as [[b|e|] s'] eqn:Erun.
  - exists b, s'. split; [done |]. split; [done |]. split; [done |].
    intros ->. destruct (recompute_subgraph_true _ _ _ _ Erun)
      as (h1 & nd1 & t & Hc1 & Hck & Hv1 & Hev & Hs').
    exists (set_value t nd1). rewrite Hs', lookup_insert_eq.
    split; [done |]. split; [done |]. cbn [op inputs value set_value].
    rewrite <- Hev. f_equal. apply list_fmap_ext. intros i p Hp.
    destruct p as [p|]; [| done]. cbn [deref mbind option_bind].
    rewrite lookup_insert_ne; [done |]. intros E. subst p.
    apply list_elem_of_lookup_2 in Hp.
    assert (Hr1 : ranked rank h1) by by apply (only_values_changed_ranked rank (st_heap s)).
    pose proof (Hr1 c nd1 c Hc1 Hp). lia.
  - by apply recompute_subgraph_no_throw in Erun.
  - done.
Qed.
End recompute_returns.

Lemma recompute_subgraph_returns_witness :
  ∃ b s', @recompute_subgraph relu_library 4 (Some 2) evicted_chain = (Returned b, s').
Proof.
  assert (H1 : ranked id (st_heap evicted_chain)).
  { apply inputs_below_ranked. apply (bool_decide_unpack _). vm_compute. exact I. }
  assert (H2 : id 2 < 4) by (vm_compute; lia).
  destruct (@recompute_subgraph_returns relu_library id 4 2 evicted_chain H1 H2)
    as (b & s' & Hrun & _).
  by exists b, s'.
Defined.

(** ** The nodes of the order are the reachable ones *)

Lemma dfs_visit_sound (Q : ptr → Prop) h C :
  (∀ m nd p, Q m → h !! m = Some nd → Some p ∈ inputs nd → is_Some (h !! p) → Q p) →
  ∀ fuel a st,
    (is_Some (h !! a) → Q a) → (∀ x, x ∈ temp st → Q x) →
    ∀ x, x ∈ temp (dfs_visit fuel h C (Some a) st) → Q x.
Proof.
  intros Hclosed. induction fuel as [|fuel IH]; intros a st Ha Hst; rewrite dfs_visit_unfold.
  - repeat case_decide; done.
  - repeat case_decide; try done. destruct (h !! a) as [nd|] eqn:Hnd; [| done].
    cbn zeta. cbn [temp].
    assert (Hin : ∀ l st1,
              (∀ p, Some p ∈ l → is_Some (h !! p) → Q p) → (∀ x, x ∈ temp st1 → Q x) →
              ∀ x, x ∈ temp (dfs_inputs fuel h C st1 l) → Q x).
    { induction l as [|[i|] l IHl]; intros st1 Hl Hst1; [done | |].
      - rewrite dfs_inputs_cons. apply IHl; [intros p Hp; apply Hl; by right |].
        case_decide; [| done]. apply IH; [| done]. apply Hl. by left.
      - rewrite dfs_inputs_cons. apply IHl; [intros p Hp; apply Hl; by right | done]. }
    apply Hin.
    + intros p Hp Hlive. apply (Hclosed a nd p); [by apply Ha | done | done | done].
    + cbn [temp]. intros x Hx.
      apply elem_of_union in Hx as [->%elem_of_singleton | Hx]; [by apply Ha | by apply Hst].
Qed.

Lemma topo_nodes_iff h r n : n ∈ topo_nodes h r ↔ reachable h r n.
Proof.
  split; [| apply topo_nodes_reachable]. intros Hn. apply topo_nodes_perm in Hn.
  revert n Hn. apply (dfs_visit_sound (reachable h r) h (dom h)).
  - intros m nd p Hm Hnd Hp Hlive. by apply (reachable_input h r m nd p).
  - by constructor.
  - intros x Hx. by apply elem_of_empty in Hx.
Qed.

Lemma foldl_alter_lookup (f : Node → Node) (l : list ptr) (h : heap) n :
  NoDup l →
  foldl (λ h0 a, alter f a h0) h l !! n = if decide (n ∈ l) then f <$> (h !! n) else h !! n.
Proof.
  revert h. induction l as [|a l IH]; intros h Hnd; [done |].
  apply NoDup_cons in Hnd as [Ha Hnd]. cbn [foldl]. rewrite IH by done.
  rewrite lookup_alter. destruct (decide (n = a)) as [-> | Hna].
  - rewrite (decide_False (P := a ∈ l)) by done.
    rewrite (decide_True (P := a = a)) by done.
    by rewrite (decide_True (P := a ∈ a :: l)) by left.
  - rewrite (decide_False (P := a = n)) by done.
    destruct (decide (n ∈ l)).
    + by rewrite (decide_True (P := n ∈ a :: l)) by by right.
    + rewrite (decide_False (P := n ∈ a :: l)); [done |].
      intros [? | ?]%elem_of_cons; done.
Qed.

(** ** Resetting gradients *)

Section zero_grad.
Context `{OpLibrary}.

Lemma zero_grad_run r h tr :
  zero_grad (mkValue (Some r)) (mkState h tr)
  = (Returned tt, mkState (foldl (λ h0 a, alter zeroed a h0) h (topo_nodes h r)) tr).
Proof.
  unfold zero_grad. cbn [node]. rewrite (bind_Returned _ _ _ _ _ (get_heap_run _ _)).
  rewrite topo_from_nodes. generalize (topo_nodes h r). intros l. revert h.
  induction l as [|a l IH]; intros h; [done |].
  cbn [fmap list_fmap for_each foldl].
  assert (Hbody : (h0 <- get_heap ;;
                   match deref h0 (Some a), Some a with
                   | Some nd, Some n =>
                     when (requires_grad nd) (update n (set_grad (Tensor_zeros_like (value nd))))
                   | _, _ => ret tt
                   end) (mkState h tr)
                  = (Returned tt, mkState (alter zeroed a h) tr)).
  { rewrite (bind_Returned _ _ _ _ _ (get_heap_run _ _)). cbn [deref mbind option_bind].
    destruct (h !! a) as [nd|] eqn:Ha.
    - unfold zeroed. rewrite (alter_live _ _ _ _ Ha).
      destruct (requires_grad nd) eqn:Hrg; cbn [when].
      + by rewrite (update_live _ _ _ _ _ Ha).
      + by rewrite insert_id.
    - rewrite ret_run. do 2 f_equal. apply map_eq. intros i. rewrite lookup_alter.
      case_decide; [subst; by rewrite Ha | done]. }
  rewrite (bind_Returned _ _ _ _ _ Hbody). apply IH.
Qed.

(** [zero_grad(root)] returns without writing a line.  Every node reachable
    from the root that requires grad gets as [grad] a zero tensor of the
    shape of its value; its other fields, the reachable nodes that do not
    require grad and the nodes that are not reachable stay as they are. *)
Theorem zero_grad_spec (r : ptr) (h : heap) (tr : list event) :
  ∃ h', zero_grad (mkValue (Some r)) (mkState h tr) = (Returned tt, mkState h' tr)
    ∧ (∀ n nd, reachable h r n → h !! n = Some nd → requires_grad nd = true →
         h' !! n = Some (set_grad (Tensor_zeros_like (value nd)) nd))
    ∧ (∀ n nd, h !! n = Some nd → requires_grad nd = false → h' !! n = Some nd)
    ∧ (∀ n, ¬ reachable h r n → h' !! n = h !! n).
Proof.
  eexists. split; [apply zero_grad_run |].
  split; [| split].
  - intros n nd Hr Hn Hrg. rewrite foldl_alter_lookup by apply topo_nodes_NoDup.
    rewrite decide_True by by apply topo_nodes_iff. rewrite Hn. cbn.
    unfold zeroed. by rewrite Hrg.
  - intros n nd Hn Hrg. rewrite foldl_alter_lookup by apply topo_nodes_NoDup.
    rewrite Hn. case_decide; [| done]. cbn. unfold zeroed. by rewrite Hrg.
  - intros n Hn. rewrite foldl_alter_lookup by apply topo_nodes_NoDup.
    rewrite decide_False; [done |]. by rewrite topo_nodes_iff.
Qed.
End zero_grad.

(** ** Refreshing the snapshots *)

Lemma snapshot_of_ext h h' p :
  value <$> deref h p = value <$> deref h' p → snapshot_of h p = snapshot_of h' p.
Proof.
  intros Hv. unfold snapshot_of.
  destruct (deref h p) as [x|], (deref h' p) as [y|]; try done.
  cbn in Hv. injection Hv as ->. done.
Qed.

Lemma alter_dead (f : Node → Node) (a : ptr) (h : heap) : h !! a = None → alter f a h = h.
Proof.
  intros Ha. apply map_eq. intros i. rewrite lookup_alter.
  case_decide; [subst; by rewrite Ha | done].
Qed.

Section capture.
Context `{OpLibrary}.

Lemma capture_slot_run n p h tr nd0 :
  h !! n = Some nd0 →
  capture_slot n p (mkState h tr)
  = (Returned tt,
     mkState (<[n := set_saved_input_tensors (saved_input_tensors nd0 ++ [snapshot_of h p])
                       nd0]> h) tr).
Proof.
  intros Hn. unfold capture_slot, snapshot_of.
  rewrite (bind_Returned _ _ _ _ _ (get_heap_run _ _)).
  destruct (deref h p) as [pn|]; [destruct (decide (size_ (value pn) ≠ 0)) |];
    by rewrite (update_live _ _ _ _ _ Hn).
Qed.

Lemma capture_loop n (l : list (option ptr)) h tr nd0 :
  h !! n = Some nd0 →
  for_each l (capture_slot n) (mkState h tr)
  = (Returned tt,
     mkState (<[n := set_saved_input_tensors (saved_input_tensors nd0 ++ (snapshot_of h <$> l))
                       nd0]> h) tr).
Proof.
  revert h nd0. induction l as [|p l IH]; intros h nd0 Hn.
  - cbn [for_each fmap list_fmap]. rewrite app_nil_r, ret_run. do 2 f_equal.
    symmetry. destruct nd0. by apply insert_id.
  - cbn [for_each]. rewrite (bind_Returned _ _ _ _ _ (capture_slot_run _ _ _ _ _ Hn)).
    rewrite (IH _ _ (lookup_insert_eq _ _ _)). rewrite insert_insert_eq.
    do 3 f_equal. cbn [saved_input_tensors set_saved_input_tensors].
    rewrite <- app_assoc. cbn [fmap list_fmap app].
    by rewrite (snapshot_of_fmap_insert h n nd0).
Qed.

Lemma capture_node_run a h tr :
  ∃ tr', capture_node (Some a) (mkState h tr)
         = (Returned tt, mkState (alter (captured h) a h) tr').
Proof.
  unfold capture_node. rewrite (bind_Returned _ _ _ _ _ (get_heap_run _ _)).
  cbn [deref mbind option_bind]. destruct (h !! a) as [nd|] eqn:Ha.
  - unfold captured. rewrite (alter_live _ _ _ _ Ha).
    destruct (is_checkpoint nd) eqn:Hck; cbn [negb].
    + rewrite (bind_Returned _ _ _ _ _ (update_live _ _ _ _ _ Ha)).
      rewrite (bind_Returned _ _ _ _ _
                 (capture_loop a (inputs nd) _ tr _ (lookup_insert_eq _ _ _))).
      rewrite emit_run, insert_insert_eq. eexists. do 3 f_equal.
      cbn [saved_input_tensors set_saved_input_tensors app].
      by rewrite (snapshot_of_fmap_insert h a nd).
    + exists tr. by rewrite insert_id.
  - exists tr. by rewrite alter_dead.
Qed.

Lemma captured_values (f : Node → Node) a (h : heap) p :
  (∀ x, value (f x) = value x) →
  value <$> deref (alter f a h) p = value <$> deref h p.
Proof.
  intros Hf. destruct p as [p|]; [| done]. cbn [deref mbind option_bind].
  rewrite lookup_alter. case_decide; [subst | done].
  destruct (h !! p); cbn; [by rewrite Hf | done].
Qed.

Lemma captured_value h nd : value (captured h nd) = value nd.
Proof. unfold captured. by destruct (is_checkpoint nd). Qed.

Lemma captured_ext h h' nd :
  (∀ p, value <$> deref h p = value <$> deref h' p) → captured h nd = captured h' nd.
Proof.
  intros Hv. unfold captured. destruct (is_checkpoint nd); [| done]. f_equal.
  apply list_fmap_ext. intros i p _. by apply snapshot_of_ext.
Qed.

Lemma capture_checkpoint_snapshots_run r h tr :
  ∃ tr', capture_checkpoint_snapshots (mkValue (Some r)) (mkState h tr)
         = (Returned tt,
            mkState (foldl (λ h0 a, alter (captured h) a h0) h (topo_nodes h r)) tr').
Proof.
  unfold capture_checkpoint_snapshots. cbn [node].
  rewrite (bind_Returned _ _ _ _ _ (get_heap_run _ _)). rewrite topo_from_nodes.
  generalize (topo_nodes h r). intros l.
  assert (Hgen : ∀ hc tr0, (∀ p, value <$> deref hc p = value <$> deref h p) →
            ∃ tr', for_each (Some <$> l) capture_node (mkState hc tr0)
                   = (Returned tt, mkState (foldl (λ h0 a, alter (captured h) a h0) hc l) tr')).
  { induction l as [|a l IH]; intros hc tr0 Hv; [by exists tr0 |].
    cbn [fmap list_fmap for_each foldl].
    destruct (capture_node_run a hc tr0) as [tr1 Hrun].
    rewrite (bind_Returned _ _ _ _ _ Hrun).
    assert (Hc : alter (captured hc) a hc = alter (captured h) a hc).
    { apply map_eq. intros i. rewrite !lookup_alter. case_decide; [| done].
      destruct (hc !! a); cbn; [| done]. f_equal. by apply captured_ext. }
    rewrite Hc. apply IH. intros p.
    rewrite captured_values; [apply Hv | apply captured_value]. }
  by apply Hgen.
Qed.

(** [capture_checkpoint_snapshots(root)] returns.  Every checkpoint
    reachable from the root gets as [saved_input_tensors] one tensor per
    input slot, the input's present value or an empty tensor for a missing
    input or value; nothing else changes: not its other fields, not the
    nodes that are no checkpoints, not the nodes that are not reachable.
    For a null root nothing happens. *)
Theorem capture_checkpoint_snapshots_spec (r : ptr) (h : heap) (tr : list event) :
  (∃ h' tr',
     capture_checkpoint_snapshots (mkValue (Some r)) (mkState h tr)
     = (Returned tt, mkState h' tr')
     ∧ (∀ n nd, reachable h r n → h !! n = Some nd → is_checkpoint nd = true →
          h' !! n = Some (set_saved_input_tensors (snapshot_of h <$> inputs nd) nd))
     ∧ (∀ n nd, h !! n = Some nd → is_checkpoint nd = false → h' !! n = Some nd)
     ∧ (∀ n, ¬ reachable h r n → h' !! n = h !! n))
  ∧ capture_checkpoint_snapshots (mkValue None) (mkState h tr) = (Returned tt, mkState h tr).
Proof.
  split; [| done].
  destruct (capture_checkpoint_snapshots_run r h tr) as [tr' Hrun].
  eexists _, tr'. split; [exact Hrun |].
  split; [| split].
  - intros n nd Hr Hn Hck. rewrite foldl_alter_lookup by apply topo_nodes_NoDup.
    rewrite decide_True by by apply topo_nodes_iff. rewrite Hn. cbn.
    unfold captured. by rewrite Hck.
  - intros n nd Hn Hck. rewrite foldl_alter_lookup by apply topo_nodes_NoDup.
    rewrite Hn. case_decide; [| done]. cbn. unfold captured. by rewrite Hck.
  - intros n Hn. rewrite foldl_alter_lookup by apply topo_nodes_NoDup.
    rewrite decide_False; [done |]. by rewrite topo_nodes_iff.
Qed.
End capture.

(** ** Forward mode leaves the graph alone *)

Section jvp_frame.
Context `{OpLibrary}.

Lemma jvp_walk_frame seed (l : list ptr) T h tr :
  (∀ n, n ∈ l → is_Some (h !! n)) →
  ∃ o tr', jvp_walk seed (Some <$> l) T (mkState h tr) = (o, mkState h tr')
    ∧ match o with
      | Returned _ => tr' = tr ++ flat_map (jvp_events h) l
      | Thrown e => ∃ what, e = ExternalError what
      | Diverged => False
      end.
Proof.
  revert T tr. induction l as [|n l IH]; intros T tr Hlive.
  { exists (Returned T), tr. split; [done |]. cbn. by rewrite app_nil_r. }
  destruct (Hlive n) as [nd Hn]; [by left |].
  cbn [fmap list_fmap jvp_walk flat_map]. unfold jvp_events at 1. rewrite Hn.
  pose proof (jvp_node_run seed T n h tr nd Hn) as Hrun.
  destruct (jvp_lookup (op nd)) as [fn|].
  - destruct (fn h n (tangent_of T)) as [what | t'].
    + rewrite (bind_Thrown _ _ _ _ _ Hrun). eexists _, _. split; [done |]. by eexists.
    + rewrite (bind_Returned _ _ _ _ _ Hrun).
      destruct (IH (<[n := t']> T) (tr ++ [CallOnJvpStep n; CallJvp n])) as (o & tr' & Hw & Ho);
        [intros m Hm; apply Hlive; by right |].
      exists o, tr'. split; [done |]. destruct o; [| done | done].
      rewrite Ho. by rewrite <- app_assoc.
  - rewrite (bind_Returned _ _ _ _ _ Hrun).
    destruct (IH (<[n := initial_tangent seed h n]> T) (tr ++ [CallOnJvpStep n]))
      as (o & tr' & Hw & Ho); [intros m Hm; apply Hlive; by right |].
    exists o, tr'. split; [done |]. destruct o; [| done | done].
    rewrite Ho. by rewrite <- app_assoc.
Qed.

(** [jvp(root, seed)] never changes the graph, whether it returns or a JVP
    rule raises, and raises nothing of its own.  When it returns it has
    called, for each node reachable from the root, once and in the order of
    [topo_from], the step hook and then the node's JVP rule if its op has
    one.  For a null root it returns the empty tensor at once. *)
Theorem jvp_frame_and_calls (r : ptr) (seed : gmap ptr Tensor) (h : heap) (tr : list event) :
  (∃ o tr', jvp (mkValue (Some r)) seed (mkState h tr) = (o, mkState h tr')
     ∧ match o with
       | Returned _ => tr' = tr ++ flat_map (jvp_events h) (topo_nodes h r)
       | Thrown e => ∃ what, e = ExternalError what
       | Diverged => False
       end)
  ∧ NoDup (topo_nodes h r)
  ∧ (∀ n, n ∈ topo_nodes h r ↔ reachable h r n)
  ∧ jvp (mkValue None) seed (mkState h tr) = (Returned Tensor_empty, mkState h tr).
Proof.
  split; [| split; [apply topo_nodes_NoDup | split; [apply topo_nodes_iff | done]]].
  destruct (jvp_walk_frame seed (topo_nodes h r) ∅ h tr) as (o & tr' & Hw & Ho);
    [apply topo_nodes_live |].
  unfold jvp. cbn [node]. rewrite (bind_Returned _ _ _ _ _ (get_heap_run _ _)).
  rewrite topo_from_nodes. destruct o as [T|e|].
  - rewrite (bind_Returned _ _ _ _ _ Hw). eexists (Returned _), tr'. by split.
  - rewrite (bind_Thrown _ _ _ _ _ Hw). by exists (Thrown e), tr'.
  - done.
Qed.
End jvp_frame.

(** ** The two estimates of the tests *)

(** [total_value_bytes(root)] and [estimate_bytes(root)] agree: both are
    the bytes of the values of the nodes reachable from the root. *)
Theorem total_value_bytes_estimate_bytes (h : heap) (r : ptr) :
  total_value_bytes h (mkValue (Some r)) = estimate_bytes h (mkValue (Some r)).
Proof.
  rewrite (estimate_bytes_sum h r (topo_nodes h r) (topo_nodes_NoDup h r) (topo_nodes_iff h r)).
  unfold total_value_bytes. cbn [node]. rewrite topo_from_nodes.
  assert (Hgen : ∀ l acc,
            foldl (λ bytes n_, match deref h n_ with
                               | Some nd => bytes + numel (value nd) * sizeof_float
                               | None => bytes
                               end) acc (Some <$> l)
            = acc + sum_list_with (value_bytes h) l).
  { induction l as [|a l IH]; intros acc; [cbn; lia |].
    cbn [fmap list_fmap foldl sum_list_with]. rewrite IH. unfold value_bytes at 2.
    cbn [deref mbind option_bind]. destruct (h !! a); lia. }
  by rewrite Hgen.
Qed.

(** ** The reverse walk as a whole *)

Lemma rev_fmap {A B} (f : A → B) (l : list A) : rev (f <$> l) = f <$> rev l.
Proof.
  induction l as [|x l IH]; [done |]. cbn [fmap list_fmap rev]. rewrite fmap_app.
  by rewrite <- IH.
Qed.

Lemma elem_of_rev {A} (l : list A) x : x ∈ rev l ↔ x ∈ l.
Proof. rewrite !list_elem_of_In. symmetry. apply in_rev. Qed.

Lemma NoDup_rev_2 {A} (l : list A) : NoDup l → NoDup (rev l).
Proof. rewrite !NoDup_ListNoDup. apply NoDup_rev. Qed.

Lemma omap_id_Some {A} (l : list A) : omap id (Some <$> l) = l.
Proof. induction l as [|x l IH]; [done |]. cbn. by rewrite IH. Qed.

Lemma vjp_calls_app tr1 tr2 : vjp_calls (tr1 ++ tr2) = vjp_calls tr1 ++ vjp_calls tr2.
Proof. apply omap_app. Qed.

Lemma vjp_calls_none new : Forall (λ e, ¬ is_vjp_call e) new → vjp_calls new = [].
Proof.
  induction 1 as [|e new He _ IH]; [done |]. unfold vjp_calls. cbn [omap list_omap].
  destruct e; try exact IH. by destruct He.
Qed.

Lemma for_each_skip {A} (l : list A) (body : A → M unit) s :
  (∀ x, x ∈ l → body x s = (Returned tt, s)) → for_each l body s = (Returned tt, s).
Proof.
  induction l as [|x l IH]; intros Hbody; [done |]. cbn [for_each].
  rewrite (bind_Returned _ _ _ _ _ (Hbody x ltac:(left))). apply IH.
  intros y Hy. apply Hbody. by right.
Qed.

Section backward_walk.
Context `{OpLibrary}.

(** When no node reachable from the root requires grad, [backward] returns
    without changing anything: no seed is written, no hook and no rule is
    called, no line is written. *)
Theorem backward_nothing_requires_grad (fuel : nat) (r : ptr) (grad_seed : option Tensor)
    (h : heap) (tr : list event) :
  (∀ n nd, reachable h r n → h !! n = Some nd → requires_grad nd = false) →
  backward fuel (mkValue (Some r)) grad_seed (mkState h tr) = (Returned tt, mkState h tr).
Proof.
  intros Hno. rewrite backward_unfold. cbn [st_heap].
  assert (Hseed : seed_root r grad_seed (mkState h tr) = (Returned tt, mkState h tr)).
  { destruct (h !! r) as [rn|] eqn:Hr.
    - rewrite (seed_root_run _ _ _ _ _ Hr).
      rewrite (Hno r rn); [done | constructor; by eexists | done].
    - unfold seed_root. rewrite (bind_Returned _ _ _ _ _ (get_heap_run _ _)). by rewrite Hr. }
  rewrite (bind_Returned _ _ _ _ _ Hseed). apply for_each_skip.
  intros n_ Hn. rewrite topo_from_nodes, rev_fmap in Hn.
  apply list_elem_of_fmap in Hn as (n & -> & Hn). apply elem_of_rev, topo_nodes_iff in Hn.
  unfold backward_node. rewrite (bind_Returned _ _ _ _ _ (get_heap_run _ _)).
  cbn [deref mbind option_bind]. destruct (h !! n) as [nd|] eqn:Hnd; [| done].
  by rewrite (Hno n nd Hn Hnd).
Qed.

Lemma apply_vjp_trace fn n gy s :
  st_trace (apply_vjp fn n gy s).2 = st_trace s ++ [CallVjp n gy].
Proof.
  destruct s as [h tr]. unfold apply_vjp. rewrite (bind_Returned _ _ _ _ _ (emit_run _ _ _)).
  cbn [st_heap st_trace]. by destruct (fn n gy h) as [h' [what|]].
Qed.

Lemma dispatch_vjp_calls n nd s :
  ∃ new, st_trace (dispatch_vjp n nd s).2 = st_trace s ++ new
         ∧ sublist (vjp_calls new) [n].
Proof.
  destruct s as [h tr]. unfold dispatch_vjp. destruct (vjp_lookup (op nd)) as [fn|].
  - rewrite (bind_Returned _ _ _ _ _ (get_heap_run _ _)).
    exists [CallVjp n (from_option grad (grad nd) (h !! n))]. split; [| done].
    pose proof (apply_vjp_trace fn n (from_option grad (grad nd) (h !! n)) (mkState h tr)) as Ht.
    unfold try_catch.
    by destruct (apply_vjp fn n (from_option grad (grad nd) (h !! n)) (mkState h tr))
      as [[[]|e|] s1].
  - exists [LogBackwardNoVjp (op nd) (debug_name nd)]. split; [done |].
    apply sublist_nil_l.
Qed.

Lemma backward_node_calls fuel n_ s :
  ∃ new, st_trace (backward_node fuel n_ s).2 = st_trace s ++ new
         ∧ sublist (vjp_calls new) (omap id [n_]).
Proof.
  assert (Hnone : ∃ new, st_trace s = st_trace s ++ new
                         ∧ sublist (vjp_calls new) (omap id [n_])).
  { exists []. split; [by rewrite app_nil_r | apply sublist_nil_l]. }
  destruct s as [h tr]. unfold backward_node.
  rewrite (bind_Returned _ _ _ _ _ (get_heap_run _ _)).
  destruct (deref h n_) as [nd|]; [destruct n_ as [n|] |]; try done.
  destruct (negb (requires_grad nd)); [done |].
  pose proof (backward_checks_frame fuel n nd (length (inputs nd)) (mkState h tr))
    as [_ (new1 & Hnew1 & Hno1)].
  unfold bind at 1.
  destruct (backward_checks fuel n nd (length (inputs nd)) (mkState h tr))
    as [[[]|e|] s1]; cbn [snd st_trace] in *.
  - destruct (dispatch_vjp_calls n nd s1) as (new2 & Hnew2 & Hsub).
    exists (new1 ++ new2). split; [by rewrite Hnew2, Hnew1, app_assoc |].
    by rewrite vjp_calls_app, (vjp_calls_none _ Hno1).
  - exists new1. split; [done |]. rewrite (vjp_calls_none _ Hno1). apply sublist_nil_l.
  - exists new1. split; [done |]. rewrite (vjp_calls_none _ Hno1). apply sublist_nil_l.
Qed.

Lemma backward_walk_calls fuel (l : list (option ptr)) s :
  ∃ new, st_trace (for_each l (backward_node fuel) s).2 = st_trace s ++ new
         ∧ sublist (vjp_calls new) (omap id l).
Proof.
  revert s. induction l as [|n_ l IH]; intros s.
  { exists []. split; [by rewrite app_nil_r | done]. }
  cbn [for_each]. destruct (backward_node_calls fuel n_ s) as (new1 & Hnew1 & Hsub1).
  replace (omap id (n_ :: l)) with (omap id [n_] ++ omap id l) by (by destruct n_).
  unfold bind. destruct (backward_node fuel n_ s) as [[[]|e|] s1]; cbn [snd] in *.
  - destruct (IH s1) as (new2 & Hnew2 & Hsub2). exists (new1 ++ new2).
    split; [by rewrite Hnew2, Hnew1, app_assoc |].
    rewrite vjp_calls_app. by apply sublist_app.
  - exists new1. split; [done |]. by apply sublist_inserts_r.
  - exists new1. split; [done |]. by apply sublist_inserts_r.
Qed.

(** Whatever its outcome, [backward] calls the VJP rule of a node at most
    once, only for nodes reachable from the root, and in the reverse of the
    order of [topo_from]: the nodes of the recorded calls form a
    subsequence of the reversed order. *)
Theorem backward_vjp_calls_in_reverse_order (fuel : nat) (r : ptr) (grad_seed : option Tensor)
    (h : heap) (tr : list event) :
  let s' := (backward fuel (mkValue (Some r)) grad_seed (mkState h tr)).2 in
  (∃ new, st_trace s' = tr ++ new ∧ sublist (vjp_calls new) (rev (topo_nodes h r)))
  ∧ NoDup (rev (topo_nodes h r))
  ∧ (∀ n, n ∈ rev (topo_nodes h r) ↔ reachable h r n).
Proof.
  intros s'. split; [| split].
  - subst s'. rewrite backward_unfold. cbn [st_heap].
    assert (Hseed : ∃ h1, seed_root r grad_seed (mkState h tr) = (Returned tt, mkState h1 tr)).
    { destruct (h !! r) as [rn|] eqn:Hr.
      - rewrite (seed_root_run _ _ _ _ _ Hr). by eexists.
      - unfold seed_root. rewrite (bind_Returned _ _ _ _ _ (get_heap_run _ _)), Hr.
        by exists h. }
    destruct Hseed as [h1 Hseed]. rewrite (bind_Returned _ _ _ _ _ Hseed).
    destruct (backward_walk_calls fuel (rev (topo_from h r)) (mkState h1 tr))
      as (new & Hnew & Hsub).
    exists new. split; [done |].
    by rewrite topo_from_nodes, rev_fmap, omap_id_Some in Hsub.
  - apply NoDup_rev_2, topo_nodes_NoDup.
  - intros n. by rewrite elem_of_rev, topo_nodes_iff.
Qed.
End backward_walk.

Lemma backward_nothing_requires_grad_witness :
  @backward relu_library 1 (mkValue (Some 0)) None (start constant_heap)
  = (Returned tt, start constant_heap).
Proof.
  assert (H1 : ∀ n nd, reachable constant_heap 0 n → constant_heap !! n = Some nd →
                       requires_grad nd = false).
  { intros n nd _ Hn. unfold constant_heap in Hn.
    apply lookup_insert_Some in Hn as [[_ <-] | [_ Hn]]; [done |].
    by rewrite lookup_empty in Hn. }
  exact (@backward_nothing_requires_grad relu_library 1 0 None constant_heap [] H1).
Defined.

(** ** Applying a rule, recomputing the node itself *)

Section backward_steps.
Context `{OpLibrary}.

(** During [backward], when the loop body of a node [n] that requires grad
    has passed its checks and the op of [n] has a VJP rule, the rule is
    called once, on [n] and on the [grad] that [n] had when the body began.
    If the rule returns, [backward] goes on with the remaining entries on
    the heap the rule left; if it raises, [backward] raises [VjpFailed],
    carrying the identity of [n] and the cause, and visits no further node. *)
Theorem backward_rule_applied fuel r grad_seed s0 k n nd s s1 fn :
  let ns := rev (topo_from (st_heap s0) r) in
  backward_reaches fuel r grad_seed s0 k s →
  ns !! k = Some (Some n) →
  st_heap s !! n = Some nd → requires_grad nd = true →
  backward_checks fuel n nd (length (inputs nd)) s = (Returned tt, s1) →
  vjp_lookup (op nd) = Some fn →
  let tr2 := st_trace s1 ++ [CallVjp n (grad nd)] in
  (∀ h2, fn n (grad nd) (st_heap s1) = (h2, None) →
     backward fuel (mkValue (Some r)) grad_seed s0
     = for_each (drop (S k) ns) (backward_node fuel) (mkState h2 tr2))
  ∧ (∀ h2 what, fn n (grad nd) (st_heap s1) = (h2, Some what) →
     backward fuel (mkValue (Some r)) grad_seed s0
     = (Thrown (VjpFailed (ident_of (st_heap s1) n) (ExternalError what)), mkState h2 tr2)).
Proof.
  intros ns Hreach Hk Hn Hrg Hchk Hfn tr2.
  pose proof (backward_checks_frame fuel n nd (length (inputs nd)) s) as Hf.
  rewrite Hchk in Hf. destruct Hf as [Hheap _]. cbn [snd] in Hheap.
  assert (Hgy : from_option grad (grad nd) (st_heap s1 !! n) = grad nd).
  { pose proof (only_values_changed_grad _ _ n Hheap) as Hg. rewrite Hn in Hg.
    destruct (st_heap s1 !! n); cbn in *; [congruence | done]. }
  assert (Hnode : backward_node fuel (Some n) s
                  = (let '(h2, res) := fn n (grad nd) (st_heap s1) in
                     (match res with
                      | None => Returned tt
                      | Some what =>
                        Thrown (VjpFailed (ident_of (st_heap s1) n) (ExternalError what))
                      end, mkState h2 tr2))).
  { rewrite (backward_node_live _ _ _ _ Hn Hrg).
    rewrite (bind_Returned _ _ _ _ _ Hchk). unfold dispatch_vjp. rewrite Hfn.
    destruct s1 as [h1 tr1]. rewrite (bind_Returned _ _ _ _ _ (get_heap_run _ _)).
    cbn [st_heap] in *. rewrite Hgy. unfold try_catch, apply_vjp.
    rewrite (bind_Returned _ _ _ _ _ (emit_run _ _ _)). cbn [st_heap st_trace].
    by destruct (fn n (grad nd) h1) as [h2 [what|]]. }
  rewrite (backward_from _ _ _ _ _ _ _ Hreach Hk). split.
  - intros h2 Hrule. rewrite Hrule in Hnode. by rewrite (bind_Returned _ _ _ _ _ Hnode).
  - intros h2 what Hrule. rewrite Hrule in Hnode. by rewrite (bind_Thrown _ _ _ _ _ Hnode).
Qed.

(** During [backward], when the loop body reaches a node [n] that requires
    grad, is a checkpoint and has an empty value, it calls
    [recompute_subgraph] on [n] right after the step hook.  If that returns
    [false], [backward] raises [RecomputeCheckpointFailed] with the identity
    of [n], having called no VJP rule for [n]; if it returns [true], the
    body goes on with the checks of the parents. *)
Theorem backward_self_recompute fuel r grad_seed s0 k n nd s :
  let ns := rev (topo_from (st_heap s0) r) in
  backward_reaches fuel r grad_seed s0 k s →
  ns !! k = Some (Some n) →
  st_heap s !! n = Some nd → requires_grad nd = true →
  is_checkpoint nd = true → size_ (value nd) = 0 →
  let sa := mkState (st_heap s) (st_trace s ++ [CallOnBackpropStep n (grad nd)]) in
  (∀ s2, recompute_subgraph fuel (Some n) sa = (Returned false, s2) →
     backward fuel (mkValue (Some r)) grad_seed s0
     = (Thrown (RecomputeCheckpointFailed (ident_of (st_heap s2) n)), s2)
     ∧ ∀ gy, CallVjp n gy ∉ new_events s s2)
  ∧ (∀ s2, recompute_subgraph fuel (Some n) sa = (Returned true, s2) →
     backward fuel (mkValue (Some r)) grad_seed s0
     = (for_each (inputs nd) (ensure_parent fuel n) ;;
        dispatch_vjp n nd ;;
        for_each (drop (S k) ns) (backward_node fuel)) s2).
Proof.
  intros ns Hreach Hk Hn Hrg Hck Hsz. destruct s as [h tr]. intros sa.
  change sa with (mkState h (tr ++ [CallOnBackpropStep n (grad nd)])). clear sa.
  set (sa := mkState h (tr ++ [CallOnBackpropStep n (grad nd)])).
  assert (Hback : backward fuel (mkValue (Some r)) grad_seed s0
                  = (ok <- recompute_subgraph fuel (Some n) ;;
                     if ok : bool then
                       for_each (inputs nd) (ensure_parent fuel n) ;;
                       dispatch_vjp n nd ;;
                       for_each (drop (S k) ns) (backward_node fuel)
                     else
                       h' <- get_heap ;;
                       throw (RecomputeCheckpointFailed (ident_of h' n))) sa).
  { rewrite (backward_from _ _ _ _ _ _ _ Hreach Hk).
    unfold bind at 1. rewrite (backward_node_live _ _ _ _ Hn Hrg).
    unfold backward_checks, recompute_self. rewrite firstn_all, Hck.
    rewrite (bool_decide_eq_true_2 _ Hsz). cbn [andb when].
    unfold on_backprop_step.
    unfold bind, emit. cbn [st_heap st_trace]. fold sa.
    destruct (recompute_subgraph fuel (Some n) sa) as [[[|]|e|] [h2 tr2']]; try done.
    unfold ret. cbn beta iota.
    by destruct (for_each (inputs nd) (ensure_parent fuel n) _) as [[[]|e|] sb]. }
  rewrite Hback. split.
  - intros s2 Hrec. rewrite (bind_Returned _ _ _ _ _ Hrec). destruct s2 as [h2 tr2'].
    split; [done |]. intros gy. apply no_vjp_in_new_events.
    transitivity sa.
    + exists [CallOnBackpropStep n (grad nd)]. split; [done |].
      constructor; [| done]. by intros [].
    + pose proof (recompute_subgraph_frame fuel (Some n) sa) as Hf.
      rewrite Hrec in Hf. apply Hf.
  - intros s2 Hrec. by rewrite (bind_Returned _ _ _ _ _ Hrec).
Qed.
End backward_steps.

Lemma backward_rule_applied_witness :
  (@backward relu_library 4 (mkValue (Some 3)) None (start chain)).1 = Returned tt.
Proof.
  set (s := (seed_root 3 None (start chain)).2).
  set (nd := default (leaf_node Tensor_empty false "") (st_heap s !! 3)).
  set (s1 := (@backward_checks relu_library 4 3 nd (length (inputs nd)) s).2).
  set (h2 := (relu_vjp 3 (grad nd) (st_heap s1)).1).
  assert (H1 : @backward_reaches relu_library 4 3 None (start chain) 0 s)
    by (vm_compute; reflexivity).
  assert (H2 : rev (topo_from (st_heap (start chain)) 3) !! 0 = Some (Some 3))
    by (vm_compute; reflexivity).
  assert (H3 : st_heap s !! 3 = Some nd) by (vm_compute; reflexivity).
  assert (H4 : requires_grad nd = true) by (vm_compute; reflexivity).
  assert (H5 : @backward_checks relu_library 4 3 nd (length (inputs nd)) s = (Returned tt, s1))
    by (vm_compute; reflexivity).
  assert (H6 : @vjp_lookup relu_library (op nd) = Some relu_vjp) by (vm_compute; reflexivity).
  assert (H7 : relu_vjp 3 (grad nd) (st_heap s1) = (h2, None)) by (vm_compute; reflexivity).
  destruct (@backward_rule_applied relu_library 4 3 None (start chain) 0 3 nd s s1 relu_vjp
              H1 H2 H3 H4 H5 H6) as [Hok _].
  rewrite (Hok h2 H7). vm_compute. reflexivity.
Defined.

Lemma backward_self_recompute_witness :
  (@backward relu_library 4 (mkValue (Some 2)) None evicted_chain_without_b).1
  = Thrown (RecomputeCheckpointFailed (mkIdent 2 (Some "b"))).
Proof.
  set (s := (seed_root 2 None evicted_chain_without_b).2).
  set (nd := default (leaf_node Tensor_empty false "") (st_heap s !! 2)).
  set (sa := mkState (st_heap s) (st_trace s ++ [CallOnBackpropStep 2 (grad nd)])).
  set (s2 := (@recompute_subgraph relu_library 4 (Some 2) sa).2).
  assert (H1 : @backward_reaches relu_library 4 2 None evicted_chain_without_b 0 s)
    by (vm_compute; reflexivity).
  assert (H2 : rev (topo_from (st_heap evicted_chain_without_b) 2) !! 0 = Some (Some 2))
    by (vm_compute; reflexivity).
  assert (H3 : st_heap s !! 2 = Some nd) by (vm_compute; reflexivity).
  assert (H4 : requires_grad nd = true) by (vm_compute; reflexivity).
  assert (H5 : is_checkpoint nd = true) by (vm_compute; reflexivity).
  assert (H6 : size_ (value nd) = 0) by (vm_compute; reflexivity).
  assert (H7 : @recompute_subgraph relu_library 4 (Some 2) sa = (Returned false, s2))
    by (vm_compute; reflexivity).
  destruct (@backward_self_recompute relu_library 4 2 None evicted_chain_without_b 0 2 nd s
              H1 H2 H3 H4 H5 H6) as [Hfail _].
  destruct (Hfail s2 H7) as [Hthrown _]. rewrite Hthrown. vm_compute. reflexivity.
Defined.

(** ** Recomputing what marking prepared *)

Section recompute_paths.
Context `{OpLibrary}.

Lemma restore_parents_present rec i slots h tr :
  (∀ sv p, (sv, p) ∈ slots →
     node sv = None ∧ ∀ a pn, p = Some a → h !! a = Some pn → size_ (value pn) ≠ 0) →
  ∃ tr', restore_parents rec i slots (mkState h tr) = (Returned true, mkState h tr').
Proof.
  revert i tr. induction slots as [|[sv parent] slots IH]; intros i tr Hslots.
  { by exists tr. }
  assert (Hrest : ∀ sv' p, (sv', p) ∈ slots →
            node sv' = None ∧ ∀ a pn, p = Some a → h !! a = Some pn → size_ (value pn) ≠ 0)
    by (intros sv' p Hin; apply Hslots; by right).
  destruct (Hslots sv parent) as [Hsv Hval]; [by left |].
  cbn [restore_parents]. rewrite (bind_Returned _ _ _ _ _ (get_heap_run _ _)).
  destruct (deref h parent) as [pn|] eqn:Hd; [destruct parent as [p|] |].
  - cbn in Hd. pose proof (Hval p pn eq_refl Hd) as Hne.
    rewrite (bind_Returned _ _ _ _ _ (emit_run _ _ _)).
    rewrite bool_decide_eq_false_2 by done. cbn [when].
    rewrite (bind_Returned _ _ _ _ _ (ret_run _ _)). rewrite Hsv.
    rewrite decide_False by done. apply IH, Hrest.
  - done.
  - destruct parent; rewrite (bind_Returned _ _ _ _ _ (emit_run _ _ _)); apply IH, Hrest.
Qed.

(** A checkpoint whose placeholders are null, as marking leaves them, and
    whose live inputs all have a value is recomputed in one step: no input
    is touched, the forward evaluator is called once on the node, and when
    it returns a tensor [recompute_subgraph] stores it as the node's value
    and returns [true], changing nothing else in the graph. *)
Theorem recompute_subgraph_restores (fuel : nat) (c : ptr) (h : heap) (tr : list event)
    (nd : Node) (t : Tensor) :
  h !! c = Some nd → is_checkpoint nd = true → saved_inputs nd ≠ [] →
  Forall (λ sv, node sv = None) (saved_inputs nd) →
  (∀ p pn, Some p ∈ inputs nd → h !! p = Some pn → size_ (value pn) ≠ 0) →
  forward_eval (op nd) ((λ p, value <$> deref h p) <$> inputs nd) = inr t →
  ∃ tr', recompute_subgraph (S fuel) (Some c) (mkState h tr)
         = (Returned true, mkState (<[c := set_value t nd]> h) tr').
Proof.
  intros Hc Hck Hne Hnull Hvals Hev.
  cbn [recompute_subgraph]. rewrite (bind_Returned _ _ _ _ _ (get_heap_run _ _)).
  cbn [deref mbind option_bind]. rewrite Hc, Hck. cbn [negb].
  destruct (saved_inputs nd) as [|sv0 svs] eqn:Hsv; [done |].
  assert (Hrng : ∃ tr1,
    when (has_saved_rng nd) (restore_rng_state (saved_rng_blob nd)) (mkState h tr)
    = (Returned tt, mkState h tr1)).
  { destruct (has_saved_rng nd); cbn; eauto. }
  destruct Hrng as (tr1 & Hrng). rewrite (bind_Returned _ _ _ _ _ Hrng).
  destruct (restore_parents_present (recompute_subgraph fuel) 0
              (zip (sv0 :: svs) (inputs nd)) h tr1) as (tr2 & Hres).
  { intros sv p Hin. split.
    - apply elem_of_zip_l in Hin. rewrite Forall_forall in Hnull. by apply Hnull.
    - intros a pn -> Ha. apply elem_of_zip_r in Hin. by apply (Hvals a pn). }
  rewrite (bind_Returned _ _ _ _ _ Hres).
  pose proof (forward_eval_node_run c h tr2 nd Hc) as Hrun.
  unfold parent_values in Hrun. rewrite Hev in Hrun.
  erewrite try_catch_Returned; [by eexists |].
  rewrite (bind_Returned _ _ _ _ _ Hrun).
  rewrite (bind_Returned _ _ _ _ _ (update_live _ _ _ _ _ Hc)).
  unfold on_recomputed. rewrite (bind_Returned _ _ _ _ _ (emit_run _ _ _)). reflexivity.
Qed.

(** A node without inputs that is marked as a checkpoint can never be
    recomputed: marking stores no placeholder for it, and
    [recompute_subgraph] on it writes one line and returns [false] without
    touching the graph or calling the evaluator. *)
Theorem checkpoint_without_inputs_not_recomputable (fuel : nat) (c : ptr)
    (opts : CheckpointOptions) (h : heap) (tr : list event) (nd : Node) :
  h !! c = Some nd → is_checkpoint nd = false → inputs nd = [] →
  let s1 := (mark_node_checkpoint (Some c) opts (mkState h tr)).2 in
  is_checkpointed (st_heap s1) (Some c) = true
  ∧ recompute_subgraph (S fuel) (Some c) s1
    = (Returned false,
       mkState (st_heap s1) (st_trace s1 ++ [LogNoSavedInputs (ident_of (st_heap s1) c) 0])).
Proof.
  intros Hc Hck Hin s1. subst s1.
  rewrite (mark_node_checkpoint_fresh _ _ _ _ _ Hc Hck). cbn [snd st_heap st_trace].
  unfold is_checkpointed. cbn [deref mbind option_bind]. rewrite lookup_insert_eq.
  split; [done |].
  cbn [recompute_subgraph]. rewrite (bind_Returned _ _ _ _ _ (get_heap_run _ _)).
  cbn [deref mbind option_bind]. rewrite lookup_insert_eq.
  cbn [marked is_checkpoint negb saved_inputs inputs]. rewrite Hin. cbn [fmap list_fmap].
  by rewrite (bind_Returned _ _ _ _ _ (emit_run _ _ _)).
Qed.
End recompute_paths.

Lemma recompute_subgraph_restores_witness :
  (@recompute_subgraph relu_library 1 (Some 2)
     (mkState (st_heap marked_chain_without_b) [])).1 = Returned true.
Proof.
  set (nd := default (leaf_node Tensor_empty false "") (st_heap marked_chain_without_b !! 2)).
  assert (H1 : st_heap marked_chain_without_b !! 2 = Some nd) by (vm_compute; reflexivity).
  assert (H2 : is_checkpoint nd = true) by (vm_compute; reflexivity).
  assert (H3 : saved_inputs nd ≠ []) by (vm_compute; discriminate).
  assert (H4 : Forall (λ sv, node sv = None) (saved_inputs nd)).
  { apply (bool_decide_unpack _). vm_compute. exact I. }
  assert (H5 : ∀ p pn, Some p ∈ inputs nd → st_heap marked_chain_without_b !! p = Some pn →
                       size_ (value pn) ≠ 0).
  { intros p pn Hp. change (inputs nd) with [Some 1] in Hp.
    apply list_elem_of_singleton in Hp as [= ->].
    intros Hpn. vm_compute in Hpn. injection Hpn as <-. vm_compute. discriminate. }
  assert (H6 : @forward_eval relu_library (op nd)
                 ((λ p, value <$> deref (st_heap marked_chain_without_b) p) <$> inputs nd)
               = inr t22) by (vm_compute; reflexivity).
  destruct (@recompute_subgraph_restores relu_library 0 2 (st_heap marked_chain_without_b) []
              nd t22 H1 H2 H3 H4 H5 H6) as [tr' Hrun].
  by rewrite Hrun.
Defined.

Lemma checkpoint_without_inputs_not_recomputable_witness :
  (@recompute_subgraph relu_library 1 (Some 0)
     (mark_node_checkpoint (Some 0) (mkOpts false) (start chain)).2).1 = Returned false.
Proof.
  assert (H1 : chain !! 0 = Some (leaf_node t22 true "x")) by (vm_compute; reflexivity).
  assert (H2 : is_checkpoint (leaf_node t22 true "x") = false) by reflexivity.
  assert (H3 : inputs (leaf_node t22 true "x") = []) by reflexivity.
  destruct (@checkpoint_without_inputs_not_recomputable relu_library 0 0 (mkOpts false)
              chain [] _ H1 H2 H3) as [_ Hrun].
  unfold start. by rewrite Hrun.
Defined.

(** ** Null placeholders are kept *)

Lemma placeholders_null_pointwise (h h' : heap) :
  (∀ n nd', h' !! n = Some nd' →
     ∃ nd, h !! n = Some nd
           ∧ (saved_inputs nd' = saved_inputs nd
              ∨ Forall (λ sv, node sv = None) (saved_inputs nd'))) →
  placeholders_null h → placeholders_null h'.
Proof.
  intros Hpt Hnull n nd' Hn. destruct (Hpt n nd' Hn) as (nd & Hnd & [-> | ?]); [| done].
  by apply (Hnull n nd).
Qed.

Lemma marked_placeholders h opts nd :
  Forall (λ sv, node sv = None) (saved_inputs (marked h opts nd)).
Proof. cbn [marked saved_inputs]. apply Forall_fmap. by apply Forall_true. Qed.

Lemma mark_bfs_placeholders should h r tr :
  placeholders_null h →
  placeholders_null
    (st_heap (mark_bfs_loop should (size h) [(Some r, 0%Z)] ∅ 0%Z (mkState h tr)).2).
Proof.
  destruct (mark_bfs_from_root should h r tr) as (h' & tr' & -> & Hdead & Hheap & _).
  cbn [snd st_heap]. apply placeholders_null_pointwise. intros n nd' Hn.
  destruct (h !! n) as [nd|] eqn:Hnd.
  - exists nd. split; [done |].
    destruct (Hheap n nd Hnd) as [E | (_ & _ & _ & E)]; rewrite E in Hn; injection Hn as <-.
    + by left.
    + right. apply marked_placeholders.
  - rewrite (Hdead n Hnd) in Hn. done.
Qed.

Section placeholders.
Context `{OpLibrary}.

Lemma compute_forward_walk_placeholders l s :
  placeholders_null (st_heap s) →
  placeholders_null (st_heap (foldl compute_forward_step s l)).
Proof.
  revert s. induction l as [|n_ l IH]; intros s Hnull; [done |].
  cbn [foldl]. apply IH. unfold compute_forward_step.
  destruct (deref (st_heap s) n_) as [nd|] eqn:Hd; [destruct n_ as [n|]; [| done] | done].
  destruct (decide _); [done |]. destruct (forward_eval _ _); [done |].
  cbn [st_heap]. apply map_Forall_insert_2; [| done]. cbn in Hd.
  apply (Hnull n nd Hd).
Qed.

(** From a graph whose placeholders are all null, every operation of the
    checkpoint subsystem, and [zero_grad], leaves a graph whose placeholders
    are all null: marking, both automatic markings, the refresh of the
    snapshots, forward evaluation, eviction and recomputation. *)
Theorem placeholders_null_kept (s : State) :
  placeholders_null (st_heap s) →
  (∀ node_ opts, placeholders_null (st_heap (mark_node_checkpoint node_ opts s).2))
  ∧ (∀ root n, placeholders_null (st_heap (auto_checkpoint_every_n root n s).2))
  ∧ (∀ root th, placeholders_null (st_heap (auto_checkpoint_by_depth root th s).2))
  ∧ (∀ root, placeholders_null (st_heap (capture_checkpoint_snapshots root s).2))
  ∧ (∀ root, placeholders_null (st_heap (compute_forward_values root s).2))
  ∧ (∀ root, placeholders_null (st_heap (evict_non_checkpoint_values root s).2))
  ∧ (∀ fuel node_, placeholders_null (st_heap (recompute_subgraph fuel node_ s).2))
  ∧ (∀ root, placeholders_null (st_heap (zero_grad root s).2)).
Proof.
  intros Hnull. destruct s as [h tr]. cbn [st_heap] in Hnull.
  split; [| split; [| split; [| split; [| split; [| split; [| split]]]]]].
  - intros node_ opts. by apply mark_node_checkpoint_placeholders.
  - intros [[r|]] n; unfold auto_checkpoint_every_n; case_decide; try done. cbn [node].
    rewrite (bind_Returned _ _ _ _ _ (get_heap_run _ _)).
    rewrite (every_n_loop_bfs (size h) n [(Some r, 0%Z)]). by apply mark_bfs_placeholders.
  - intros [[r|]] th; [| done]. unfold auto_checkpoint_by_depth. cbn [node].
    rewrite (bind_Returned _ _ _ _ _ (get_heap_run _ _)).
    rewrite (by_depth_loop_bfs _ _ _ _ 0%Z). by apply mark_bfs_placeholders.
  - intros root.
    pose proof (capture_checkpoint_snapshots_same_saved_inputs root (mkState h tr)) as Hsame.
    apply (placeholders_null_pointwise h); [| done]. intros n nd' Hn.
    specialize (Hsame n). rewrite Hn in Hsame. cbn [st_heap] in Hsame.
    destruct (h !! n) as [nd|]; [| done]. exists nd. split; [done |]. left.
    cbn in Hsame. congruence.
  - intros [[r|]]; [| done]. rewrite compute_forward_values_run. cbn [snd].
    by apply compute_forward_walk_placeholders.
  - intros [[r|]]; [| done].
    change (st_heap (evict_non_checkpoint_values (mkValue (Some r)) (mkState h tr)).2)
      with (sw_heap (swept h r)).
    apply (placeholders_null_pointwise h); [| done]. intros n nd' Hn.
    rewrite swept_heap in Hn. destruct (h !! n) as [nd|]; [| done]. exists nd.
    split; [done |]. left. cbn in Hn. injection Hn as <-. by case_decide.
  - intros fuel node_. pose proof (recompute_subgraph_frame fuel node_ (mkState h tr)) as [Hv _].
    by apply (only_values_changed_placeholders h).
  - intros [[r|]]; [| done]. rewrite zero_grad_run. cbn [snd st_heap].
    apply (placeholders_null_pointwise h); [| done]. intros n nd' Hn.
    rewrite foldl_alter_lookup in Hn by apply topo_nodes_NoDup.
    destruct (h !! n) as [nd|]; [| by case_decide]. exists nd. split; [done |]. left.
    case_decide; cbn in Hn; injection Hn as <-; [| done].
    unfold zeroed. by destruct (requires_grad nd).
Qed.
End placeholders.

Lemma placeholders_null_kept_witness : placeholders_null (st_heap evicted_chain).
Proof.
  assert (H1 : placeholders_null (st_heap marked_chain)).
  { apply (bool_decide_unpack _). vm_compute. exact I. }
  destruct (@placeholders_null_kept relu_library marked_chain H1)
    as (_ & _ & _ & _ & _ & Hevict & _).
  exact (Hevict (mkValue (Some 3))).
Defined.

(** ** Eviction at the two extremes *)

Lemma protected_path_reachable h r n : protected_path h r n → reachable h r n.
Proof.
  induction 1 as [Hlive | m nd p _ IH Hm _ Hp Hlive]; [by constructor |].
  by apply (reachable_input h r m nd p).
Qed.

Lemma reachable_protected_path h r n :
  (∀ m nd, reachable h r m → h !! m = Some nd → is_checkpoint nd = false) →
  reachable h r n → protected_path h r n.
Proof.
  intros Hno. induction 1 as [Hlive | m nd p Hrm IH Hm Hp Hlive]; [by constructor |].
  apply (protected_input h r m nd p); [done | done | by apply (Hno m) | done | done].
Qed.

(** When no node reachable from the root is a checkpoint, everything
    reachable is protected: [evict_non_checkpoint_values] changes nothing
    in the graph and reports 0 activations and 0 bytes. *)
Theorem evict_without_checkpoints (r : ptr) (h : heap) (tr : list event) :
  (∀ n nd, reachable h r n → h !! n = Some nd → is_checkpoint nd = false) →
  evict_non_checkpoint_values (mkValue (Some r)) (mkState h tr)
  = (Returned tt, mkState h (tr ++ [LogEvictFreed 0 0])).
Proof.
  intros Hno.
  assert (Hheap : sw_heap (swept h r) = h).
  { apply map_eq. intros n. rewrite swept_heap. destruct (h !! n) as [nd|]; [| done]. cbn.
    rewrite decide_False; [done |]. intros [Hseen Hnp]. apply Hnp, protected_of_spec.
    apply reachable_protected_path; [done |]. by apply swept_seen. }
  destruct (swept_acct h r) as [_ _ _ (l & _ & Hl & Hcount & Hbytes)].
  assert (l = []) as ->.
  { destruct l as [|a l]; [done |]. exfalso.
    destruct (proj1 (Hl a) ltac:(left)) as [Hseen Hnp]. apply Hnp, protected_of_spec.
    apply reachable_protected_path; [done |]. by apply swept_seen. }
  transitivity (Returned tt,
    mkState (sw_heap (swept h r))
      (tr ++ [LogEvictFreed (cleared_count (swept h r)) (cleared_bytes (swept h r))]));
    [reflexivity |].
  by rewrite Hheap, Hcount, Hbytes.
Qed.

(** When the root itself is a checkpoint, it alone is protected:
    [evict_non_checkpoint_values] keeps the root as it is and empties the
    value and the tape of every other node reachable from it. *)
Theorem evict_from_checkpointed_root (r : ptr) (h : heap) (tr : list event) (rn : Node) :
  h !! r = Some rn → is_checkpoint rn = true →
  let h' := heap_after (evict_non_checkpoint_values (mkValue (Some r))) (mkState h tr) in
  h' !! r = Some rn
  ∧ ∀ n nd, reachable h r n → n ≠ r → h !! n = Some nd → h' !! n = Some (evict_node nd).
Proof.
  intros Hr Hck h'. assert (Hh' : h' = sw_heap (swept h r)) by done.
  assert (Honly : ∀ n, protected_path h r n → n = r).
  { induction 1 as [| m nd p _ IH Hm Hnc _ _]; [done |]. subst m. congruence. }
  split.
  - rewrite Hh', swept_heap, Hr. cbn. rewrite decide_False; [done |].
    intros [_ Hnp]. apply Hnp, protected_of_spec. constructor. by eexists.
  - intros n nd Hn Hne Hnd. rewrite Hh', swept_heap, Hnd. cbn.
    rewrite decide_True; [done |]. split; [by apply swept_seen |].
    intros Hp. apply protected_of_spec, Honly in Hp. done.
Qed.

Lemma evict_without_checkpoints_witness :
  evict_non_checkpoint_values (mkValue (Some 3)) (start chain)
  = (Returned tt, mkState chain [LogEvictFreed 0 0]).
Proof.
  assert (H0 : map_Forall (λ _ nd, is_checkpoint nd = false) chain).
  { apply (bool_decide_unpack _). vm_compute. exact I. }
  assert (H1 : ∀ n nd, reachable chain 3 n → chain !! n = Some nd → is_checkpoint nd = false).
  { intros n nd _ Hn. by apply (H0 n nd). }
  exact (evict_without_checkpoints 3 chain [] H1).
Defined.

Lemma evict_from_checkpointed_root_witness :
  value <$>
    (heap_after (evict_non_checkpoint_values (mkValue (Some 2))) marked_chain !! 1)
  = Some Tensor_empty.
Proof.
  set (rn := default (leaf_node Tensor_empty false "") (st_heap marked_chain !! 2)).
  assert (H1 : st_heap marked_chain !! 2 = Some rn) by (vm_compute; reflexivity).
  assert (H2 : is_checkpoint rn = true) by (vm_compute; reflexivity).
  destruct (evict_from_checkpointed_root 2 (st_heap marked_chain) (st_trace marked_chain)
              rn H1 H2) as [_ Hrest].
  assert (H3 : st_heap marked_chain !! 1 = Some (unary_node Relu 0 t22 "a"))
    by (vm_compute; reflexivity).
  assert (H4 : reachable (st_heap marked_chain) 2 1).
  { apply (reachable_input _ 2 2 rn 1); [constructor; by eexists | done | | by eexists].
    vm_compute. left. }
  change (heap_after (evict_non_checkpoint_values (mkValue (Some 2))) marked_chain)
    with (heap_after (evict_non_checkpoint_values (mkValue (Some 2)))
            (mkState (st_heap marked_chain) (st_trace marked_chain))).
  by rewrite (Hrest 1 _ H4 ltac:(done) H3).
Defined.

(** ** The tangent [jvp] returns *)

Section jvp_result.
Context `{OpLibrary}.





End jvp_result.


